(** * Order-book synchronisation: a shallow embedding and its properties

    The development follows the TypeScript sources file by file:

    - [Helpers]               [src/orderbook/orders/common/helpers.ts]
    - [Wyvern]                [src/sync/onchain/events/wyvern-v2.3/index.ts]
    - [RemoveBuyOrderEvents]  [src/jobs/order-updates/remove-buy-order-events.ts]
    - [ResyncAttributeCache]  [src/jobs/update-attribute/resync-attribute-cache.ts]

    Database tables are lists of rows, queues are lists of payloads (or maps
    keyed by job id where the job id is what matters), asynchronous code is
    sequential state passing, and a rejected promise is an explicit error
    result.  The first part of the file holds the model, the second part the
    lemmas and theorems about it. *)

From Stdlib Require Import ZArith QArith String Ascii List Bool Lia.
From stdpp Require Import base decidable option list sorting gmap strings pretty.

Local Open Scope Z_scope.
Local Open Scope string_scope.
Local Open Scope list_scope.

(** ** Process configuration ([@/config/index])

    Only the fields read by the modelled code. *)

Record Config := {
  chainId : Z;
  acceptOrders : bool;
  doBackgroundWork : bool;
}.

(** ** JavaScript strings *)

Module Js.

(** [String.prototype.toLowerCase], on the ASCII letters; the strings it is
    applied to are hexadecimal hashes and addresses. *)
Definition is_upper (c : ascii) : bool :=
  ((65 <=? N_of_ascii c) && (N_of_ascii c <=? 90))%N.

Definition lower_ascii (c : ascii) : ascii :=
  if is_upper c then ascii_of_N (N_of_ascii c + 32) else c.

Fixpoint toLowerCase (s : string) : string :=
  match s with
  | EmptyString => EmptyString
  | String c s' => String (lower_ascii c) (toLowerCase s')
  end.

(** A string is in lower case when none of its characters is an upper-case
    letter. *)
Fixpoint lowercase (s : string) : Prop :=
  match s with
  | EmptyString => True
  | String c s' => is_upper c = false /\ lowercase s'
  end.

End Js.

(** ** Promises that may reject: a state and exception monad *)

Inductive error := DecodeError | TypeError | SqlError | LockError.

#[global] Instance error_eq_dec : EqDecision error.
Proof. solve_decision. Defined.

Inductive result (A : Type) :=
| Ok (a : A)
| Throw (e : error).
Arguments Ok {A} a.
Arguments Throw {A} e.

Definition M (S A : Type) : Type := S -> S * result A.

Definition ret {S A} (a : A) : M S A := fun s => (s, Ok a).

Definition throw {S A} (e : error) : M S A := fun s => (s, Throw e).

Definition bind {S A B} (m : M S A) (k : A -> M S B) : M S B :=
  fun s =>
    match m s with
    | (s', Ok a) => k a s'
    | (s', Throw e) => (s', Throw e)
    end.

Notation "'let!' x ':=' m 'in' k" := (bind m (fun x => k))
  (at level 10, x name, m at level 100, k at level 200).
Notation "m ;> k" := (bind m (fun _ => k))
  (at level 100, k at level 200, right associativity).

Definition modify {S} (f : S -> S) : M S unit := fun s => (f s, Ok tt).

(** A value that is [undefined] or a call that throws, turned into a throw. *)
Definition orThrow {S A} (e : error) (o : option A) : M S A :=
  match o with
  | Some a => ret a
  | None => throw e
  end.

(** [try { m } catch (error) { h error }] *)
Definition try_catch {S A} (m : M S A) (h : error -> M S A) : M S A :=
  fun s =>
    match m s with
    | (s', Throw e) => h e s'
    | r => r
    end.

(** [for (const x of xs) { body x }] *)
Fixpoint for_of {S X} (xs : list X) (body : X -> M S unit) : M S unit :=
  match xs with
  | [] => ret tt
  | x :: xs' => body x ;> for_of xs' body
  end.

(** A node [Buffer] is a list of bytes. *)
#[global] Instance byte_eq_dec : EqDecision Byte.byte := Byte.byte_eq_dec.

(** ** [src/orderbook/orders/common/helpers.ts] *)

Module Helpers.

(** Rows of [bulk_cancel_events]; [maker] is a [bytea] column. *)
Record BulkCancelRow := {
  order_kind : string;
  maker : list Byte.byte;
  min_nonce : Z;
}.

Section GetMinNonce.

(** [toBuffer] of [@/common/utils], which turns an address string into the
    bytes stored in the table. *)
Variable toBuffer : string -> list Byte.byte.

(** [WHERE order_kind = $/orderKind/ AND maker = $/maker/] *)
Definition selected (orderKind : string) (mk : string) (r : BulkCancelRow) : Prop :=
  order_kind r = orderKind /\ maker r = toBuffer mk.

#[global] Instance selected_dec orderKind mk r : Decision (selected orderKind mk r).
Proof. unfold selected. apply _. Defined.

(** [ORDER BY bulk_cancel_events.min_nonce DESC] *)
Definition by_min_nonce_desc (r1 r2 : BulkCancelRow) : Prop :=
  min_nonce r2 <= min_nonce r1.

#[global] Instance by_min_nonce_desc_dec r1 r2 : Decision (by_min_nonce_desc r1 r2).
Proof. unfold by_min_nonce_desc. apply _. Defined.

(** The scalar sub-query

      SELECT <column> FROM bulk_cancel_events
      WHERE ... ORDER BY bulk_cancel_events.min_nonce DESC LIMIT 1

    where [column] is [min_nonce + 1] in the first statement and [min_nonce]
    in the second; it is [NULL] ([None]) when no row is selected. *)
Definition subquery (column : BulkCancelRow -> Z)
    (bulk_cancel_events : list BulkCancelRow) (orderKind mk : string) : option Z :=
  head (column <$>
          take 1 (merge_sort by_min_nonce_desc
                    (filter (selected orderKind mk) bulk_cancel_events))).

(** [coalesce(x, 0)] *)
Definition coalesce0 (x : option Z) : Z := default 0 x.

Definition getMinNonce (config : Config)
    (bulk_cancel_events : list BulkCancelRow) (orderKind mk : string) : Z :=
  if bool_decide (chainId config = 4 /\ orderKind = "wyvern-v2.3") then
    coalesce0 (subquery (fun r => min_nonce r + 1) bulk_cancel_events orderKind mk)
  else
    coalesce0 (subquery min_nonce bulk_cancel_events orderKind mk).

(** What the claim speaks about: the nonces recorded for a pair, and being
    the largest of a list of nonces. *)
Definition recorded (bulk_cancel_events : list BulkCancelRow)
    (orderKind mk : string) : list Z :=
  min_nonce <$> filter (selected orderKind mk) bulk_cancel_events.

Definition is_maximum (m : Z) (l : list Z) : Prop :=
  m ∈ l /\ forall x, x ∈ l -> x <= m.

End GetMinNonce.

(** *** The other queries of the file *)

(** [idb.oneOrNone] of pg-promise: the row of a query that gives one row,
    [null] for a query that gives none; the promise rejects when the query
    gives more than one row. *)
Definition oneOrNone {Row : Type} (rows : list Row) : result (option Row) :=
  match rows with
  | [] => Ok None
  | [row] => Ok (Some row)
  | _ :: _ :: _ => Throw SqlError
  end.

(** Rows of the tables the queries read, with the columns they name.
    Numeric columns and the decimal strings compared with them are kept as
    the integers they denote. *)
Module FtBalance.
Record t := { contract : list Byte.byte; owner : list Byte.byte; amount : Z }.
End FtBalance.

Module NftBalance.
Record t := {
  contract : list Byte.byte;
  token_id : Z;
  owner : list Byte.byte;
  amount : Z;
}.
End NftBalance.

Module NftApprovalEvent.
Record t := {
  address : list Byte.byte;
  owner : list Byte.byte;
  operator : list Byte.byte;
  approved : bool;
  block : Z;
}.
End NftApprovalEvent.

Module NonceCancelEvent.
Record t := { order_kind : string; maker : list Byte.byte; nonce : Z }.
End NonceCancelEvent.

Module CancelEvent.
Record t := { order_id : string; timestamp : Z }.
End CancelEvent.

Module FillEvent2.
Record t := { order_id : string; amount : Z }.
End FillEvent2.

Section Queries.

Variable toBuffer : string -> list Byte.byte.

(** [getFtBalance(contract, owner)] *)
Definition getFtBalance (ft_balances : list FtBalance.t)
    (contract owner : string) : result Z :=
  match
    oneOrNone
      (filter (fun r => FtBalance.contract r = toBuffer contract
                        /\ FtBalance.owner r = toBuffer owner) ft_balances)
  with
  | Ok balanceResult =>
      Ok (match balanceResult with
          | Some row => FtBalance.amount row
          | None => 0
          end)
  | Throw e => Throw e
  end.

(** [getNftBalance(contract, tokenId, owner)] *)
Definition getNftBalance (nft_balances : list NftBalance.t)
    (contract : string) (tokenId : Z) (owner : string) : result Z :=
  match
    oneOrNone
      (filter (fun r => NftBalance.contract r = toBuffer contract
                        /\ NftBalance.token_id r = tokenId
                        /\ NftBalance.owner r = toBuffer owner) nft_balances)
  with
  | Ok balanceResult =>
      Ok (match balanceResult with
          | Some row => NftBalance.amount row
          | None => 0
          end)
  | Throw e => Throw e
  end.

(** [ORDER BY nft_approval_events.block DESC] *)
Definition by_block_desc (r1 r2 : NftApprovalEvent.t) : Prop :=
  NftApprovalEvent.block r2 <= NftApprovalEvent.block r1.

#[global] Instance by_block_desc_dec r1 r2 : Decision (by_block_desc r1 r2).
Proof. unfold by_block_desc. apply _. Defined.

(** The [WHERE] clause of [getNftApproval]. *)
Definition approval_of (contract owner operator : string)
    (r : NftApprovalEvent.t) : Prop :=
  NftApprovalEvent.address r = toBuffer contract
  /\ NftApprovalEvent.owner r = toBuffer owner
  /\ NftApprovalEvent.operator r = toBuffer operator.

#[global] Instance approval_of_dec contract owner operator r :
  Decision (approval_of contract owner operator r).
Proof. unfold approval_of. apply _. Defined.

(** [getNftApproval(contract, owner, operator)].  Among events of the
    triple in one block, [ORDER BY block DESC LIMIT 1] leaves the choice of
    the row to the database; the sort below takes one of them, and the
    properties stated of the function hold of any. *)
Definition getNftApproval (nft_approval_events : list NftApprovalEvent.t)
    (contract owner operator : string) : result bool :=
  match
    oneOrNone
      (take 1 (merge_sort by_block_desc
                 (filter (approval_of contract owner operator)
                         nft_approval_events)))
  with
  | Ok approvalResult =>
      Ok (match approvalResult with
          | Some row => NftApprovalEvent.approved row
          | None => false
          end)
  | Throw e => Throw e
  end.

(** [isNonceCancelled(orderKind, maker, nonce)] *)
Definition isNonceCancelled (nonce_cancel_events : list NonceCancelEvent.t)
    (orderKind maker : string) (nonce : Z) : result bool :=
  match
    oneOrNone
      (filter (fun r => NonceCancelEvent.order_kind r = orderKind
                        /\ NonceCancelEvent.maker r = toBuffer maker
                        /\ NonceCancelEvent.nonce r = nonce) nonce_cancel_events)
  with
  | Ok nonceCancelResult =>
      Ok (match nonceCancelResult with Some _ => true | None => false end)
  | Throw e => Throw e
  end.

(** [isOrderCancelled(orderId)] *)
Definition isOrderCancelled (cancel_events : list CancelEvent.t)
    (orderId : string) : result bool :=
  match
    oneOrNone (filter (fun r => CancelEvent.order_id r = orderId) cancel_events)
  with
  | Ok cancelResult =>
      Ok (match cancelResult with Some _ => true | None => false end)
  | Throw e => Throw e
  end.

(** [SUM(amount)]: [NULL] over no row. *)
Definition sql_sum (amounts : list Z) : option Z :=
  match amounts with
  | [] => None
  | _ :: _ => Some (foldr Z.add 0 amounts)
  end.

(** [getQuantityFilled(orderId)]: the aggregate query gives one row, whose
    [quantity_filled] is [NULL] or the sum; [fillResult.quantity_filled || 0]
    turns [NULL] into 0. *)
Definition getQuantityFilled (fill_events_2 : list FillEvent2.t)
    (orderId : string) : result Z :=
  match
    oneOrNone
      [sql_sum (FillEvent2.amount <$>
                  filter (fun r => FillEvent2.order_id r = orderId) fill_events_2)]
  with
  | Ok (Some quantity_filled) => Ok (default 0 quantity_filled)
  | Ok None => Throw TypeError
  | Throw e => Throw e
  end.

(** The amounts filled for an order, in the order of the table. *)
Definition fills_of (fill_events_2 : list FillEvent2.t) (orderId : string)
    : list Z :=
  FillEvent2.amount <$>
    filter (fun r => FillEvent2.order_id r = orderId) fill_events_2.

(** The approval events of a triple, and being of the latest block among a
    list of events. *)
Definition approvals (nft_approval_events : list NftApprovalEvent.t)
    (contract owner operator : string) : list NftApprovalEvent.t :=
  filter (approval_of contract owner operator) nft_approval_events.

Definition latest (r : NftApprovalEvent.t) (l : list NftApprovalEvent.t) : Prop :=
  r ∈ l /\ forall r', r' ∈ l -> NftApprovalEvent.block r' <= NftApprovalEvent.block r.

End Queries.

End Helpers.

(** ** [src/sync/onchain/events/wyvern-v2.3/index.ts] *)

Module Wyvern.

(** [Log] of [@ethersproject/abstract-provider]. *)
Record Log := {
  log_blockNumber : Z;
  log_blockHash : string;
  log_address : string;
  log_data : string;
  topics : list string;
  log_transactionHash : string;
  log_logIndex : Z;
}.

(** Modelled from the spec: [BaseEventParams] of [@/events/parser], the
    identity of an event: transaction hash, log index, batch index, block
    number, block hash, timestamp and address.  The callback reads [txHash],
    [logIndex] and [block]. *)
Record BaseEventParams := {
  address : string;
  block : Z;
  blockHash : string;
  txHash : string;
  logIndex : Z;
  batchIndex : Z;
  timestamp : Z;
}.

(** The arguments of a decoded log, one shape per event of [abi]; a
    [bytes32] or an [address] is a string, a [uint256] is a [BigNumber],
    kept as the integer it holds. *)
Inductive Args :=
| OrderCancelled (hash : string)
| OrdersMatched (buyHash sellHash maker taker : string) (price : Z)
    (metadata : string)
| NonceIncremented (maker : string) (newNonce : Z).

(** [parsedLog.args.<name>]; [None] is [undefined]. *)
Definition args_hash (a : Args) : option string :=
  match a with OrderCancelled h => Some h | _ => None end.
Definition args_buyHash (a : Args) : option string :=
  match a with OrdersMatched b _ _ _ _ _ => Some b | _ => None end.
Definition args_sellHash (a : Args) : option string :=
  match a with OrdersMatched _ s _ _ _ _ => Some s | _ => None end.
Definition args_maker (a : Args) : option string :=
  match a with
  | OrdersMatched _ _ m _ _ _ => Some m
  | NonceIncremented m _ => Some m
  | _ => None
  end.
Definition args_taker (a : Args) : option string :=
  match a with OrdersMatched _ _ _ t _ _ => Some t | _ => None end.
Definition args_price (a : Args) : option Z :=
  match a with OrdersMatched _ _ _ _ p _ => Some p | _ => None end.
Definition args_newNonce (a : Args) : option Z :=
  match a with NonceIncremented _ n => Some n | _ => None end.

(** What the callback takes from outside this file: the [Interface] built
    from the three event declarations, [parseEvent] of [@/events/parser],
    and the database server's answer to the [update] statement of the
    callback, which ends in [return "hash"] where PostgreSQL's grammar has
    [returning]: [returnAccepted] says whether the server runs the
    statement as a row-returning update ([true]) or rejects it ([false]).
    PostgreSQL rejects it, with a syntax error, whatever the table holds. *)
Class Env := {
  getEventTopic : string -> string;
  parseLog : Log -> option Args;
  parseEvent : Log -> option BaseEventParams;
  returnAccepted : bool;
}.

Module CancelEvent.
Record t := { orderHash : string; baseParams : BaseEventParams }.
End CancelEvent.

Module FillEvent.
Record t := {
  buyHash : string;
  sellHash : string;
  maker : string;
  taker : string;
  price : Z;
  baseParams : BaseEventParams;
}.
End FillEvent.

Module BulkCancelEvent.
Record t := { context : string; maker : string; newNonce : Z }.
End BulkCancelEvent.

Module HashInfo.
Record t := { context : string; hash : string }.
End HashInfo.

Module FillInfo.
Record t := {
  context : string;
  buyHash : string;
  sellHash : string;
  block : Z;
}.
End FillInfo.

(** The five arrays local to [syncCallback]. *)
Record Arrays := {
  bulkCancelEvents : list BulkCancelEvent.t;
  cancelEvents : list CancelEvent.t;
  fillEvents : list FillEvent.t;
  hashInfos : list HashInfo.t;
  fillInfos : list FillInfo.t;
}.

Definition no_arrays : Arrays :=
  {| bulkCancelEvents := []; cancelEvents := []; fillEvents := [];
     hashInfos := []; fillInfos := [] |}.

(** [array.push(x)] on each of them. *)
Definition push_bulkCancelEvent (x : BulkCancelEvent.t) : M Arrays unit :=
  modify (fun a =>
    {| bulkCancelEvents := bulkCancelEvents a ++ [x];
       cancelEvents := cancelEvents a; fillEvents := fillEvents a;
       hashInfos := hashInfos a; fillInfos := fillInfos a |}).
Definition push_cancelEvent (x : CancelEvent.t) : M Arrays unit :=
  modify (fun a =>
    {| bulkCancelEvents := bulkCancelEvents a;
       cancelEvents := cancelEvents a ++ [x]; fillEvents := fillEvents a;
       hashInfos := hashInfos a; fillInfos := fillInfos a |}).
Definition push_fillEvent (x : FillEvent.t) : M Arrays unit :=
  modify (fun a =>
    {| bulkCancelEvents := bulkCancelEvents a;
       cancelEvents := cancelEvents a; fillEvents := fillEvents a ++ [x];
       hashInfos := hashInfos a; fillInfos := fillInfos a |}).
Definition push_hashInfo (x : HashInfo.t) : M Arrays unit :=
  modify (fun a =>
    {| bulkCancelEvents := bulkCancelEvents a;
       cancelEvents := cancelEvents a; fillEvents := fillEvents a;
       hashInfos := hashInfos a ++ [x]; fillInfos := fillInfos a |}).
Definition push_fillInfo (x : FillInfo.t) : M Arrays unit :=
  modify (fun a =>
    {| bulkCancelEvents := bulkCancelEvents a;
       cancelEvents := cancelEvents a; fillEvents := fillEvents a;
       hashInfos := hashInfos a; fillInfos := fillInfos a ++ [x] |}).

(** The body of the [try] block for one log.  [switch] compares
    [log.topics[0]] with each [case] expression in turn and runs the first
    that is equal; a log of no listed topic runs none. *)
Definition try_block `{Env} (log : Log) : M Arrays unit :=
  let! baseParams := orThrow DecodeError (parseEvent log) in
  let context := txHash baseParams +:+ "-" +:+ pretty (logIndex baseParams) in
  if decide (topics log !! 0%nat = Some (getEventTopic "OrderCancelled")) then
    let! parsedLog := orThrow DecodeError (parseLog log) in
    let! hash := orThrow TypeError (args_hash parsedLog) in
    let orderHash := Js.toLowerCase hash in
    push_cancelEvent
      {| CancelEvent.orderHash := orderHash;
         CancelEvent.baseParams := baseParams |} ;>
    push_hashInfo {| HashInfo.context := context; HashInfo.hash := orderHash |}
  else if decide (topics log !! 0%nat = Some (getEventTopic "OrdersMatched")) then
    let! parsedLog := orThrow DecodeError (parseLog log) in
    let! buyHash := orThrow TypeError (args_buyHash parsedLog) in
    let buyHash := Js.toLowerCase buyHash in
    let! sellHash := orThrow TypeError (args_sellHash parsedLog) in
    let sellHash := Js.toLowerCase sellHash in
    let! maker := orThrow TypeError (args_maker parsedLog) in
    let maker := Js.toLowerCase maker in
    let! taker := orThrow TypeError (args_taker parsedLog) in
    let taker := Js.toLowerCase taker in
    let! price := orThrow TypeError (args_price parsedLog) in
    push_fillEvent
      {| FillEvent.buyHash := buyHash; FillEvent.sellHash := sellHash;
         FillEvent.maker := maker; FillEvent.taker := taker;
         FillEvent.price := price; FillEvent.baseParams := baseParams |} ;>
    push_hashInfo {| HashInfo.context := context; HashInfo.hash := buyHash |} ;>
    push_hashInfo {| HashInfo.context := context; HashInfo.hash := sellHash |} ;>
    push_fillInfo
      {| FillInfo.context := context; FillInfo.buyHash := buyHash;
         FillInfo.sellHash := sellHash; FillInfo.block := block baseParams |}
  else if decide (topics log !! 0%nat = Some (getEventTopic "NonceIncremented")) then
    let! parsedLog := orThrow DecodeError (parseLog log) in
    let! maker := orThrow TypeError (args_maker parsedLog) in
    let maker := Js.toLowerCase maker in
    let! newNonce := orThrow TypeError (args_newNonce parsedLog) in
    push_bulkCancelEvent
      {| BulkCancelEvent.context := context; BulkCancelEvent.maker := maker;
         BulkCancelEvent.newNonce := newNonce |}
  else ret tt.

(** The [catch] block only logs. *)
Definition catch_block (e : error) : M Arrays unit := ret tt.

(** The loop over the batch. *)
Definition parse_logs `{Env} (logs : list Log) : M Arrays unit :=
  for_of logs (fun log => try_catch (try_block log) catch_block).

(** A row of the ["orders"] table, with the columns the callback names. *)
Module Order.
Record t := {
  hash : string;
  kind : string;
  maker : string;
  nonce : option Z;
  status : string;
}.
Definition with_status (s : string) (o : t) : t :=
  {| hash := hash o; kind := kind o; maker := maker o; nonce := nonce o;
     status := s |}.
End Order.

(** The database and the queues the callbacks act on.  An event of the
    ledger is stored with the protocol kind it was added under. *)
Record Store := {
  cancel_events : list (string * CancelEvent.t);
  fill_events : list (string * FillEvent.t);
  orders : list Order.t;
  orders_update_by_hash_queue : list HashInfo.t;
  fills_handle_queue : list FillInfo.t;
}.

Definition set_cancel_events (x : list (string * CancelEvent.t)) (st : Store) :=
  {| cancel_events := x; fill_events := fill_events st; orders := orders st;
     orders_update_by_hash_queue := orders_update_by_hash_queue st;
     fills_handle_queue := fills_handle_queue st |}.
Definition set_fill_events (x : list (string * FillEvent.t)) (st : Store) :=
  {| cancel_events := cancel_events st; fill_events := x; orders := orders st;
     orders_update_by_hash_queue := orders_update_by_hash_queue st;
     fills_handle_queue := fills_handle_queue st |}.
Definition set_orders (x : list Order.t) (st : Store) :=
  {| cancel_events := cancel_events st; fill_events := fill_events st;
     orders := x;
     orders_update_by_hash_queue := orders_update_by_hash_queue st;
     fills_handle_queue := fills_handle_queue st |}.
Definition set_orders_update_by_hash_queue (x : list HashInfo.t) (st : Store) :=
  {| cancel_events := cancel_events st; fill_events := fill_events st;
     orders := orders st; orders_update_by_hash_queue := x;
     fills_handle_queue := fills_handle_queue st |}.
Definition set_fills_handle_queue (x : list FillInfo.t) (st : Store) :=
  {| cancel_events := cancel_events st; fill_events := fill_events st;
     orders := orders st;
     orders_update_by_hash_queue := orders_update_by_hash_queue st;
     fills_handle_queue := x |}.

(** Modelled from the spec: [addCancelEvents] and [addFillEvents] of
    [@/events/common], the ledger's [append(protocolKind, events)], which
    inserts the events and touches nothing else. *)
Definition addCancelEvents (kind : string) (events : list CancelEvent.t)
    : M Store unit :=
  modify (fun st =>
    set_cancel_events (cancel_events st ++ ((fun e => (kind, e)) <$> events)) st).

Definition addFillEvents (kind : string) (events : list FillEvent.t)
    : M Store unit :=
  modify (fun st =>
    set_fill_events (fill_events st ++ ((fun e => (kind, e)) <$> events)) st).

(** Modelled from the spec: [addToOrdersUpdateByHashQueue] of
    [@/jobs/orders-update] and [addToFillsHandleQueue] of
    [@/jobs/fills-handle], which enqueue one work item per payload. *)
Definition addToOrdersUpdateByHashQueue (hashInfos : list HashInfo.t)
    : M Store unit :=
  modify (fun st =>
    set_orders_update_by_hash_queue (orders_update_by_hash_queue st ++ hashInfos) st).

Definition addToFillsHandleQueue (fillInfos : list FillInfo.t) : M Store unit :=
  modify (fun st =>
    set_fills_handle_queue (fills_handle_queue st ++ fillInfos) st).

(** The [where] clause of the [update] statement; a [NULL] nonce is below
    nothing. *)
Definition where_clause (maker : string) (nonce : Z) (o : Order.t) : Prop :=
  Order.kind o = "wyvern-v2.3"
  /\ Order.maker o = maker
  /\ match Order.nonce o with Some n => n < nonce | None => False end
  /\ (Order.status o = "valid" \/ Order.status o = "no-balance").

#[global] Instance where_clause_dec maker nonce o :
  Decision (where_clause maker nonce o).
Proof. unfold where_clause. destruct (Order.nonce o); apply _. Defined.

(** [db.manyOrNone] on the [update] statement: the selected rows get status
    ['cancelled'] and their hashes are the result, or the statement is
    rejected and the table is as before. *)
Definition update_orders `{Env} (maker : string) (nonce : Z) : M Store (list string) :=
  fun st =>
    if returnAccepted then
      (set_orders
         ((fun o => if decide (where_clause maker nonce o)
                    then Order.with_status "cancelled" o else o) <$> orders st) st,
       Ok (Order.hash <$> filter (where_clause maker nonce) (orders st)))
    else (st, Throw SqlError).

(** One turn of the loop over [bulkCancelEvents]. *)
Definition cancel_below `{Env} (ev : BulkCancelEvent.t) : M Store unit :=
  let! hashes :=
    update_orders (BulkCancelEvent.maker ev) (BulkCancelEvent.newNonce ev) in
  addToOrdersUpdateByHashQueue
    ((fun hash => {| HashInfo.context := BulkCancelEvent.context ev;
                     HashInfo.hash := hash |}) <$> hashes).

(** [syncCallback(logs, backfill)]; an omitted [backfill] is [false]. *)
Definition syncCallback `{Env} (config : Config) (logs : list Log)
    (backfill : bool) : M Store unit :=
  fun st =>
    match parse_logs logs no_arrays with
    | (_, Throw e) => (st, Throw e)
    | (a, Ok _) =>
        (addCancelEvents "wyvern-v2" (cancelEvents a) ;>
         addFillEvents "wyvern-v2" (fillEvents a) ;>
         if negb backfill then
           if acceptOrders config then
             addToOrdersUpdateByHashQueue (hashInfos a) ;>
             addToFillsHandleQueue (fillInfos a) ;>
             for_of (bulkCancelEvents a) cancel_below
           else ret tt
         else ret tt) st
    end.

Section Reorg.

(** The spec gives a reconciliation work item a context and an order hash,
    and does not say which context the items of a removal carry;
    [reorgContext] stands for it, as a function of the removed event. *)
Variable reorgContext : BaseEventParams -> string.

(** Modelled from the spec: [removeCancelEvents] of [@/events/common], the
    ledger's [removeForBlock(blockHash)] on the cancel events, the removal
    operation "which itself must re-enqueue affected orders for
    reconciliation": it deletes every cancel event whose block hash is the
    given one and enqueues a reconciliation work item for the order of
    every event it removes. *)
Definition removeCancelEvents (blockHash' : string) : M Store unit :=
  fun st =>
    let removed :=
      filter (fun e => blockHash (CancelEvent.baseParams e.2) = blockHash')
             (cancel_events st) in
    (modify
       (set_cancel_events
          (filter (fun e => blockHash (CancelEvent.baseParams e.2) <> blockHash')
                  (cancel_events st))) ;>
     addToOrdersUpdateByHashQueue
       ((fun e => {| HashInfo.context := reorgContext (CancelEvent.baseParams e.2);
                     HashInfo.hash := CancelEvent.orderHash e.2 |}) <$> removed)) st.

(** Modelled from the spec: [removeFillEvents] of [@/events/common], the
    same removal operation on the fill events: it deletes every fill event
    whose block hash is the given one and enqueues a reconciliation work
    item for the buy order and for the sell order of every event it
    removes. *)
Definition removeFillEvents (blockHash' : string) : M Store unit :=
  fun st =>
    let removed :=
      filter (fun e => blockHash (FillEvent.baseParams e.2) = blockHash')
             (fill_events st) in
    (modify
       (set_fill_events
          (filter (fun e => blockHash (FillEvent.baseParams e.2) <> blockHash')
                  (fill_events st))) ;>
     addToOrdersUpdateByHashQueue
       (removed ≫= fun e =>
          [ {| HashInfo.context := reorgContext (FillEvent.baseParams e.2);
               HashInfo.hash := FillEvent.buyHash e.2 |};
            {| HashInfo.context := reorgContext (FillEvent.baseParams e.2);
               HashInfo.hash := FillEvent.sellHash e.2 |} ])) st.

(** [fixCallback(blockHash)] *)
Definition fixCallback (blockHash' : string) : M Store unit :=
  removeCancelEvents blockHash' ;>
  removeFillEvents blockHash'.

End Reorg.

(** *** Notions the properties are stated with *)

(** The arrays after the loop over a batch. *)
Definition parsed `{Env} (logs : list Log) : Arrays :=
  (parse_logs logs no_arrays).1.

Definition arrays_app (a b : Arrays) : Arrays :=
  {| bulkCancelEvents := bulkCancelEvents a ++ bulkCancelEvents b;
     cancelEvents := cancelEvents a ++ cancelEvents b;
     fillEvents := fillEvents a ++ fillEvents b;
     hashInfos := hashInfos a ++ hashInfos b;
     fillInfos := fillInfos a ++ fillInfos b |}.

(** What the log adds to the arrays when it is the only one of its batch. *)
Definition contribution `{Env} (log : Log) : Arrays := parsed [log].

(** A log is malformed when decoding it throws, and is a well-formed log of
    a known event type when decoding it completes and its first topic is
    one of the three the [switch] lists. *)
Definition malformed `{Env} (log : Log) : Prop :=
  exists e, (try_block log no_arrays).2 = Throw e.

Definition known_topic `{Env} (log : Log) : Prop :=
  topics log !! 0%nat = Some (getEventTopic "OrderCancelled")
  \/ topics log !! 0%nat = Some (getEventTopic "OrdersMatched")
  \/ topics log !! 0%nat = Some (getEventTopic "NonceIncremented").

Definition well_formed `{Env} (log : Log) : Prop :=
  (try_block log no_arrays).2 = Ok tt /\ known_topic log.

#[global] Instance result_eq_dec {A} `{EqDecision A} : EqDecision (result A).
Proof. solve_decision. Defined.

#[global] Instance malformed_dec `{Env} log : Decision (malformed log).
Proof.
  unfold malformed. destruct ((try_block log no_arrays).2) as [u|e].
  - right. intros [e He]. discriminate.
  - left. by exists e.
Defined.

#[global] Instance well_formed_dec `{Env} log : Decision (well_formed log).
Proof. unfold well_formed, known_topic. apply _. Defined.

(** The number of domain events (cancel, fill, bulk-cancel) in the arrays. *)
Definition domain_events (a : Arrays) : nat :=
  (length (cancelEvents a) + length (fillEvents a)
   + length (bulkCancelEvents a))%nat.

(** Events as the ledger stores them, under a protocol kind. *)
Definition ledger_tagged {A} (kind : string) (events : list A) : list (string * A) :=
  (fun e => (kind, e)) <$> events.

(** The store on which the dispatch step starts its conditional part: the
    two appends are done. *)
Definition appended (a : Arrays) (st : Store) : Store :=
  set_fill_events (fill_events st ++ ledger_tagged "wyvern-v2" (fillEvents a))
    (set_cancel_events
       (cancel_events st ++ ledger_tagged "wyvern-v2" (cancelEvents a)) st).

(** The store on which the loop over the bulk-cancel events starts. *)
Definition enqueued (a : Arrays) (st : Store) : Store :=
  set_fills_handle_queue (fills_handle_queue st ++ fillInfos a)
    (set_orders_update_by_hash_queue
       (orders_update_by_hash_queue st ++ hashInfos a) (appended a st)).

(** The order hashes the events of a block refer to. *)
Definition referenced_hashes (blockHash' : string) (st : Store) : list string :=
  (e ← cancel_events st;
   if decide (blockHash (CancelEvent.baseParams e.2) = blockHash')
   then [CancelEvent.orderHash e.2] else [])
  ++
  (e ← fill_events st;
   if decide (blockHash (FillEvent.baseParams e.2) = blockHash')
   then [FillEvent.buyHash e.2; FillEvent.sellHash e.2] else []).

(** Case normalisation, said without [toLowerCase]: [lowered raw s] when
    [s] is [raw] with every letter from A to Z (codes 65 to 90) replaced by
    the letter from a to z at the same place of the alphabet (the code plus
    32) and every other character kept, place by place. *)
Inductive lowered : string -> string -> Prop :=
| lowered_empty : lowered "" ""
| lowered_letter (c : ascii) (raw s : string) :
    (65 <= N_of_ascii c <= 90)%N ->
    lowered raw s ->
    lowered (String c raw) (String (ascii_of_N (N_of_ascii c + 32)) s)
| lowered_other (c : ascii) (raw s : string) :
    ~ (65 <= N_of_ascii c <= 90)%N ->
    lowered raw s ->
    lowered (String c raw) (String c s).

(** A string without a letter from A to Z. *)
Fixpoint no_capital (s : string) : Prop :=
  match s with
  | EmptyString => True
  | String c s' => ~ (65 <= N_of_ascii c <= 90)%N /\ no_capital s'
  end.

(** The order hashes and the addresses among the arguments of a decoded
    log, as the log has them. *)
Definition decoded_strings (a : Args) : list string :=
  match a with
  | OrderCancelled h => [h]
  | OrdersMatched b s m t _ _ => [b; s; m; t]
  | NonceIncremented m _ => [m]
  end.

(** The order hashes and the addresses in the events and the work items of
    the arrays. *)
Definition emitted_strings (a : Arrays) : list string :=
  (CancelEvent.orderHash <$> cancelEvents a)
  ++ (fillEvents a ≫= fun e =>
        [FillEvent.buyHash e; FillEvent.sellHash e;
         FillEvent.maker e; FillEvent.taker e])
  ++ (BulkCancelEvent.maker <$> bulkCancelEvents a)
  ++ (HashInfo.hash <$> hashInfos a)
  ++ (fillInfos a ≫= fun i => [FillInfo.buyHash i; FillInfo.sellHash i]).

(** A string of the arrays is the case-normalised form of a named argument
    of the decoded log. *)
Definition normalises (field : Args -> option string) (args : Args)
    (x : string) : Prop :=
  exists raw, field args = Some raw /\ lowered raw x.

(** The arrays hold nothing but what comes from the decoded log, field by
    field: the order hash of a cancel event from [hash]; the buy hash, the
    sell hash, the maker and the taker of a fill event from [buyHash],
    [sellHash], [maker] and [taker]; the maker of a bulk-cancel event from
    [maker]; the hash of a reconciliation item from one of the three
    hashes; the hashes of a fill item from [buyHash] and [sellHash]. *)
Definition normalised_from (args : Args) (a : Arrays) : Prop :=
  Forall (fun e => normalises args_hash args (CancelEvent.orderHash e))
    (cancelEvents a)
  /\ Forall (fun e => normalises args_buyHash args (FillEvent.buyHash e)
                     /\ normalises args_sellHash args (FillEvent.sellHash e)
                     /\ normalises args_maker args (FillEvent.maker e)
                     /\ normalises args_taker args (FillEvent.taker e))
       (fillEvents a)
  /\ Forall (fun e => normalises args_maker args (BulkCancelEvent.maker e))
       (bulkCancelEvents a)
  /\ Forall (fun i => normalises args_hash args (HashInfo.hash i)
                     \/ normalises args_buyHash args (HashInfo.hash i)
                     \/ normalises args_sellHash args (HashInfo.hash i))
       (hashInfos a)
  /\ Forall (fun i => normalises args_buyHash args (FillInfo.buyHash i)
                     /\ normalises args_sellHash args (FillInfo.sellHash i))
       (fillInfos a).

(** Hashes and addresses in lower case, array by array. *)
Definition lowercase_cancelEvent (e : CancelEvent.t) : Prop :=
  Js.lowercase (CancelEvent.orderHash e).
Definition lowercase_fillEvent (e : FillEvent.t) : Prop :=
  Js.lowercase (FillEvent.buyHash e) /\ Js.lowercase (FillEvent.sellHash e)
  /\ Js.lowercase (FillEvent.maker e) /\ Js.lowercase (FillEvent.taker e).
Definition lowercase_bulkCancelEvent (e : BulkCancelEvent.t) : Prop :=
  Js.lowercase (BulkCancelEvent.maker e).
Definition lowercase_hashInfo (i : HashInfo.t) : Prop :=
  Js.lowercase (HashInfo.hash i).
Definition lowercase_fillInfo (i : FillInfo.t) : Prop :=
  Js.lowercase (FillInfo.buyHash i) /\ Js.lowercase (FillInfo.sellHash i).

Definition lowercase_arrays (a : Arrays) : Prop :=
  Forall lowercase_cancelEvent (cancelEvents a)
  /\ Forall lowercase_fillEvent (fillEvents a)
  /\ Forall lowercase_bulkCancelEvent (bulkCancelEvents a)
  /\ Forall lowercase_hashInfo (hashInfos a)
  /\ Forall lowercase_fillInfo (fillInfos a).

(** What may become of an order row: it stays as it is, or it is an order of
    kind "wyvern-v2.3" with a nonce and of status "valid" or "no-balance"
    whose status, and nothing else, becomes "cancelled". *)
Definition evolves (o o' : Order.t) : Prop :=
  o' = o
  \/ (o' = Order.with_status "cancelled" o
      /\ Order.kind o = "wyvern-v2.3"
      /\ is_Some (Order.nonce o)
      /\ (Order.status o = "valid" \/ Order.status o = "no-balance")).

(** The contexts of the work items and bulk-cancel events in the arrays. *)
Definition contexts (a : Arrays) : list string :=
  (HashInfo.context <$> hashInfos a)
  ++ (FillInfo.context <$> fillInfos a)
  ++ (BulkCancelEvent.context <$> bulkCancelEvents a).

(** The order hashes of an event, and the fill item of a fill event. *)
Definition fill_hashes (e : FillEvent.t) : list string :=
  [FillEvent.buyHash e; FillEvent.sellHash e].

Definition fill_item (e : FillEvent.t) : FillInfo.t :=
  {| FillInfo.context :=
       txHash (FillEvent.baseParams e) +:+ "-"
       +:+ pretty (logIndex (FillEvent.baseParams e));
     FillInfo.buyHash := FillEvent.buyHash e;
     FillInfo.sellHash := FillEvent.sellHash e;
     FillInfo.block := block (FillEvent.baseParams e) |}.

(** The events and the work items of the arrays are in step. *)
Definition in_step (a : Arrays) : Prop :=
  fillInfos a = fill_item <$> fillEvents a
  /\ HashInfo.hash <$> hashInfos a
     ≡ₚ (CancelEvent.orderHash <$> cancelEvents a)
        ++ (fillEvents a ≫= fill_hashes).

(** A string has a given character. *)
Fixpoint has_char (c : ascii) (s : string) : Prop :=
  match s with
  | EmptyString => False
  | String c' s' => c' = c \/ has_char c s'
  end.

End Wyvern.

(** ** [src/jobs/order-updates/remove-buy-order-events.ts] *)

Module RemoveBuyOrderEvents.

Definition QUEUE_NAME : string := "remove-buy-order-events-queue".

(** A [created_at] is kept as the integer the column stores, a number of
    microseconds.  The job does not carry that integer: it carries what
    [extract(epoch from created_at)] gave it, a number of seconds with a
    fraction, and the next query reads that number back through
    [to_timestamp], which takes a double precision argument.  Both
    conversions are the database's, and nothing in the job says that the
    second undoes the first. *)
Class Timestamps := {
  extract_epoch : Z -> Q;
  to_timestamp : Q -> Z;
}.

(** [createdAt] is the epoch value of a row (the source declares it a
    string), kept by the number it denotes. *)
Record CursorInfo := { id : string; createdAt : Q }.

(** Rows of [orders] and of [order_events], with the columns the job names. *)
Module Order.
Record t := { id : string; side : string; created_at : Z }.
End Order.

Module OrderEvent.
Record t := { event : Z; order_id : string }.
End OrderEvent.

(** A row of the job's [SELECT]: [created_at] is the epoch value here. *)
Module BuyOrder.
Record t := { created_at : Q; id : string }.
End BuyOrder.

(** The tables, the jobs waiting in the queue (by their [cursor] payload;
    jobs are added under a fresh random name and no job id), and the locks
    held in the cluster with their duration in milliseconds. *)
Record Store := {
  orders : list Order.t;
  order_events : list OrderEvent.t;
  jobs : list (option CursorInfo);
  locks : gmap string Z;
}.

Definition set_order_events (x : list OrderEvent.t) (st : Store) : Store :=
  {| orders := orders st; order_events := x; jobs := jobs st;
     locks := locks st |}.
Definition set_jobs (x : list (option CursorInfo)) (st : Store) : Store :=
  {| orders := orders st; order_events := order_events st; jobs := x;
     locks := locks st |}.
Definition set_locks (x : gmap string Z) (st : Store) : Store :=
  {| orders := orders st; order_events := order_events st; jobs := jobs st;
     locks := x |}.

(** Row comparison on [(created_at, id)]; text is compared bytewise. *)
Definition key (o : Order.t) : Z * string := (Order.created_at o, Order.id o).

Definition row_lt (k1 k2 : Z * string) : Prop :=
  k1.1 < k2.1 \/ (k1.1 = k2.1 /\ String.le k1.2 k2.2 /\ k1.2 <> k2.2).

Definition row_le (k1 k2 : Z * string) : Prop :=
  k1.1 < k2.1 \/ (k1.1 = k2.1 /\ String.le k1.2 k2.2).

#[global] Instance row_lt_dec k1 k2 : Decision (row_lt k1 k2).
Proof. unfold row_lt. apply _. Defined.

#[global] Instance row_le_dec k1 k2 : Decision (row_le k1 k2).
Proof. unfold row_le. apply _. Defined.

(** [AND (created_at, id) < (to_timestamp($/createdAt/), $/id/)], present
    when the job carries a cursor. *)
Definition continuationFilter `{Timestamps} (cursor : option CursorInfo)
    (o : Order.t) : Prop :=
  match cursor with
  | Some c => row_lt (key o) (to_timestamp (createdAt c), id c)
  | None => True
  end.

#[global] Instance continuationFilter_dec `{Timestamps} cursor o :
  Decision (continuationFilter cursor o).
Proof. destruct cursor; simpl; apply _. Defined.

(** [ORDER BY created_at DESC, id DESC] *)
Definition created_at_id_desc (o1 o2 : Order.t) : Prop := row_le (key o2) (key o1).

#[global] Instance created_at_id_desc_dec o1 o2 : Decision (created_at_id_desc o1 o2).
Proof. unfold created_at_id_desc. apply _. Defined.

Definition limit : nat := 1.

(** The rows the [WHERE] clause keeps for a job. *)
Definition remaining `{Timestamps} (cursor : option CursorInfo)
    (orders : list Order.t) : list Order.t :=
  filter (fun o => Order.side o = "buy" /\ continuationFilter cursor o) orders.

(** The select list, [extract(epoch from created_at) created_at, id]. *)
Definition select_list `{Timestamps} (o : Order.t) : BuyOrder.t :=
  {| BuyOrder.created_at := extract_epoch (Order.created_at o);
     BuyOrder.id := Order.id o |}.

(** The [SELECT ... ORDER BY ... LIMIT $/limit/] of the job. *)
Definition select_buyOrders `{Timestamps} (cursor : option CursorInfo)
    (orders : list Order.t) : list BuyOrder.t :=
  select_list <$> take limit (merge_sort created_at_id_desc (remaining cursor orders)).

(** [DELETE from order_events WHERE order_events.order_id IN ($/orderIds/)];
    the parameter is one string, the ids joined by commas. *)
Definition delete_order_events (orderIds : string) : M Store unit :=
  modify (fun st =>
    set_order_events
      (filter (fun e => OrderEvent.order_id e <> orderIds) (order_events st)) st).

(** [addToQueue(cursor)] *)
Definition addToQueue (cursor : option CursorInfo) : M Store unit :=
  modify (fun st => set_jobs (jobs st ++ [cursor]) st).

(** The job handler. *)
Definition worker `{Timestamps} (cursor : option CursorInfo) : M Store unit :=
  fun st =>
    let buyOrders := select_buyOrders cursor (orders st) in
    (if decide (0 < length buyOrders)%nat then
       delete_order_events (String.concat "," (BuyOrder.id <$> buyOrders)) ;>
       if decide (length buyOrders = limit) then
         match last buyOrders with
         | Some lastBuyOrder =>
             let nextCursor :=
               {| id := BuyOrder.id lastBuyOrder;
                  createdAt := BuyOrder.created_at lastBuyOrder |} in
             addToQueue (Some nextCursor)
         | None => throw TypeError
         end
       else ret tt
     else ret tt) st.

(** The queue runs one job at a time ([concurrency: 1]): the head of the
    queue is taken and handled, until no job is left.  The result is the
    list of the jobs handled, in order, and the final state. *)
Fixpoint run `{Timestamps} (fuel : nat) (st : Store)
    : list (option CursorInfo) * Store :=
  match fuel with
  | O => ([], st)
  | S fuel' =>
      match jobs st with
      | [] => ([], st)
      | job :: waiting =>
          let st1 := (worker job (set_jobs waiting st)).1 in
          let (handled, st2) := run fuel' st1 in
          (job :: handled, st2)
      end
  end.

(** The cursor that stands for a row: [nextCursor] for [lastBuyOrder]. *)
Definition cursor_of `{Timestamps} (o : Order.t) : CursorInfo :=
  {| id := Order.id o; createdAt := extract_epoch (Order.created_at o) |}.

(** The rows of side ['buy'], which the sweep is about. *)
Definition buy_orders (orders : list Order.t) : list Order.t :=
  filter (fun o => Order.side o = "buy") orders.

(** The [created_at] of a row comes back from its epoch value: the
    database reads the cursor of the row as the row's own timestamp. *)
Definition comes_back `{Timestamps} (o : Order.t) : Prop :=
  to_timestamp (extract_epoch (Order.created_at o)) = Order.created_at o.

#[global] Instance comes_back_dec `{Timestamps} o : Decision (comes_back o).
Proof. unfold comes_back. apply _. Defined.

(** That holds of every buy row of the table. *)
Definition exact_round_trip `{Timestamps} (orders : list Order.t) : Prop :=
  Forall comes_back (buy_orders orders).

(** [redlock.acquire(resources, duration)]: rejects when one of the
    resources is locked, and locks them all for [duration] otherwise. *)
Definition redlock_acquire (resources : list string) (duration : Z)
    : M Store unit :=
  fun st =>
    if decide (Exists (fun r => is_Some (locks st !! r)) resources) then
      (st, Throw LockError)
    else
      (set_locks (foldr (fun r m => <[r := duration]> m) (locks st) resources) st,
       Ok tt).

(** The start-up code of the module: under [config.doBackgroundWork],
    [redlock.acquire(...).then(() => addToQueue()).catch(() => {})]. *)
Definition bootstrap (config : Config) : M Store unit :=
  if doBackgroundWork config then
    try_catch
      (redlock_acquire [QUEUE_NAME +:+ "-lock"] (60 * 60 * 24 * 30 * 1000) ;>
       addToQueue None)
      (fun _ => ret tt)
  else ret tt.

(** The module is loaded by a number of instances, one after the other. *)
Fixpoint start_instances (n : nat) (config : Config) (st : Store) : Store :=
  match n with
  | O => st
  | S n' => start_instances n' config (bootstrap config st).1
  end.

End RemoveBuyOrderEvents.

(** ** [src/jobs/update-attribute/resync-attribute-cache.ts] *)

Module ResyncAttributeCache.

Definition QUEUE_NAME : string := "resync-attribute-cache-queue".

Record JobData := { contract : string; tokenId : string }.

(** A job of the queue: its name, its payload and the delay of its
    delivery in milliseconds. *)
Record Job := { name : string; data : JobData; delay : Z }.

(** [queue.add(name, data, { jobId, delay })] of BullMQ: the jobs waiting
    in the queue are kept under their job id, and adding under an id that
    is already there adds nothing. *)
Definition queue_add (name : string) (data : JobData) (jobId : string)
    (delay : Z) (queue : gmap string Job) : gmap string Job :=
  match queue !! jobId with
  | Some _ => queue
  | None => <[jobId := {| name := name; data := data; delay := delay |}]> queue
  end.

(** [addToQueue(contract, tokenId, delay = 60 * 60 * 1000)]; [None] is an
    omitted [delay]. *)
Definition addToQueue (contract tokenId : string) (delay : option Z)
    (queue : gmap string Job) : gmap string Job :=
  let delay := default (60 * 60 * 1000) delay in
  let token := contract +:+ ":" +:+ tokenId in
  queue_add token {| contract := contract; tokenId := tokenId |} token delay queue.

End ResyncAttributeCache.

(** ** Sample data for the examples *)

Module Samples.

(** *** Bulk-cancel nonces *)

Definition sample_toBuffer (s : string) : list Byte.byte :=
  list_byte_of_string (Js.toLowerCase s).

Definition sample_bulk_cancel_events : list Helpers.BulkCancelRow :=
  [ {| Helpers.order_kind := "wyvern-v2.3";
       Helpers.maker := sample_toBuffer "0xaa01"; Helpers.min_nonce := 3 |};
    {| Helpers.order_kind := "wyvern-v2.3";
       Helpers.maker := sample_toBuffer "0xaa01"; Helpers.min_nonce := 8 |};
    {| Helpers.order_kind := "wyvern-v2.3";
       Helpers.maker := sample_toBuffer "0xbb02"; Helpers.min_nonce := 20 |};
    {| Helpers.order_kind := "seaport";
       Helpers.maker := sample_toBuffer "0xaa01"; Helpers.min_nonce := 11 |};
    {| Helpers.order_kind := "wyvern-v2.3";
       Helpers.maker := sample_toBuffer "0xaa01"; Helpers.min_nonce := 5 |} ].

Definition rinkeby : Config :=
  {| chainId := 4; acceptOrders := true; doBackgroundWork := true |}.

Definition mainnet : Config :=
  {| chainId := 1; acceptOrders := true; doBackgroundWork := true |}.

Definition mainnet_not_accepting : Config :=
  {| chainId := 1; acceptOrders := false; doBackgroundWork := true |}.

(** *** Logs

    The sample interface gives each event name a topic of its own and
    decodes the sample logs by their index: log 0 does not decode, log 1 is
    a match, log 2 a nonce increment and every other log a cancellation. *)

Definition sample_topic (name : string) : string := "topic:" +:+ name.

Definition sample_parseLog (log : Wyvern.Log) : option Wyvern.Args :=
  match Wyvern.log_logIndex log with
  | 0 => None
  | 1 => Some (Wyvern.OrdersMatched "0xB1" "0x5E" "0xAA01" "0xBB02" 100 "0x00")
  | 2 => Some (Wyvern.NonceIncremented "0xAA01" 5)
  | i => Some (Wyvern.OrderCancelled ("0xC0DE" +:+ pretty i))
  end.

Definition sample_parseEvent (log : Wyvern.Log) : option Wyvern.BaseEventParams :=
  Some {| Wyvern.address := Js.toLowerCase (Wyvern.log_address log);
          Wyvern.block := Wyvern.log_blockNumber log;
          Wyvern.blockHash := Js.toLowerCase (Wyvern.log_blockHash log);
          Wyvern.txHash := Js.toLowerCase (Wyvern.log_transactionHash log);
          Wyvern.logIndex := Wyvern.log_logIndex log;
          Wyvern.batchIndex := 1;
          Wyvern.timestamp := 0 |}.

Definition sample_env (accepted : bool) : Wyvern.Env :=
  {| Wyvern.getEventTopic := sample_topic;
     Wyvern.parseLog := sample_parseLog;
     Wyvern.parseEvent := sample_parseEvent;
     Wyvern.returnAccepted := accepted |}.

Definition sample_log (name : string) (index : Z) : Wyvern.Log :=
  {| Wyvern.log_blockNumber := 7;
     Wyvern.log_blockHash := "0xB10C";
     Wyvern.log_address := "0xE0";
     Wyvern.log_data := "0x";
     Wyvern.topics := [sample_topic name];
     Wyvern.log_transactionHash := "0xF1";
     Wyvern.log_logIndex := index |}.

Definition fill_log : Wyvern.Log := sample_log "OrdersMatched" 1.
Definition nonce_log : Wyvern.Log := sample_log "NonceIncremented" 2.
Definition broken_log : Wyvern.Log := sample_log "OrderCancelled" 0.

(** One log that does not decode among nine cancellations. *)
Definition ten_logs : list Wyvern.Log :=
  [ sample_log "OrderCancelled" 3; sample_log "OrderCancelled" 4;
    sample_log "OrderCancelled" 5; broken_log;
    sample_log "OrderCancelled" 6; sample_log "OrderCancelled" 7;
    sample_log "OrderCancelled" 8; sample_log "OrderCancelled" 9;
    sample_log "OrderCancelled" 10; sample_log "OrderCancelled" 11 ].

Definition sample_order (hash maker : string) (nonce : Z) (status : string)
    : Wyvern.Order.t :=
  {| Wyvern.Order.hash := hash; Wyvern.Order.kind := "wyvern-v2.3";
     Wyvern.Order.maker := maker; Wyvern.Order.nonce := Some nonce;
     Wyvern.Order.status := status |}.

Definition sample_store : Wyvern.Store :=
  {| Wyvern.cancel_events := [];
     Wyvern.fill_events := [];
     Wyvern.orders :=
       [ sample_order "0x01" "0xaa01" 1 "valid";
         sample_order "0x02" "0xaa01" 5 "valid";
         sample_order "0x03" "0xaa01" 2 "filled";
         sample_order "0x04" "0xbb02" 1 "no-balance";
         sample_order "0x05" "0xaa01" 4 "no-balance" ];
     Wyvern.orders_update_by_hash_queue := [];
     Wyvern.fills_handle_queue := [] |}.

Definition sample_baseParams : Wyvern.BaseEventParams :=
  {| Wyvern.address := "0xe0"; Wyvern.block := 7; Wyvern.blockHash := "0xb10c";
     Wyvern.txHash := "0xf1"; Wyvern.logIndex := 3; Wyvern.batchIndex := 1;
     Wyvern.timestamp := 0 |}.

(** A second interface, which decodes log 0 not at all and every other log
    as a nonce increment of the maker "0xAA01" to the log's index; the
    database behind it rejects the update statement, as PostgreSQL does. *)
Definition increment_parseLog (log : Wyvern.Log) : option Wyvern.Args :=
  match Wyvern.log_logIndex log with
  | 0 => None
  | i => Some (Wyvern.NonceIncremented "0xAA01" i)
  end.

Definition increments_env : Wyvern.Env :=
  {| Wyvern.getEventTopic := sample_topic;
     Wyvern.parseLog := increment_parseLog;
     Wyvern.parseEvent := sample_parseEvent;
     Wyvern.returnAccepted := false |}.

(** One log that does not decode and nine nonce increments. *)
Definition ten_increments : list Wyvern.Log :=
  [ sample_log "NonceIncremented" 1; sample_log "NonceIncremented" 2;
    sample_log "NonceIncremented" 3; sample_log "NonceIncremented" 0;
    sample_log "NonceIncremented" 4; sample_log "NonceIncremented" 5;
    sample_log "NonceIncremented" 6; sample_log "NonceIncremented" 7;
    sample_log "NonceIncremented" 8; sample_log "NonceIncremented" 9 ].

(** A ledger with a cancel event and a fill event of block "0xb10c" and a
    cancel event of block "0xb10d", and one item queued. *)
Definition ledger_store : Wyvern.Store :=
  let other :=
    {| Wyvern.address := "0xe0"; Wyvern.block := 8; Wyvern.blockHash := "0xb10d";
       Wyvern.txHash := "0xf2"; Wyvern.logIndex := 0; Wyvern.batchIndex := 1;
       Wyvern.timestamp := 0 |} in
  {| Wyvern.cancel_events :=
       [ ("wyvern-v2",
          {| Wyvern.CancelEvent.orderHash := "0xc0de3";
             Wyvern.CancelEvent.baseParams := sample_baseParams |});
         ("wyvern-v2",
          {| Wyvern.CancelEvent.orderHash := "0xc0de4";
             Wyvern.CancelEvent.baseParams := other |}) ];
     Wyvern.fill_events :=
       [ ("wyvern-v2",
          {| Wyvern.FillEvent.buyHash := "0xb1"; Wyvern.FillEvent.sellHash := "0x5e";
             Wyvern.FillEvent.maker := "0xaa01"; Wyvern.FillEvent.taker := "0xbb02";
             Wyvern.FillEvent.price := 100;
             Wyvern.FillEvent.baseParams := sample_baseParams |}) ];
     Wyvern.orders := [ sample_order "0xc0de3" "0xaa01" 1 "cancelled" ];
     Wyvern.orders_update_by_hash_queue :=
       [ {| Wyvern.HashInfo.context := "0xf0-0"; Wyvern.HashInfo.hash := "0x07" |} ];
     Wyvern.fills_handle_queue := [] |}.

(** The context of a reorganisation's work items in the examples: that of
    the removed event. *)
Definition sample_reorgContext (bp : Wyvern.BaseEventParams) : string :=
  Wyvern.txHash bp +:+ "-" +:+ pretty (Wyvern.logIndex bp).

(** *** Timestamps

    The two conversions as PostgreSQL 14 makes them.  The epoch value of a
    [timestamptz] is a [numeric], and exact.  [to_timestamp] takes a double
    precision argument: the number is rounded to the nearest double, the
    seconds from 1970 to 2000 are taken off, the rest is multiplied by a
    million, each step in double precision, and the product is rounded to
    a whole number of microseconds. *)

(** The integer nearest to [n / d], the even one of two. *)
Definition nearest_even (n d : Z) : Z :=
  let q := n / d in
  let r := n mod d in
  if (2 * r <? d)%Z then q
  else if (d <? 2 * r)%Z then q + 1
  else if Z.even q then q else q + 1.

(** [n / d] is below the power [e] of two. *)
Definition below_power (n d e : Z) : bool :=
  (n * 2 ^ Z.max 0 (- e) <? d * 2 ^ Z.max 0 e)%Z.

(** The double nearest to a rational number, the one with the even
    significand of two: 53 bits of significand; exponents out of range do
    not occur with timestamps. *)
Definition binary64 (q : Q) : Q :=
  let n := Z.abs (Qnum q) in
  let d := Z.pos (Qden q) in
  if (n =? 0)%Z then 0%Q
  else
    let e0 := Z.log2 n - Z.log2 d in
    let e := if below_power n d e0 then e0 - 1 else e0 in
    let shift := 52 - e in
    let m := nearest_even (n * 2 ^ Z.max 0 shift) (d * 2 ^ Z.max 0 (- shift)) in
    Qmake (Z.sgn (Qnum q) * m * 2 ^ Z.max 0 (- shift)) (Z.to_pos (2 ^ Z.max 0 shift)).

Definition pg_extract_epoch (created_at : Z) : Q := Qmake created_at 1000000.

Definition pg_to_timestamp (epoch : Q) : Z :=
  let seconds := binary64 epoch in
  let seconds := binary64 (seconds - inject_Z 946684800)%Q in
  let microseconds := binary64 (seconds * inject_Z 1000000)%Q in
  nearest_even (Qnum microseconds) (Z.pos (Qden microseconds))
  + 946684800 * 1000000.

Definition pg_timestamps : RemoveBuyOrderEvents.Timestamps :=
  {| RemoveBuyOrderEvents.extract_epoch := pg_extract_epoch;
     RemoveBuyOrderEvents.to_timestamp := pg_to_timestamp |}.

(** *** The sweep *)

Definition sample_row (id side : string) (created_at : Z)
    : RemoveBuyOrderEvents.Order.t :=
  {| RemoveBuyOrderEvents.Order.id := id;
     RemoveBuyOrderEvents.Order.side := side;
     RemoveBuyOrderEvents.Order.created_at := created_at |}.

(** Three buy rows created in November 2023, a microsecond apart. *)
Definition year_2023_store : RemoveBuyOrderEvents.Store :=
  {| RemoveBuyOrderEvents.orders :=
       [ sample_row "0x01" "buy" 1700000000000002;
         sample_row "0x02" "buy" 1700000000000003;
         sample_row "0x03" "buy" 1700000000000004 ];
     RemoveBuyOrderEvents.order_events := [];
     RemoveBuyOrderEvents.jobs := [None];
     RemoveBuyOrderEvents.locks := ∅ |}.

(** Three buy rows created on the first of January 2500, a microsecond
    apart: 16725225600 seconds after the epoch, where a double no longer
    tells two neighbouring microseconds apart. *)
Definition year_2500_store : RemoveBuyOrderEvents.Store :=
  {| RemoveBuyOrderEvents.orders :=
       [ sample_row "0x01" "buy" 16725225600000002;
         sample_row "0x02" "buy" 16725225600000003;
         sample_row "0x03" "buy" 16725225600000004 ];
     RemoveBuyOrderEvents.order_events := [];
     RemoveBuyOrderEvents.jobs := [None];
     RemoveBuyOrderEvents.locks := ∅ |}.

Definition idle_store : RemoveBuyOrderEvents.Store :=
  {| RemoveBuyOrderEvents.orders := [];
     RemoveBuyOrderEvents.order_events := [];
     RemoveBuyOrderEvents.jobs := [];
     RemoveBuyOrderEvents.locks := ∅ |}.

(** *** The other queries *)

Definition sample_bulk_cancel (maker : string) (nonce : Z)
    : Helpers.BulkCancelRow :=
  {| Helpers.order_kind := "wyvern-v2.3";
     Helpers.maker := sample_toBuffer maker; Helpers.min_nonce := nonce |}.

Definition sample_approval (owner operator : string) (approved : bool)
    (block : Z) : Helpers.NftApprovalEvent.t :=
  {| Helpers.NftApprovalEvent.address := sample_toBuffer "0xc1";
     Helpers.NftApprovalEvent.owner := sample_toBuffer owner;
     Helpers.NftApprovalEvent.operator := sample_toBuffer operator;
     Helpers.NftApprovalEvent.approved := approved;
     Helpers.NftApprovalEvent.block := block |}.

Definition sample_approvals : list Helpers.NftApprovalEvent.t :=
  [ sample_approval "0xaa01" "0xee" true 10;
    sample_approval "0xbb02" "0xee" true 12;
    sample_approval "0xaa01" "0xee" false 14;
    sample_approval "0xaa01" "0xff" true 15 ].

Definition sample_fill (order_id : string) (amount : Z) : Helpers.FillEvent2.t :=
  {| Helpers.FillEvent2.order_id := order_id;
     Helpers.FillEvent2.amount := amount |}.

Definition sample_fills : list Helpers.FillEvent2.t :=
  [ sample_fill "0x01" 2; sample_fill "0x02" 7; sample_fill "0x01" 3 ].

Definition sample_cancel (order_id : string) (timestamp : Z)
    : Helpers.CancelEvent.t :=
  {| Helpers.CancelEvent.order_id := order_id;
     Helpers.CancelEvent.timestamp := timestamp |}.

(** The order "0x02" has two cancel events. *)
Definition sample_cancels : list Helpers.CancelEvent.t :=
  [ sample_cancel "0x01" 100; sample_cancel "0x02" 110; sample_cancel "0x02" 120 ].

Definition sample_ft_balances : list Helpers.FtBalance.t :=
  [ {| Helpers.FtBalance.contract := sample_toBuffer "0xc0";
       Helpers.FtBalance.owner := sample_toBuffer "0xaa01";
       Helpers.FtBalance.amount := 500 |};
    {| Helpers.FtBalance.contract := sample_toBuffer "0xc0";
       Helpers.FtBalance.owner := sample_toBuffer "0xbb02";
       Helpers.FtBalance.amount := 70 |} ].

Definition sample_nft_balances : list Helpers.NftBalance.t :=
  [ {| Helpers.NftBalance.contract := sample_toBuffer "0xc1";
       Helpers.NftBalance.token_id := 42;
       Helpers.NftBalance.owner := sample_toBuffer "0xaa01";
       Helpers.NftBalance.amount := 1 |};
    {| Helpers.NftBalance.contract := sample_toBuffer "0xc1";
       Helpers.NftBalance.token_id := 43;
       Helpers.NftBalance.owner := sample_toBuffer "0xaa01";
       Helpers.NftBalance.amount := 2 |} ].

(** *** More logs and stores *)

(** A log of a topic that the callback does not list. *)
Definition transfer_log : Wyvern.Log := sample_log "Transfer" 12.

(** A second nonce increment for the same maker would be decoded as log 2
    is; the batch below has the increment between two cancellations. *)
Definition mixed_logs : list Wyvern.Log :=
  [ sample_log "OrderCancelled" 3; nonce_log; fill_log;
    sample_log "OrderCancelled" 4 ].

(** A table in which the buy row "0x0c" is there twice, with order events
    of buy orders, of a sell order and of an order that is not in the
    table. *)
Definition twin_store : RemoveBuyOrderEvents.Store :=
  {| RemoveBuyOrderEvents.orders :=
       [ sample_row "0x0c" "buy" 200;
         sample_row "0x0b" "sell" 150;
         sample_row "0x0c" "buy" 200;
         sample_row "0x0a" "buy" 100 ];
     RemoveBuyOrderEvents.order_events :=
       [ {| RemoveBuyOrderEvents.OrderEvent.event := 1;
            RemoveBuyOrderEvents.OrderEvent.order_id := "0x0a" |};
         {| RemoveBuyOrderEvents.OrderEvent.event := 2;
            RemoveBuyOrderEvents.OrderEvent.order_id := "0x0b" |};
         {| RemoveBuyOrderEvents.OrderEvent.event := 3;
            RemoveBuyOrderEvents.OrderEvent.order_id := "0x0c" |};
         {| RemoveBuyOrderEvents.OrderEvent.event := 4;
            RemoveBuyOrderEvents.OrderEvent.order_id := "0x0e" |} ];
     RemoveBuyOrderEvents.jobs := [None];
     RemoveBuyOrderEvents.locks := ∅ |}.

End Samples.

(** * Properties *)

Module HelpersProps.
Import Helpers.

Section GetMinNonce.

Variable toBuffer : string -> list Byte.byte.

#[local] Instance by_min_nonce_desc_trans : Transitive by_min_nonce_desc.
Proof. unfold by_min_nonce_desc. intros x y z ? ?. lia. Qed.

#[local] Instance by_min_nonce_desc_total : Total by_min_nonce_desc.
Proof. unfold by_min_nonce_desc. intros x y. lia. Qed.

(** The first row of the sorted selection carries the largest nonce. *)
Lemma head_sorted_is_maximum (l : list BulkCancelRow) (r : BulkCancelRow) :
  head (merge_sort by_min_nonce_desc l) = Some r ->
  is_maximum (min_nonce r) (min_nonce <$> l).
Proof.
  intros Hhd.
  pose proof (StronglySorted_merge_sort by_min_nonce_desc l) as Hs.
  pose proof (merge_sort_Permutation by_min_nonce_desc l) as Hp.
  destruct (merge_sort by_min_nonce_desc l) as [|r' s] eqn:E; [discriminate|].
  simpl in Hhd. injection Hhd as ->.
  apply StronglySorted_inv in Hs as [_ Hall].
  split.
  - apply list_elem_of_fmap. exists r. split; [done|].
    rewrite <- Hp. left.
  - intros x Hx. apply list_elem_of_fmap in Hx as (r0 & -> & Hr0).
    rewrite <- Hp in Hr0. apply elem_of_cons in Hr0 as [->|Hin]; [lia|].
    rewrite Forall_forall in Hall. by apply Hall.
Qed.

Lemma subquery_none column tbl orderKind mk :
  recorded toBuffer tbl orderKind mk = [] ->
  subquery toBuffer column tbl orderKind mk = None.
Proof.
  unfold recorded, subquery. intros H.
  apply fmap_nil_inv in H. rewrite H. reflexivity.
Qed.

Lemma subquery_some column tbl orderKind mk :
  recorded toBuffer tbl orderKind mk <> [] ->
  exists r, subquery toBuffer column tbl orderKind mk = Some (column r)
            /\ is_maximum (min_nonce r) (recorded toBuffer tbl orderKind mk).
Proof.
  unfold recorded, subquery. intros Hne.
  set (sel := filter (selected toBuffer orderKind mk) tbl) in *.
  destruct (merge_sort by_min_nonce_desc sel) as [|r s] eqn:E.
  - exfalso. apply Hne.
    pose proof (merge_sort_Permutation by_min_nonce_desc sel) as Hp.
    rewrite E in Hp. apply Permutation_nil_l in Hp. by rewrite <- Hp.
  - exists r. split; [reflexivity|].
    apply head_sorted_is_maximum. by rewrite E.
Qed.

(** C1. For every (order kind, maker) pair [getMinNonce] is zero when no
    bulk-cancel nonce is recorded for the pair; otherwise, with [m] the
    largest recorded nonce, it is [m + 1] when the chain id is 4 and the
    order kind is "wyvern-v2.3" and the unadjusted [m] for every other
    combination, so that [m + 1] is returned exactly for that combination. *)
Theorem getMinNonce_maximum_with_quirk (config : Config)
    (tbl : list BulkCancelRow) (orderKind mk : string) :
  match recorded toBuffer tbl orderKind mk with
  | [] => getMinNonce toBuffer config tbl orderKind mk = 0
  | _ :: _ =>
      exists m, is_maximum m (recorded toBuffer tbl orderKind mk)
        /\ getMinNonce toBuffer config tbl orderKind mk =
             (if bool_decide (chainId config = 4 /\ orderKind = "wyvern-v2.3")
              then m + 1 else m)
        /\ (getMinNonce toBuffer config tbl orderKind mk = m + 1
            <-> chainId config = 4 /\ orderKind = "wyvern-v2.3")
  end.
Proof.
  destruct (recorded toBuffer tbl orderKind mk) as [|n ns] eqn:E.
  - unfold getMinNonce. rewrite !subquery_none by done. by case_bool_decide.
  - assert (Hne : recorded toBuffer tbl orderKind mk <> []) by (by rewrite E).
    unfold getMinNonce. case_bool_decide as Hq.
    + destruct (subquery_some (fun r => min_nonce r + 1) tbl orderKind mk Hne)
        as (r & -> & Hmax).
      exists (min_nonce r). rewrite E in Hmax. simpl. tauto.
    + destruct (subquery_some min_nonce tbl orderKind mk Hne) as (r & -> & Hmax).
      exists (min_nonce r). rewrite E in Hmax. simpl.
      split; [done|]. split; [done|]. split; [lia|tauto].
Qed.

End GetMinNonce.

(** *** More on [getMinNonce] *)

Section GetMinNonceMore.

Variable toBuffer : string -> list Byte.byte.

Lemma getMinNonce_none (config : Config) tbl orderKind mk :
  recorded toBuffer tbl orderKind mk = [] ->
  getMinNonce toBuffer config tbl orderKind mk = 0.
Proof.
  intros Hnone. unfold getMinNonce.
  rewrite !subquery_none by done. by case_bool_decide.
Qed.

Lemma getMinNonce_some (config : Config) tbl orderKind mk :
  recorded toBuffer tbl orderKind mk <> [] ->
  exists m, is_maximum m (recorded toBuffer tbl orderKind mk)
    /\ getMinNonce toBuffer config tbl orderKind mk =
         m + (if bool_decide (chainId config = 4 /\ orderKind = "wyvern-v2.3")
              then 1 else 0).
Proof.
  intros Hne. unfold getMinNonce. case_bool_decide.
  - destruct (subquery_some toBuffer (fun r => min_nonce r + 1) tbl orderKind mk Hne)
      as (r & -> & Hmax).
    by exists (min_nonce r).
  - destruct (subquery_some toBuffer min_nonce tbl orderKind mk Hne)
      as (r & -> & Hmax).
    exists (min_nonce r). split; [done|]. simpl. lia.
Qed.

Lemma is_maximum_unique (m1 m2 : Z) (l : list Z) :
  is_maximum m1 l -> is_maximum m2 l -> m1 = m2.
Proof.
  intros [Hin1 Hmax1] [Hin2 Hmax2].
  specialize (Hmax1 m2 Hin2). specialize (Hmax2 m1 Hin1). lia.
Qed.

Lemma getMinNonce_recorded (config : Config) tbl tbl' orderKind mk :
  recorded toBuffer tbl orderKind mk ≡ₚ recorded toBuffer tbl' orderKind mk ->
  getMinNonce toBuffer config tbl orderKind mk
  = getMinNonce toBuffer config tbl' orderKind mk.
Proof.
  intros Hperm.
  destruct (decide (recorded toBuffer tbl orderKind mk = [])) as [Hnil|Hne].
  - rewrite getMinNonce_none by done.
    rewrite Hnil in Hperm. apply Permutation_nil_l in Hperm.
    by rewrite getMinNonce_none.
  - assert (Hne' : recorded toBuffer tbl' orderKind mk <> []).
    { intros Hnil. rewrite Hnil in Hperm. by apply Permutation_nil_r in Hperm. }
    destruct (getMinNonce_some config tbl orderKind mk Hne) as (m & Hm & ->).
    destruct (getMinNonce_some config tbl' orderKind mk Hne') as (m' & Hm' & ->).
    f_equal. apply is_maximum_unique with (recorded toBuffer tbl' orderKind mk);
      [|done].
    destruct Hm as [Hin Hmax]. split.
    + by rewrite <- Hperm.
    + intros x Hx. apply Hmax. by rewrite Hperm.
Qed.

Lemma recorded_app tbl1 tbl2 orderKind mk :
  recorded toBuffer (tbl1 ++ tbl2) orderKind mk
  = recorded toBuffer tbl1 orderKind mk ++ recorded toBuffer tbl2 orderKind mk.
Proof. unfold recorded. by rewrite filter_app, fmap_app. Qed.

(** X1. [getMinNonce] for a pair reads the rows of that pair only, and not
    their place in the table: it is the same for every rearrangement of the
    table, and the same with any rows of other makers or kinds added. *)
Theorem getMinNonce_reads_only_the_pair (config : Config)
    (tbl : list BulkCancelRow) (orderKind mk : string) :
  (forall tbl', tbl ≡ₚ tbl' ->
     getMinNonce toBuffer config tbl' orderKind mk
     = getMinNonce toBuffer config tbl orderKind mk)
  /\ (forall others,
        Forall (fun r => ~ selected toBuffer orderKind mk r) others ->
        getMinNonce toBuffer config (tbl ++ others) orderKind mk
        = getMinNonce toBuffer config tbl orderKind mk).
Proof.
  split.
  - intros tbl' Hperm. apply getMinNonce_recorded.
    unfold recorded. by rewrite Hperm.
  - intros others Hothers. apply getMinNonce_recorded.
    rewrite recorded_app.
    assert (Hnil : recorded toBuffer others orderKind mk = []).
    { unfold recorded.
      induction Hothers as [|r others Hr _ IH]; [reflexivity|].
      by rewrite filter_cons_False. }
    by rewrite Hnil, app_nil_r.
Qed.

(** X2. Recording further bulk cancellations never lowers the minimum nonce
    of a pair, as long as the nonces recorded for the pair are not
    negative. *)
Theorem getMinNonce_never_decreases (config : Config)
    (tbl new : list BulkCancelRow) (orderKind mk : string) :
  Forall (fun n => 0 <= n) (recorded toBuffer new orderKind mk) ->
  getMinNonce toBuffer config tbl orderKind mk
  <= getMinNonce toBuffer config (tbl ++ new) orderKind mk.
Proof.
  intros Hpos.
  destruct (decide (recorded toBuffer (tbl ++ new) orderKind mk = []))
    as [Hnil|Hne].
  - rewrite (getMinNonce_none config (tbl ++ new)) by done.
    rewrite recorded_app in Hnil. apply app_eq_nil in Hnil as [Hnil _].
    by rewrite getMinNonce_none.
  - destruct (getMinNonce_some config (tbl ++ new) orderKind mk Hne)
      as (m2 & [Hin2 Hmax2] & ->).
    rewrite recorded_app in Hin2, Hmax2.
    destruct (decide (recorded toBuffer tbl orderKind mk = [])) as [Hnil1|Hne1].
    + rewrite getMinNonce_none by done.
      rewrite Hnil1 in Hin2. simpl in Hin2.
      rewrite Forall_forall in Hpos. specialize (Hpos m2 Hin2).
      case_bool_decide; lia.
    + destruct (getMinNonce_some config tbl orderKind mk Hne1)
        as (m1 & [Hin1 _] & ->).
      assert (m1 <= m2) by (apply Hmax2, elem_of_app; by left).
      lia.
Qed.

End GetMinNonceMore.

(** *** The other queries *)

Section Queries.

Variable toBuffer : string -> list Byte.byte.

Lemma oneOrNone_cases {Row} (rows : list Row) :
  match length rows with
  | O => oneOrNone rows = Ok None
  | S O => exists row, rows = [row] /\ oneOrNone rows = Ok (Some row)
  | S (S _) => oneOrNone rows = Throw SqlError
  end.
Proof. destruct rows as [|r [|r' rows]]; simpl; eauto. Qed.

(** Under a key, a selection on the key gives at most one row. *)
Lemma filter_key_at_most_one {Row K} `{EqDecision K} (f : Row -> K)
    (k : K) (l : list Row) :
  NoDup (f <$> l) ->
  filter (fun r => f r = k) l = []
  \/ exists r, filter (fun r => f r = k) l = [r].
Proof.
  induction l as [|x l IH]; intros Hnd; [by left|].
  rewrite fmap_cons in Hnd. apply NoDup_cons in Hnd as [Hx Hnd].
  rewrite filter_cons. case_decide as Hk.
  - right. exists x. f_equal.
    destruct (filter (fun r => f r = k) l) as [|y ys] eqn:E; [done|].
    exfalso. apply Hx.
    assert (Hy : y ∈ filter (fun r => f r = k) l) by (rewrite E; left).
    apply list_elem_of_filter in Hy as [Hfy Hy].
    rewrite Hk, <- Hfy. by apply list_elem_of_fmap_2.
  - by apply IH.
Qed.

(** X7. When [(contract, owner)] is a key of [ft_balances] and
    [(contract, token_id, owner)] one of [nft_balances], the balance queries
    never reject: they give the amount of the row of the key, and zero when
    there is no such row. *)
Theorem balances_under_key (ft_balances : list FtBalance.t)
    (nft_balances : list NftBalance.t) (contract owner : string) (tokenId : Z) :
  NoDup ((fun r => (FtBalance.contract r, FtBalance.owner r)) <$> ft_balances) ->
  NoDup ((fun r => (NftBalance.contract r, NftBalance.token_id r,
                    NftBalance.owner r)) <$> nft_balances) ->
  (forall r, r ∈ ft_balances ->
     FtBalance.contract r = toBuffer contract ->
     FtBalance.owner r = toBuffer owner ->
     getFtBalance toBuffer ft_balances contract owner = Ok (FtBalance.amount r))
  /\ ((forall r, r ∈ ft_balances ->
         ~ (FtBalance.contract r = toBuffer contract
            /\ FtBalance.owner r = toBuffer owner)) ->
      getFtBalance toBuffer ft_balances contract owner = Ok 0)
  /\ (forall r, r ∈ nft_balances ->
        NftBalance.contract r = toBuffer contract ->
        NftBalance.token_id r = tokenId ->
        NftBalance.owner r = toBuffer owner ->
        getNftBalance toBuffer nft_balances contract tokenId owner
        = Ok (NftBalance.amount r))
  /\ ((forall r, r ∈ nft_balances ->
         ~ (NftBalance.contract r = toBuffer contract
            /\ NftBalance.token_id r = tokenId
            /\ NftBalance.owner r = toBuffer owner)) ->
      getNftBalance toBuffer nft_balances contract tokenId owner = Ok 0).
Proof.
  intros Hft Hnft.
  pose proof (filter_key_at_most_one
                (fun r => (FtBalance.contract r, FtBalance.owner r))
                (toBuffer contract, toBuffer owner) ft_balances Hft) as Hone.
  pose proof (filter_key_at_most_one
                (fun r => (NftBalance.contract r, NftBalance.token_id r,
                           NftBalance.owner r))
                (toBuffer contract, tokenId, toBuffer owner) nft_balances Hnft)
    as Hone'.
  assert (Hsel : filter (fun r => FtBalance.contract r = toBuffer contract
                                  /\ FtBalance.owner r = toBuffer owner) ft_balances
                 = filter (fun r => (FtBalance.contract r, FtBalance.owner r)
                                    = (toBuffer contract, toBuffer owner)) ft_balances).
  { apply list_filter_iff. intros r. split; [intros [-> ->]; done|].
    by intros [= -> ->]. }
  assert (Hsel' : filter (fun r => NftBalance.contract r = toBuffer contract
                                   /\ NftBalance.token_id r = tokenId
                                   /\ NftBalance.owner r = toBuffer owner) nft_balances
                  = filter (fun r => (NftBalance.contract r, NftBalance.token_id r,
                                      NftBalance.owner r)
                                     = (toBuffer contract, tokenId, toBuffer owner))
                      nft_balances).
  { apply list_filter_iff. intros r. split; [intros (-> & -> & ->); done|].
    by intros [= -> -> ->]. }
  unfold getFtBalance, getNftBalance. rewrite Hsel, Hsel'.
  split_and!.
  - intros r Hr Hc Ho.
    assert (Hin : r ∈ filter (fun r => (FtBalance.contract r, FtBalance.owner r)
                                       = (toBuffer contract, toBuffer owner)) ft_balances)
      by (apply list_elem_of_filter; split; [by rewrite Hc, Ho|done]).
    destruct Hone as [Hnil|[r' Hr']].
    + rewrite Hnil in Hin. by apply elem_of_nil in Hin.
    + rewrite Hr' in Hin |- *. apply list_elem_of_singleton in Hin. by subst.
  - intros Hnone. destruct Hone as [->|[r' Hr']]; [done|].
    exfalso. apply (Hnone r').
    + assert (Hin : r' ∈ [r']) by left. rewrite <- Hr' in Hin.
      by apply list_elem_of_filter in Hin as [_ ?].
    + assert (Hin : r' ∈ [r']) by left. rewrite <- Hr', <- Hsel in Hin.
      by apply list_elem_of_filter in Hin as [? _].
  - intros r Hr Hc Ht Ho.
    assert (Hin : r ∈ filter (fun r => (NftBalance.contract r, NftBalance.token_id r,
                                        NftBalance.owner r)
                                       = (toBuffer contract, tokenId, toBuffer owner))
                        nft_balances)
      by (apply list_elem_of_filter; split; [by rewrite Hc, Ht, Ho|done]).
    destruct Hone' as [Hnil|[r' Hr']].
    + rewrite Hnil in Hin. by apply elem_of_nil in Hin.
    + rewrite Hr' in Hin |- *. apply list_elem_of_singleton in Hin. by subst.
  - intros Hnone. destruct Hone' as [->|[r' Hr']]; [done|].
    exfalso. apply (Hnone r').
    + assert (Hin : r' ∈ [r']) by left. rewrite <- Hr' in Hin.
      by apply list_elem_of_filter in Hin as [_ ?].
    + assert (Hin : r' ∈ [r']) by left. rewrite <- Hr', <- Hsel' in Hin.
      by apply list_elem_of_filter in Hin as [? _].
Qed.

(** X6. [isOrderCancelled] answers [false] exactly when the order has no
    cancel event and [true] exactly when it has one; with two or more cancel
    events for the order the query rejects instead of answering. *)
Theorem isOrderCancelled_by_count (cancel_events : list CancelEvent.t)
    (orderId : string) :
  let found := filter (fun r => CancelEvent.order_id r = orderId) cancel_events in
  (isOrderCancelled cancel_events orderId = Ok false <-> length found = 0%nat)
  /\ (isOrderCancelled cancel_events orderId = Ok true <-> length found = 1%nat)
  /\ (isOrderCancelled cancel_events orderId = Throw SqlError
      <-> (2 <= length found)%nat).
Proof.
  intros found. unfold isOrderCancelled. fold found.
  destruct found as [|r [|r' rest]]; simpl;
    (split_and!; split; intros Hx; try done; try discriminate; try lia).
Qed.

#[local] Instance by_block_desc_trans : Transitive by_block_desc.
Proof. unfold by_block_desc. intros x y z ? ?. lia. Qed.

#[local] Instance by_block_desc_total : Total by_block_desc.
Proof. unfold by_block_desc. intros x y. lia. Qed.

Lemma getNftApproval_cases (tbl : list NftApprovalEvent.t)
    (contract owner operator : string) :
  match approvals toBuffer tbl contract owner operator with
  | [] => getNftApproval toBuffer tbl contract owner operator = Ok false
  | _ :: _ =>
      exists r, latest r (approvals toBuffer tbl contract owner operator)
        /\ getNftApproval toBuffer tbl contract owner operator
           = Ok (NftApprovalEvent.approved r)
  end.
Proof.
  unfold getNftApproval, approvals.
  set (sel := filter (approval_of toBuffer contract owner operator) tbl).
  pose proof (StronglySorted_merge_sort by_block_desc sel) as Hs.
  pose proof (merge_sort_Permutation by_block_desc sel) as Hp.
  destruct sel as [|x xs] eqn:E.
  - apply Permutation_nil_r in Hp. by rewrite Hp.
  - destruct (merge_sort by_block_desc (x :: xs)) as [|r rest] eqn:Es.
    { by apply Permutation_nil_l in Hp. }
    exists r. simpl. split; [|reflexivity].
    apply StronglySorted_inv in Hs as [_ Hall]. rewrite Forall_forall in Hall.
    split; [rewrite <- Hp; left|].
    intros r' Hr'. rewrite <- Hp in Hr'.
    apply elem_of_cons in Hr' as [->|Hr']; [lia|]. by apply Hall.
Qed.

(** X3. [getNftApproval] answers with the [approved] flag of an approval
    event of the triple (contract, owner, operator) that no event of the
    triple follows in block number, and with [false] when the triple has no
    approval event; it never rejects. *)
Theorem getNftApproval_latest_or_false (tbl : list NftApprovalEvent.t)
    (contract owner operator : string) :
  match approvals toBuffer tbl contract owner operator with
  | [] => getNftApproval toBuffer tbl contract owner operator = Ok false
  | _ :: _ =>
      exists r, latest r (approvals toBuffer tbl contract owner operator)
        /\ getNftApproval toBuffer tbl contract owner operator
           = Ok (NftApprovalEvent.approved r)
  end.
Proof. apply getNftApproval_cases. Qed.

(** X4. An approval event of a block after those of all the events recorded
    for its triple decides the answer, wherever it is inserted: a later
    approval or revocation overrides the earlier ones. *)
Theorem getNftApproval_later_event_wins (before after : list NftApprovalEvent.t)
    (e : NftApprovalEvent.t) (contract owner operator : string) :
  approval_of toBuffer contract owner operator e ->
  (forall r, r ∈ approvals toBuffer (before ++ after) contract owner operator ->
     NftApprovalEvent.block r < NftApprovalEvent.block e) ->
  getNftApproval toBuffer (before ++ e :: after) contract owner operator
  = Ok (NftApprovalEvent.approved e).
Proof.
  intros He Hlater.
  pose proof (getNftApproval_cases (before ++ e :: after) contract owner operator)
    as Hcases.
  assert (Hin : e ∈ approvals toBuffer (before ++ e :: after) contract owner operator).
  { unfold approvals. apply list_elem_of_filter. split; [done|].
    apply elem_of_app. right. left. }
  destruct (approvals toBuffer (before ++ e :: after) contract owner operator)
    as [|x xs] eqn:E; [by apply elem_of_nil in Hin|].
  destruct Hcases as (r & [Hr Hmax] & ->).
  specialize (Hmax e Hin). rewrite <- E in Hr.
  apply list_elem_of_filter in Hr as [Hsel Hr].
  assert (Hcases : r = e \/ r ∈ before ++ after).
  { apply elem_of_app in Hr as [Hr|Hr]; [right; apply elem_of_app; by left|].
    apply elem_of_cons in Hr as [->|Hr]; [by left|].
    right. apply elem_of_app. by right. }
  destruct Hcases as [->|Hr']; [done|].
  exfalso. specialize (Hlater r). unfold approvals in Hlater.
  rewrite list_elem_of_filter in Hlater. specialize (Hlater (conj Hsel Hr')). lia.
Qed.

Lemma getQuantityFilled_sum (tbl : list FillEvent2.t) (orderId : string) :
  getQuantityFilled tbl orderId = Ok (foldr Z.add 0 (fills_of tbl orderId)).
Proof.
  unfold getQuantityFilled, fills_of.
  by destruct (FillEvent2.amount <$> _).
Qed.

(** X5. The quantity filled of an order is the sum of the amounts of its
    fill events, zero without any: fills recorded later add to it, fills of
    other orders do not change it, and it does not go down while amounts are
    not negative. *)
Theorem getQuantityFilled_adds_up (tbl new : list FillEvent2.t)
    (orderId : string) :
  exists before added,
    getQuantityFilled tbl orderId = Ok before
    /\ getQuantityFilled new orderId = Ok added
    /\ getQuantityFilled (tbl ++ new) orderId = Ok (before + added)
    /\ before = foldr Z.add 0 (fills_of tbl orderId)
    /\ (Forall (fun r => FillEvent2.order_id r <> orderId) new -> added = 0)
    /\ (Forall (fun a => 0 <= a) (fills_of new orderId) -> 0 <= added).
Proof.
  exists (foldr Z.add 0 (fills_of tbl orderId)),
         (foldr Z.add 0 (fills_of new orderId)).
  rewrite !getQuantityFilled_sum.
  split_and!; try reflexivity.
  - f_equal. unfold fills_of. rewrite filter_app, fmap_app, foldr_app.
    generalize (FillEvent2.amount <$>
                  filter (fun r => FillEvent2.order_id r = orderId) tbl).
    intros l. induction l as [|a l IH]; simpl; lia.
  - intros Hothers. unfold fills_of.
    induction Hothers as [|r rs Hr _ IH]; [reflexivity|].
    by rewrite filter_cons_False.
  - intros Hpos. induction Hpos as [|a l Ha _ IH]; simpl; lia.
Qed.

End Queries.

End HelpersProps.

Module WyvernProps.
Import Wyvern.

Section Callbacks.

Context `{Env}.

(** *** The loop over the batch *)

Lemma try_catch_block_ok (log : Log) (a : Arrays) :
  (try_catch (try_block log) catch_block a).2 = Ok tt.
Proof.
  unfold try_catch, catch_block, ret.
  destruct (try_block log a) as [a' [[]|e]]; reflexivity.
Qed.

Lemma parse_logs_ok (logs : list Log) (a : Arrays) :
  (parse_logs logs a).2 = Ok tt.
Proof.
  unfold parse_logs. revert a.
  induction logs as [|log logs IH]; intros a; [reflexivity|].
  simpl. unfold bind.
  pose proof (try_catch_block_ok log a) as Hok.
  destruct (try_catch (try_block log) catch_block a) as [a' r].
  simpl in Hok. subst r. apply IH.
Qed.

Lemma parse_logs_parsed (logs : list Log) :
  parse_logs logs no_arrays = (parsed logs, Ok tt).
Proof.
  unfold parsed. pose proof (parse_logs_ok logs no_arrays).
  destruct (parse_logs logs no_arrays); simpl in *. congruence.
Qed.

(** *** One log at a time *)

Ltac unfold_try_block :=
  unfold try_block, bind, orThrow, ret, throw, push_cancelEvent,
    push_fillEvent, push_bulkCancelEvent, push_hashInfo, push_fillInfo, modify.

Ltac try_block_cases log :=
  unfold_try_block;
  destruct (parseEvent log) as [?bp|] eqn:?HparseEvent; simpl;
  [ repeat case_decide; simpl;
    try (destruct (parseLog log) as [[?h|?b ?s ?m ?t ?p ?md|?m ?n]|] eqn:?HparseLog;
         simpl)
  | ].

Lemma arrays_app_no_arrays_r (a : Arrays) : arrays_app a no_arrays = a.
Proof. destruct a. unfold arrays_app. simpl. by rewrite !app_nil_r. Qed.

Lemma arrays_app_no_arrays_l (a : Arrays) : arrays_app no_arrays a = a.
Proof. by destruct a. Qed.

Lemma arrays_app_assoc (a b c : Arrays) :
  arrays_app (arrays_app a b) c = arrays_app a (arrays_app b c).
Proof. unfold arrays_app. simpl. by rewrite !app_assoc. Qed.

(** The block only ever pushes: from any arrays it adds what it adds from
    empty ones, and throws in the same cases. *)
Lemma try_block_appends (log : Log) (a : Arrays) :
  try_block log a =
    (arrays_app a (try_block log no_arrays).1, (try_block log no_arrays).2).
Proof.
  try_block_cases log;
    rewrite ?arrays_app_no_arrays_r; try reflexivity;
    destruct a; unfold arrays_app; simpl;
    rewrite ?app_nil_r, <- ?app_assoc; reflexivity.
Qed.

(** Whenever the block throws it has pushed nothing. *)
Lemma try_block_throw_pushes_nothing (log : Log) (e : error) :
  (try_block log no_arrays).2 = Throw e ->
  (try_block log no_arrays).1 = no_arrays.
Proof. try_block_cases log; intros Hthrow; try reflexivity; discriminate. Qed.

Lemma contribution_eq (log : Log) :
  contribution log = (try_block log no_arrays).1.
Proof.
  unfold contribution, parsed, parse_logs. simpl.
  unfold bind, try_catch, catch_block, ret.
  destruct (try_block log no_arrays) as [a [[]|e]]; reflexivity.
Qed.

Lemma try_catch_block_appends (log : Log) (a : Arrays) :
  (try_catch (try_block log) catch_block a).1 = arrays_app a (contribution log).
Proof.
  rewrite contribution_eq. unfold try_catch, catch_block, ret.
  rewrite (try_block_appends log a).
  destruct ((try_block log no_arrays).2) as [[]|e]; reflexivity.
Qed.

Lemma parse_logs_appends (logs : list Log) (a : Arrays) :
  (parse_logs logs a).1 = arrays_app a (parsed logs).
Proof.
  unfold parsed. revert a.
  induction logs as [|log logs IH]; intros a.
  - simpl. by rewrite arrays_app_no_arrays_r.
  - unfold parse_logs in *. simpl. unfold bind.
    pose proof (try_catch_block_appends log a) as Ha.
    pose proof (try_catch_block_appends log no_arrays) as H0.
    pose proof (try_catch_block_ok log a) as Hoka.
    pose proof (try_catch_block_ok log no_arrays) as Hok0.
    destruct (try_catch (try_block log) catch_block a) as [a1 r1].
    destruct (try_catch (try_block log) catch_block no_arrays) as [a0 r0].
    simpl in *. subst. rewrite arrays_app_no_arrays_l.
    by rewrite IH, (IH (contribution log)), arrays_app_assoc.
Qed.

Lemma parsed_nil : parsed [] = no_arrays.
Proof. reflexivity. Qed.

Lemma parsed_cons (log : Log) (logs : list Log) :
  parsed (log :: logs) = arrays_app (contribution log) (parsed logs).
Proof.
  unfold parsed at 1. unfold parse_logs. simpl. unfold bind.
  pose proof (try_catch_block_appends log no_arrays) as H0.
  pose proof (try_catch_block_ok log no_arrays) as Hok.
  destruct (try_catch (try_block log) catch_block no_arrays) as [a0 r].
  simpl in *. subst. rewrite arrays_app_no_arrays_l.
  apply parse_logs_appends.
Qed.

Lemma parsed_app (l1 l2 : list Log) :
  parsed (l1 ++ l2) = arrays_app (parsed l1) (parsed l2).
Proof.
  induction l1 as [|log l1 IH]; simpl.
  - by rewrite parsed_nil, arrays_app_no_arrays_l.
  - by rewrite !parsed_cons, IH, arrays_app_assoc.
Qed.

Lemma contribution_malformed (log : Log) :
  malformed log -> contribution log = no_arrays.
Proof.
  intros [e He]. rewrite contribution_eq.
  by apply try_block_throw_pushes_nothing with e.
Qed.

(** A log adds one domain event when it is a well-formed log of a known
    event type, and none otherwise. *)
Lemma contribution_domain_events (log : Log) :
  domain_events (contribution log) = if decide (well_formed log) then 1%nat else 0%nat.
Proof.
  rewrite contribution_eq.
  case_decide as Hwf.
  - destruct Hwf as [Hok Hknown]. revert Hok. unfold known_topic in Hknown.
    try_block_cases log; intros Hok; try discriminate; try reflexivity.
    all: exfalso; tauto.
  - assert (Hnot : (try_block log no_arrays).2 = Ok tt -> ~ known_topic log)
      by (intros ? ?; apply Hwf; by split).
    revert Hnot. unfold known_topic.
    try_block_cases log; intros Hnot; try reflexivity;
      exfalso; apply Hnot; auto.
Qed.

(** *** What the dispatch step leaves alone *)

Lemma cancel_below_frame (ev : BulkCancelEvent.t) (st : Store) :
  cancel_events (cancel_below ev st).1 = cancel_events st
  /\ fill_events (cancel_below ev st).1 = fill_events st
  /\ fills_handle_queue (cancel_below ev st).1 = fills_handle_queue st.
Proof.
  unfold cancel_below, bind, update_orders, addToOrdersUpdateByHashQueue, modify.
  destruct returnAccepted; simpl; auto.
Qed.

Lemma bulk_loop_frame (evs : list BulkCancelEvent.t) (st : Store) :
  cancel_events (for_of evs cancel_below st).1 = cancel_events st
  /\ fill_events (for_of evs cancel_below st).1 = fill_events st
  /\ fills_handle_queue (for_of evs cancel_below st).1 = fills_handle_queue st.
Proof.
  revert st. induction evs as [|ev evs IH]; intros st; [by simpl|].
  simpl. unfold bind.
  pose proof (cancel_below_frame ev st) as (Hc & Hf & Hq).
  destruct (cancel_below ev st) as [st1 [[]|e]]; simpl in *.
  - destruct (IH st1) as (Hc' & Hf' & Hq'). by rewrite Hc', Hf', Hq'.
  - done.
Qed.

Lemma syncCallback_unfold (config : Config) (logs : list Log)
    (backfill : bool) (st : Store) :
  syncCallback config logs backfill st =
    if negb backfill && acceptOrders config
    then for_of (bulkCancelEvents (parsed logs)) cancel_below
           (enqueued (parsed logs) st)
    else (appended (parsed logs) st, Ok tt).
Proof.
  unfold syncCallback. rewrite parse_logs_parsed.
  unfold bind, addCancelEvents, addFillEvents, addToOrdersUpdateByHashQueue,
    addToFillsHandleQueue, modify, ret.
  destruct backfill, (acceptOrders config); reflexivity.
Qed.

Lemma syncCallback_ledger (config : Config) (logs : list Log)
    (backfill : bool) (st : Store) :
  cancel_events (syncCallback config logs backfill st).1 =
    cancel_events st ++ ledger_tagged "wyvern-v2" (cancelEvents (parsed logs))
  /\ fill_events (syncCallback config logs backfill st).1 =
    fill_events st ++ ledger_tagged "wyvern-v2" (fillEvents (parsed logs)).
Proof.
  rewrite syncCallback_unfold.
  destruct (negb backfill && acceptOrders config); [|by simpl].
  destruct (bulk_loop_frame (bulkCancelEvents (parsed logs))
              (enqueued (parsed logs) st)) as (Hc & Hf & _).
  by rewrite Hc, Hf.
Qed.

(** C4. For every batch the cancel events and the fill events derived from
    it are appended to the ledger whatever the backfill flag is; and when
    backfill is true the orders table and both queues are as before the
    call, which raises nothing. *)
Theorem ledger_appended_whatever_backfill (config : Config)
    (logs : list Log) (backfill : bool) (st : Store) :
  let st' := (syncCallback config logs backfill st).1 in
  cancel_events st' =
    cancel_events st ++ ledger_tagged "wyvern-v2" (cancelEvents (parsed logs))
  /\ fill_events st' =
    fill_events st ++ ledger_tagged "wyvern-v2" (fillEvents (parsed logs))
  /\ (backfill = true ->
      orders st' = orders st
      /\ orders_update_by_hash_queue st' = orders_update_by_hash_queue st
      /\ fills_handle_queue st' = fills_handle_queue st
      /\ (syncCallback config logs backfill st).2 = Ok tt).
Proof.
  cbv zeta.
  destruct (syncCallback_ledger config logs backfill st) as [Hc Hf].
  split; [exact Hc|]. split; [exact Hf|].
  intros ->. by rewrite syncCallback_unfold.
Qed.

(** *** Malformed logs *)

Lemma domain_events_app (a b : Arrays) :
  domain_events (arrays_app a b) = (domain_events a + domain_events b)%nat.
Proof. unfold domain_events, arrays_app. simpl. rewrite !length_app. lia. Qed.

Lemma parsed_one_by_one (logs : list Log) :
  parsed logs = foldr arrays_app no_arrays (contribution <$> logs).
Proof.
  induction logs as [|log logs IH]; [reflexivity|].
  rewrite parsed_cons, IH. reflexivity.
Qed.

Lemma parsed_without_malformed (logs : list Log) :
  parsed logs = parsed (filter (fun log => ~ malformed log) logs).
Proof.
  induction logs as [|log logs IH]; [reflexivity|].
  rewrite filter_cons. case_decide as Hm.
  - by rewrite !parsed_cons, IH.
  - assert (malformed log) by (destruct (decide (malformed log)); tauto).
    by rewrite parsed_cons, contribution_malformed, arrays_app_no_arrays_l.
Qed.

Lemma domain_events_parsed (logs : list Log) :
  domain_events (parsed logs) = length (filter well_formed logs).
Proof.
  induction logs as [|log logs IH]; [reflexivity|].
  rewrite parsed_cons, domain_events_app, contribution_domain_events, IH.
  rewrite filter_cons. by case_decide.
Qed.

(** The loop over the bulk-cancel events raises nothing but what the
    database raises, and nothing when the database runs the statement. *)
Lemma cancel_below_result (ev : BulkCancelEvent.t) (st : Store) :
  (cancel_below ev st).2 = if returnAccepted then Ok tt else Throw SqlError.
Proof.
  unfold cancel_below, bind, update_orders, addToOrdersUpdateByHashQueue, modify.
  by destruct returnAccepted.
Qed.

Lemma bulk_loop_result (evs : list BulkCancelEvent.t) (st : Store) :
  (for_of evs cancel_below st).2 =
    if returnAccepted then Ok tt
    else match evs with [] => Ok tt | _ :: _ => Throw SqlError end.
Proof.
  revert st. induction evs as [|ev evs IH]; intros st.
  - simpl. by destruct returnAccepted.
  - simpl. unfold bind. pose proof (cancel_below_result ev st) as Hev.
    destruct (cancel_below ev st) as [st1 [[]|e]]; simpl in *.
    + rewrite IH. destruct returnAccepted; [reflexivity|discriminate].
    + destruct returnAccepted; [discriminate|done].
Qed.

Lemma syncCallback_result (config : Config) (logs : list Log)
    (backfill : bool) (st : Store) :
  (syncCallback config logs backfill st).2 =
    if negb backfill && acceptOrders config && negb returnAccepted
    then match bulkCancelEvents (parsed logs) with
         | [] => Ok tt
         | _ :: _ => Throw SqlError
         end
    else Ok tt.
Proof.
  rewrite syncCallback_unfold.
  destruct (negb backfill && acceptOrders config); simpl; [|reflexivity].
  rewrite bulk_loop_result. by destruct returnAccepted.
Qed.

(** C5, the code on the batches on which it fails.  The loop over a batch
    skips the malformed logs and raises nothing: the batch yields what its
    logs yield one by one, a malformed log yielding nothing, every
    well-formed log of a known event type its one domain event, nine for a
    batch of one malformed and nine well-formed logs; and the cancel and
    fill events are appended to the ledger.  But the call on the batch does
    raise an error: the update statement of the bulk-cancel path ends in
    [return "hash"] and the database rejects it, so that with backfill off
    and [config.acceptOrders] on the call rejects with the database's error
    exactly when the batch has a well-formed nonce increment among its
    logs, and resolves otherwise. *)
Theorem malformed_logs_skipped_but_call_rejects (config : Config)
    (logs : list Log) (backfill : bool) (st : Store) :
  returnAccepted = false ->
  let st' := (syncCallback config logs backfill st).1 in
  (parse_logs logs no_arrays).2 = Ok tt
  /\ parsed logs = foldr arrays_app no_arrays (contribution <$> logs)
  /\ (forall log, malformed log -> contribution log = no_arrays)
  /\ parsed logs = parsed (filter (fun log => ~ malformed log) logs)
  /\ (forall log, well_formed log -> domain_events (contribution log) = 1%nat)
  /\ domain_events (parsed logs) = length (filter well_formed logs)
  /\ (length (filter malformed logs) = 1%nat ->
      length (filter well_formed logs) = 9%nat ->
      domain_events (parsed logs) = 9%nat)
  /\ cancel_events st' =
       cancel_events st ++ ledger_tagged "wyvern-v2" (cancelEvents (parsed logs))
  /\ fill_events st' =
       fill_events st ++ ledger_tagged "wyvern-v2" (fillEvents (parsed logs))
  /\ (syncCallback config logs backfill st).2 =
       (if negb backfill && acceptOrders config
        then match bulkCancelEvents (parsed logs) with
             | [] => Ok tt
             | _ :: _ => Throw SqlError
             end
        else Ok tt)
  /\ (backfill = false -> acceptOrders config = true ->
      bulkCancelEvents (parsed logs) <> [] ->
      (syncCallback config logs backfill st).2 = Throw SqlError).
Proof.
  intros Hrej. cbv zeta.
  split; [apply parse_logs_ok|].
  split; [apply parsed_one_by_one|].
  split; [apply contribution_malformed|].
  split; [apply parsed_without_malformed|].
  split.
  { intros log Hwf. rewrite contribution_domain_events. by case_decide. }
  split; [apply domain_events_parsed|].
  split; [intros _ Hnine; by rewrite domain_events_parsed|].
  destruct (syncCallback_ledger config logs backfill st) as [Hc Hf].
  split; [exact Hc|]. split; [exact Hf|].
  rewrite syncCallback_result, Hrej, andb_true_r.
  split; [reflexivity|].
  intros -> -> Hne. simpl.
  by destruct (bulkCancelEvents (parsed logs)).
Qed.

(** *** Bulk cancellation *)

(** When the database rejects the update statement the first bulk-cancel
    event of the batch ends the call, with the orders as they were. *)
Lemma bulk_cancel_when_statement_rejected (config : Config)
    (logs : list Log) (st : Store) :
  acceptOrders config = true ->
  returnAccepted = false ->
  bulkCancelEvents (parsed logs) <> [] ->
  syncCallback config logs false st = (enqueued (parsed logs) st, Throw SqlError).
Proof.
  intros Hgate Hrej Hne. rewrite syncCallback_unfold, Hgate. simpl.
  destruct (bulkCancelEvents (parsed logs)) as [|ev evs]; [done|].
  simpl. unfold bind, cancel_below, bind, update_orders. by rewrite Hrej.
Qed.

(** C3, the code at an input on which it fails.  The update statement of
    the bulk-cancel path ends in [return "hash"], and the database rejects
    it.  So, in a batch handled with backfill off and [config.acceptOrders]
    on, the first bulk-cancel event ends the call with the database's
    error: every order is as it was, among them the orders of kind
    "wyvern-v2.3" and of the maker of any of the batch's events whose nonce
    is below the event's and whose status is "valid" or "no-balance", none
    of which gets status "cancelled"; and the reconciliation queue has
    gained the items derived from the logs and no item for such an order. *)
Theorem bulk_cancel_update_rejected (config : Config) (logs : list Log)
    (st : Store) :
  acceptOrders config = true ->
  returnAccepted = false ->
  bulkCancelEvents (parsed logs) <> [] ->
  let st' := (syncCallback config logs false st).1 in
  (syncCallback config logs false st).2 = Throw SqlError
  /\ orders st' = orders st
  /\ orders_update_by_hash_queue st' =
       orders_update_by_hash_queue st ++ hashInfos (parsed logs)
  /\ fills_handle_queue st' = fills_handle_queue st ++ fillInfos (parsed logs)
  /\ (forall ev o,
        ev ∈ bulkCancelEvents (parsed logs) ->
        o ∈ orders st ->
        where_clause (BulkCancelEvent.maker ev) (BulkCancelEvent.newNonce ev) o ->
        o ∈ orders st' /\ Order.status o <> "cancelled").
Proof.
  intros Hgate Hrej Hne. cbv zeta.
  rewrite bulk_cancel_when_statement_rejected by done. simpl.
  split_and!; try done.
  intros ev o _ Ho (_ & _ & _ & Hstatus). split; [done|].
  intros Hc. rewrite Hc in Hstatus. destruct Hstatus; discriminate.
Qed.

(** The work items the loop over the bulk-cancel events enqueues carry the
    hashes of stored orders, as they are stored. *)
Lemma cancel_below_queue (ev : BulkCancelEvent.t) (st : Store) :
  Order.hash <$> orders (cancel_below ev st).1 = Order.hash <$> orders st
  /\ exists rest,
       orders_update_by_hash_queue (cancel_below ev st).1 =
         orders_update_by_hash_queue st ++ rest
       /\ Forall (fun i => HashInfo.hash i ∈ Order.hash <$> orders st) rest.
Proof.
  unfold cancel_below, bind, update_orders, addToOrdersUpdateByHashQueue, modify.
  destruct returnAccepted; simpl.
  - split.
    + rewrite <- list_fmap_compose. apply list_fmap_ext.
      intros i o _. simpl. by case_decide.
    + eexists. split; [reflexivity|].
      rewrite Forall_fmap. apply Forall_forall. intros h Hh. simpl.
      apply list_elem_of_fmap in Hh as (o & -> & Ho).
      apply list_elem_of_filter in Ho as [_ Ho].
      apply list_elem_of_fmap. by exists o.
  - split; [reflexivity|]. exists []. by rewrite app_nil_r.
Qed.

Lemma bulk_loop_queue (evs : list BulkCancelEvent.t) (st : Store) :
  exists rest,
    orders_update_by_hash_queue (for_of evs cancel_below st).1 =
      orders_update_by_hash_queue st ++ rest
    /\ Forall (fun i => HashInfo.hash i ∈ Order.hash <$> orders st) rest.
Proof.
  revert st. induction evs as [|ev evs IH]; intros st.
  - exists []. simpl. by rewrite app_nil_r.
  - simpl. unfold bind.
    destruct (cancel_below_queue ev st) as (Hh & rest1 & Hq1 & Hall1).
    destruct (cancel_below ev st) as [st1 [[]|e]]; simpl in *.
    + destruct (IH st1) as (rest2 & Hq2 & Hall2).
      exists (rest1 ++ rest2). rewrite Hq2, Hq1, app_assoc.
      split; [reflexivity|]. apply Forall_app. split; [done|].
      by rewrite <- Hh.
    + by exists rest1.
Qed.

(** *** Fills *)

(** C8, as the code has it. For every well-formed [OrdersMatched] log of a
    batch, the loop pushes exactly one fill event carrying the buy hash, the
    sell hash, the maker, the taker and the price of the log, exactly two
    reconciliation items [{context, hash}], one per order hash, and exactly
    one fill item [{context, buyHash, sellHash, block}], with [context] the
    transaction hash, a dash and the log index; the fill event is appended
    to the ledger, and when backfill is off and [config.acceptOrders] is on
    the items are enqueued, between those of the logs before and those of
    the logs after. *)
Theorem fill_log_yields (config : Config) (pre post : list Log) (log : Log)
    (st : Store) (bp : BaseEventParams) (b s m t : string) (p : Z)
    (md : string) :
  acceptOrders config = true ->
  parseEvent log = Some bp ->
  topics log !! 0%nat = Some (getEventTopic "OrdersMatched") ->
  getEventTopic "OrdersMatched" <> getEventTopic "OrderCancelled" ->
  parseLog log = Some (OrdersMatched b s m t p md) ->
  let context := txHash bp +:+ "-" +:+ pretty (logIndex bp) in
  let fillEvent :=
    {| FillEvent.buyHash := Js.toLowerCase b;
       FillEvent.sellHash := Js.toLowerCase s;
       FillEvent.maker := Js.toLowerCase m;
       FillEvent.taker := Js.toLowerCase t;
       FillEvent.price := p;
       FillEvent.baseParams := bp |} in
  let buy :=
    {| HashInfo.context := context; HashInfo.hash := Js.toLowerCase b |} in
  let sell :=
    {| HashInfo.context := context; HashInfo.hash := Js.toLowerCase s |} in
  let fillInfo :=
    {| FillInfo.context := context;
       FillInfo.buyHash := Js.toLowerCase b;
       FillInfo.sellHash := Js.toLowerCase s;
       FillInfo.block := block bp |} in
  let logs := pre ++ log :: post in
  let st' := (syncCallback config logs false st).1 in
  contribution log =
    {| bulkCancelEvents := []; cancelEvents := []; fillEvents := [fillEvent];
       hashInfos := [buy; sell]; fillInfos := [fillInfo] |}
  /\ parsed logs =
       arrays_app (parsed pre) (arrays_app (contribution log) (parsed post))
  /\ fill_events st' =
       fill_events st ++
       ledger_tagged "wyvern-v2"
         (fillEvents (parsed pre) ++ fillEvent :: fillEvents (parsed post))
  /\ fills_handle_queue st' =
       fills_handle_queue st ++
       (fillInfos (parsed pre) ++ fillInfo :: fillInfos (parsed post))
  /\ exists rest,
       orders_update_by_hash_queue st' =
         orders_update_by_hash_queue st ++
         (hashInfos (parsed pre) ++ buy :: sell :: hashInfos (parsed post)) ++ rest.
Proof.
  intros Hgate HparseEvent Htopic Hdistinct HparseLog
    context fillEvent buy sell fillInfo logs st'.
  assert (Hcontrib : contribution log =
    {| bulkCancelEvents := []; cancelEvents := []; fillEvents := [fillEvent];
       hashInfos := [buy; sell]; fillInfos := [fillInfo] |}).
  { rewrite contribution_eq. unfold_try_block.
    rewrite HparseEvent. simpl.
    rewrite decide_False by (rewrite Htopic; congruence).
    rewrite decide_True by done.
    rewrite HparseLog. reflexivity. }
  assert (Hparsed : parsed logs =
    arrays_app (parsed pre) (arrays_app (contribution log) (parsed post))).
  { unfold logs. by rewrite parsed_app, parsed_cons. }
  split; [exact Hcontrib|]. split; [exact Hparsed|].
  unfold st'. rewrite syncCallback_unfold, Hgate. simpl.
  destruct (bulk_loop_frame (bulkCancelEvents (parsed logs))
              (enqueued (parsed logs) st)) as (_ & Hf & Hq).
  destruct (bulk_loop_queue (bulkCancelEvents (parsed logs))
              (enqueued (parsed logs) st)) as (rest & Hrest & _).
  rewrite Hf, Hq, Hrest. simpl. rewrite Hparsed, Hcontrib. simpl.
  split; [reflexivity|]. split; [reflexivity|].
  exists rest. by rewrite <- !app_assoc.
Qed.

(** *** Lower case *)

Lemma is_upper_lower_ascii (c : ascii) : Js.is_upper (Js.lower_ascii c) = false.
Proof. destruct c as [[] [] [] [] [] [] [] []]; reflexivity. Qed.

Lemma lowercase_toLowerCase (s : string) : Js.lowercase (Js.toLowerCase s).
Proof.
  induction s as [|c s IH]; simpl; [done|].
  split; [apply is_upper_lower_ascii|exact IH].
Qed.

Lemma lowercase_arrays_app (a b : Arrays) :
  lowercase_arrays a -> lowercase_arrays b -> lowercase_arrays (arrays_app a b).
Proof.
  unfold lowercase_arrays, arrays_app. simpl.
  intros (? & ? & ? & ? & ?) (? & ? & ? & ? & ?).
  rewrite !Forall_app. tauto.
Qed.

Lemma lowercase_contribution (log : Log) : lowercase_arrays (contribution log).
Proof.
  rewrite contribution_eq. unfold lowercase_arrays.
  try_block_cases log;
    repeat split; repeat constructor; simpl;
    apply lowercase_toLowerCase.
Qed.

Lemma lowercase_parsed (logs : list Log) : lowercase_arrays (parsed logs).
Proof.
  induction logs as [|log logs IH].
  - rewrite parsed_nil. unfold lowercase_arrays. simpl. by repeat split.
  - rewrite parsed_cons.
    apply lowercase_arrays_app; [apply lowercase_contribution|exact IH].
Qed.

(** [toLowerCase] is the case normalisation: place by place, a letter
    from A to Z becomes the letter from a to z and any other character
    stays. *)
Lemma lowered_toLowerCase (raw : string) : lowered raw (Js.toLowerCase raw).
Proof.
  induction raw as [|c raw IH]; simpl; [constructor|].
  unfold Js.lower_ascii, Js.is_upper.
  destruct (65 <=? N_of_ascii c)%N eqn:Hlo; simpl.
  - destruct (N_of_ascii c <=? 90)%N eqn:Hhi.
    + apply lowered_letter; [|exact IH].
      apply N.leb_le in Hlo. apply N.leb_le in Hhi. lia.
    + apply lowered_other; [|exact IH].
      apply N.leb_gt in Hhi. lia.
  - apply lowered_other; [|exact IH].
    apply N.leb_gt in Hlo. lia.
Qed.

(** What [lowered] pins down: the result is determined by the raw string,
    has its length, has no letter from A to Z, and is the raw string itself
    when that has none. *)
Lemma lowered_unique (raw s1 s2 : string) :
  lowered raw s1 -> lowered raw s2 -> s1 = s2.
Proof.
  intros H1. revert s2.
  induction H1 as [|c raw s1 Hc _ IH|c raw s1 Hc _ IH]; intros s2 H2;
    inversion H2; subst; try done; f_equal; by apply IH.
Qed.

Lemma lowered_length (raw s : string) :
  lowered raw s -> String.length s = String.length raw.
Proof. induction 1; simpl; congruence. Qed.

Lemma lowered_no_capital (raw s : string) : lowered raw s -> no_capital s.
Proof.
  induction 1 as [|c raw s Hc _ IH|c raw s Hc _ IH]; simpl; [done| |done].
  split; [|exact IH].
  rewrite N_ascii_embedding by lia. lia.
Qed.

Lemma lowered_fixed (s : string) : no_capital s -> lowered s s.
Proof.
  induction s as [|c s IH]; simpl; [constructor|].
  intros [Hc Hs]. apply lowered_other; auto.
Qed.

Lemma emitted_strings_app (a b : Arrays) (x : string) :
  x ∈ emitted_strings (arrays_app a b)
  <-> x ∈ emitted_strings a \/ x ∈ emitted_strings b.
Proof.
  unfold emitted_strings, arrays_app. simpl.
  rewrite !fmap_app, !bind_app, !elem_of_app. tauto.
Qed.

(** Every string a log puts into the arrays is the lower-cased form of a
    hash or an address of the decoded log. *)
Lemma emitted_strings_contribution (log : Log) (x : string) :
  x ∈ emitted_strings (contribution log) ->
  exists args raw,
    parseLog log = Some args
    /\ raw ∈ decoded_strings args
    /\ x = Js.toLowerCase raw.
Proof.
  rewrite contribution_eq. unfold emitted_strings.
  try_block_cases log; simpl; intros Hx;
    try (by apply elem_of_nil in Hx);
    repeat (apply elem_of_cons in Hx as [->|Hx];
            [eexists _, _; split; [reflexivity|]; split; [|reflexivity];
             simpl; set_solver|]);
    by apply elem_of_nil in Hx.
Qed.

(** And a well-formed log of a known event type puts every hash and every
    address of the decoded log into the arrays, lower-cased. *)
Lemma decoded_strings_contribution (log : Log) (args : Args) (raw : string) :
  well_formed log ->
  parseLog log = Some args ->
  raw ∈ decoded_strings args ->
  Js.toLowerCase raw ∈ emitted_strings (contribution log).
Proof.
  intros [Hok Hknown] Hargs Hraw. revert Hok Hraw.
  rewrite contribution_eq. unfold emitted_strings, known_topic in *.
  try_block_cases log; intros Hok Hraw; try discriminate;
    try (exfalso; tauto);
    injection Hargs as <-; simpl in Hraw;
    repeat (apply elem_of_cons in Hraw as [->|Hraw]);
    try (by apply elem_of_nil in Hraw);
    apply list_elem_of_In; simpl; auto 10.
Qed.

(** Field by field: what a log puts into the arrays comes from the
    arguments of the same name. *)
Lemma normalised_from_contribution (log : Log) :
  contribution log = no_arrays
  \/ exists args, parseLog log = Some args
                  /\ normalised_from args (contribution log).
Proof.
  rewrite contribution_eq.
  try_block_cases log;
    first
      [ left; reflexivity
      | right; eexists; split; [reflexivity|];
        unfold normalised_from, normalises; simpl;
        repeat split; repeat constructor; simpl;
        first
          [ eexists; split; [reflexivity|apply lowered_toLowerCase]
          | left; eexists; split; [reflexivity|apply lowered_toLowerCase]
          | right; left; eexists; split; [reflexivity|apply lowered_toLowerCase]
          | right; right; eexists; split; [reflexivity|apply lowered_toLowerCase] ] ].
Qed.

Lemma emitted_strings_parsed (logs : list Log) (x : string) :
  x ∈ emitted_strings (parsed logs) ->
  exists log, log ∈ logs /\ x ∈ emitted_strings (contribution log).
Proof.
  induction logs as [|log logs IH].
  - rewrite parsed_nil. unfold emitted_strings. simpl. intros Hx.
    by apply elem_of_nil in Hx.
  - rewrite parsed_cons, emitted_strings_app. intros [Hx|Hx].
    + exists log. split; [left|done].
    + destruct (IH Hx) as (log' & Hin & Hx'). exists log'. split; [by right|done].
Qed.

Lemma contribution_in_parsed (logs : list Log) (log : Log) (x : string) :
  log ∈ logs ->
  x ∈ emitted_strings (contribution log) ->
  x ∈ emitted_strings (parsed logs).
Proof.
  induction logs as [|log' logs IH]; intros Hin Hx; [by apply elem_of_nil in Hin|].
  rewrite parsed_cons, emitted_strings_app.
  apply elem_of_cons in Hin as [->|Hin]; [by left|right; by apply IH].
Qed.

(** C10. For every batch, whatever the case of the letters in the raw logs:
    every order hash and every maker or taker address in a cancel event, a
    fill event, a bulk-cancel event, a reconciliation item or a fill item
    derived from the batch is the case-normalised form of a hash or an
    address of a decoded log of the batch, that is, that string with every
    letter from A to Z replaced by the letter from a to z and nothing else
    changed, so that it has the length of the raw string and no capital
    letter; conversely every hash and every address of a well-formed log of
    a known event type is in the arrays in that form; field by field, what
    a log puts into the arrays comes from the argument of the same name of
    that log, the batch yielding what its logs yield; and the events and
    items of the arrays are what the call appends to the ledger and
    enqueues first, whatever the flag and the configuration are.  (The
    reconciliation items added after them, in the bulk-cancel path, carry
    order hashes as the orders table stores them.) *)
Theorem emitted_hashes_and_addresses_lowercase (config : Config)
    (logs : list Log) (backfill : bool) (st : Store) :
  let st' := (syncCallback config logs backfill st).1 in
  (forall x, x ∈ emitted_strings (parsed logs) ->
     exists log args raw,
       log ∈ logs
       /\ parseLog log = Some args
       /\ raw ∈ decoded_strings args
       /\ lowered raw x
       /\ String.length x = String.length raw
       /\ no_capital x
       /\ (no_capital raw -> x = raw))
  /\ (forall log args raw,
        log ∈ logs -> well_formed log ->
        parseLog log = Some args ->
        raw ∈ decoded_strings args ->
        exists x, x ∈ emitted_strings (parsed logs) /\ lowered raw x)
  /\ parsed logs = foldr arrays_app no_arrays (contribution <$> logs)
  /\ (forall log,
        contribution log = no_arrays
        \/ exists args, parseLog log = Some args
                        /\ normalised_from args (contribution log))
  /\ lowercase_arrays (parsed logs)
  /\ (exists cs, cancel_events st' = cancel_events st ++ ledger_tagged "wyvern-v2" cs
                 /\ cs = cancelEvents (parsed logs)
                 /\ Forall lowercase_cancelEvent cs)
  /\ (exists fs, fill_events st' = fill_events st ++ ledger_tagged "wyvern-v2" fs
                 /\ fs = fillEvents (parsed logs)
                 /\ Forall lowercase_fillEvent fs)
  /\ (exists fis, fills_handle_queue st' = fills_handle_queue st ++ fis
                  /\ (fis = fillInfos (parsed logs) \/ fis = [])
                  /\ Forall lowercase_fillInfo fis)
  /\ (exists his rest,
        orders_update_by_hash_queue st' =
          orders_update_by_hash_queue st ++ his ++ rest
        /\ (his = hashInfos (parsed logs) \/ his = [])
        /\ Forall lowercase_hashInfo his
        /\ Forall (fun i => HashInfo.hash i ∈ Order.hash <$> orders st) rest).
Proof.
  simpl. split.
  { intros x Hx.
    apply emitted_strings_parsed in Hx as (log & Hin & Hx).
    apply emitted_strings_contribution in Hx as (args & raw & Hargs & Hraw & ->).
    exists log, args, raw.
    pose proof (lowered_toLowerCase raw) as Hlow.
    split_and!; try done.
    - by apply lowered_length.
    - by apply lowered_no_capital with raw.
    - intros Hno. apply (lowered_unique raw); [done|by apply lowered_fixed]. }
  split.
  { intros log args raw Hin Hwf Hargs Hraw.
    exists (Js.toLowerCase raw). split; [|apply lowered_toLowerCase].
    apply contribution_in_parsed with log; [done|].
    by apply decoded_strings_contribution with args. }
  split; [apply parsed_one_by_one|].
  split; [apply normalised_from_contribution|].
  pose proof (lowercase_parsed logs) as Hlow.
  split; [exact Hlow|].
  destruct Hlow as (Hc & Hf & _ & Hh & Hfi).
  destruct (syncCallback_ledger config logs backfill st) as [Hce Hfe].
  split; [by exists (cancelEvents (parsed logs))|].
  split; [by exists (fillEvents (parsed logs))|].
  rewrite syncCallback_unfold.
  destruct (negb backfill && acceptOrders config).
  - destruct (bulk_loop_frame (bulkCancelEvents (parsed logs))
                (enqueued (parsed logs) st)) as (_ & _ & Hq).
    destruct (bulk_loop_queue (bulkCancelEvents (parsed logs))
                (enqueued (parsed logs) st)) as (rest & Hrest & Hall).
    rewrite Hq, Hrest. simpl. split.
    + exists (fillInfos (parsed logs)). split_and!; auto.
    + exists (hashInfos (parsed logs)), rest. rewrite app_assoc.
      split_and!; auto.
  - simpl. split.
    + exists []. rewrite app_nil_r. split_and!; auto.
    + exists [], []. rewrite app_nil_r. split_and!; auto.
Qed.

(** *** Logs of other topics *)

Lemma contribution_other_topic (log : Log) :
  ~ known_topic log -> contribution log = no_arrays.
Proof.
  rewrite contribution_eq. unfold known_topic.
  try_block_cases log; intros Hother; try reflexivity; exfalso; tauto.
Qed.

Lemma enqueued_no_arrays (st : Store) : enqueued no_arrays st = st.
Proof.
  destruct st. unfold enqueued, appended, ledger_tagged. simpl.
  unfold set_fills_handle_queue, set_orders_update_by_hash_queue,
    set_fill_events, set_cancel_events. simpl.
  by rewrite !app_nil_r.
Qed.

Lemma appended_no_arrays (st : Store) : appended no_arrays st = st.
Proof.
  destruct st. unfold appended, ledger_tagged. simpl.
  unfold set_fill_events, set_cancel_events. simpl.
  by rewrite !app_nil_r.
Qed.

(** X8. A batch in which no log has one of the three listed topics (the
    empty batch among them) changes nothing: no event is appended, no work
    item enqueued, no order touched and nothing raised, whatever the flag
    and the configuration, and whether the logs decode or not. *)
Theorem other_topics_change_nothing (config : Config) (logs : list Log)
    (backfill : bool) (st : Store) :
  Forall (fun log => ~ known_topic log) logs ->
  syncCallback config logs backfill st = (st, Ok tt).
Proof.
  intros Hother.
  assert (Hparsed : parsed logs = no_arrays).
  { induction Hother as [|log logs Hlog _ IH]; [reflexivity|].
    by rewrite parsed_cons, IH, contribution_other_topic. }
  rewrite syncCallback_unfold, Hparsed.
  destruct (negb backfill && acceptOrders config); simpl.
  - by rewrite enqueued_no_arrays.
  - by rewrite appended_no_arrays.
Qed.

(** *** The orders table across a call *)

Lemma evolves_trans (o1 o2 o3 : Order.t) :
  evolves o1 o2 -> evolves o2 o3 -> evolves o1 o3.
Proof.
  intros H12 H23. destruct H23 as [H23|(H23 & Hkind & Hnonce & Hstatus)].
  - by subst o3.
  - destruct H12 as [H12|(H12 & _)].
    + subst o2 o3. by right.
    + subst o2. simpl in Hstatus. destruct Hstatus; discriminate.
Qed.

Lemma Forall2_chain {A} (R : A -> A -> Prop) (l1 l2 l3 : list A) :
  (forall x y z, R x y -> R y z -> R x z) ->
  Forall2 R l1 l2 -> Forall2 R l2 l3 -> Forall2 R l1 l3.
Proof.
  intros Htrans H12. revert l3.
  induction H12 as [|x y l1 l2 Hxy _ IH]; intros l3 H23; inv H23; constructor.
  - by eapply Htrans.
  - by apply IH.
Qed.

Lemma cancel_below_evolves (ev : BulkCancelEvent.t) (st : Store) :
  Forall2 evolves (orders st) (orders (cancel_below ev st).1).
Proof.
  unfold cancel_below, bind, update_orders, addToOrdersUpdateByHashQueue, modify.
  destruct returnAccepted; simpl.
  - apply Forall2_fmap_r, Forall_Forall2_diag, Forall_forall.
    intros o _. simpl. case_decide as Hhit; [|by left].
    right. unfold where_clause in Hhit.
    destruct Hhit as (? & _ & Hn & ?).
    split_and!; try done. destruct (Order.nonce o); [by eexists|done].
  - apply Forall_Forall2_diag, Forall_forall. intros o _. by left.
Qed.

Lemma bulk_loop_evolves (evs : list BulkCancelEvent.t) (st : Store) :
  Forall2 evolves (orders st) (orders (for_of evs cancel_below st).1).
Proof.
  revert st. induction evs as [|ev evs IH]; intros st.
  - simpl. apply Forall_Forall2_diag, Forall_forall. intros o _. by left.
  - simpl. unfold bind. pose proof (cancel_below_evolves ev st) as Hstep.
    destruct (cancel_below ev st) as [st1 [[]|e]]; simpl in *; [|done].
    eapply Forall2_chain; [apply evolves_trans|exact Hstep|apply IH].
Qed.

(** X9. Whatever the batch, the flag, the configuration and the database's
    answer, a call leaves the orders table with the same rows in the same
    places, each either untouched or turned from "valid" or "no-balance" to
    "cancelled": hash, kind, maker and nonce never change, an order of
    another kind or without nonce is never touched, and no order leaves the
    status "cancelled" or "filled". *)
Theorem orders_only_ever_cancelled (config : Config) (logs : list Log)
    (backfill : bool) (st : Store) :
  Forall2 evolves (orders st) (orders (syncCallback config logs backfill st).1).
Proof.
  rewrite syncCallback_unfold.
  destruct (negb backfill && acceptOrders config).
  - apply (bulk_loop_evolves _ (enqueued (parsed logs) st)).
  - simpl. apply Forall_Forall2_diag, Forall_forall. intros o _. by left.
Qed.

(** *** A batch in two parts *)

Lemma appended_app (a b : Arrays) (st : Store) :
  appended b (appended a st) = appended (arrays_app a b) st.
Proof.
  unfold appended, arrays_app, ledger_tagged, set_fill_events, set_cancel_events.
  simpl. by rewrite !fmap_app, !app_assoc.
Qed.

Lemma enqueued_app (a b : Arrays) (st : Store) :
  enqueued b (enqueued a st) = enqueued (arrays_app a b) st.
Proof.
  unfold enqueued, appended, arrays_app, ledger_tagged,
    set_fills_handle_queue, set_orders_update_by_hash_queue,
    set_fill_events, set_cancel_events.
  simpl. by rewrite !fmap_app, !app_assoc.
Qed.

(** X12. A batch can be handed over in two parts, one call after the
    other, when the first part does not get to the update statement, that
    is, when backfill is on, or [config.acceptOrders] is off, or the first
    part has no well-formed nonce increment: the first call then raises
    nothing, and the second call leaves the store and gives the result that
    one call on the whole batch does, whatever the database answers to the
    update statement. *)
Theorem batch_in_two_parts (config : Config) (logs1 logs2 : list Log)
    (backfill : bool) (st : Store) :
  backfill = true \/ acceptOrders config = false
  \/ bulkCancelEvents (parsed logs1) = [] ->
  (syncCallback config logs1 backfill st).2 = Ok tt
  /\ syncCallback config logs2 backfill (syncCallback config logs1 backfill st).1
     = syncCallback config (logs1 ++ logs2) backfill st.
Proof.
  intros Hfirst. rewrite !syncCallback_unfold, parsed_app.
  destruct (negb backfill && acceptOrders config) eqn:Hgate.
  - destruct Hfirst as [->|[Hoff|Hnone]]; [done| |].
    + rewrite Hoff in Hgate. by destruct backfill.
    + rewrite Hnone. simpl. split; [done|].
      by rewrite enqueued_app, Hnone.
  - simpl. split; [done|]. by rewrite appended_app.
Qed.

(** *** Events and work items *)

Lemma in_step_app (a b : Arrays) :
  in_step a -> in_step b -> in_step (arrays_app a b).
Proof.
  unfold in_step, arrays_app. simpl. intros [Hfa Hha] [Hfb Hhb].
  rewrite !fmap_app, bind_app, Hfa, Hfb, Hha, Hhb. split; [done|].
  rewrite <- !app_assoc. apply Permutation_app_head.
  rewrite !app_assoc. apply Permutation_app_tail, Permutation_app_comm.
Qed.

Lemma in_step_contribution (log : Log) : in_step (contribution log).
Proof.
  rewrite contribution_eq. unfold in_step.
  try_block_cases log; simpl; by split.
Qed.

(** X19. For every batch the work items derived from the logs are in step
    with the events derived from them: the fill items are those of the fill
    events, one each and in their order, and the reconciliation items carry
    the order hash of every cancel event and the buy and sell hash of every
    fill event, each once per event, and no other hash. *)
Theorem work_items_in_step_with_events (logs : list Log) :
  fillInfos (parsed logs) = fill_item <$> fillEvents (parsed logs)
  /\ HashInfo.hash <$> hashInfos (parsed logs)
     ≡ₚ (CancelEvent.orderHash <$> cancelEvents (parsed logs))
        ++ (fillEvents (parsed logs) ≫= fill_hashes)
  /\ length (hashInfos (parsed logs))
     = (length (cancelEvents (parsed logs))
        + 2 * length (fillEvents (parsed logs)))%nat.
Proof.
  assert (Hstep : in_step (parsed logs)).
  { induction logs as [|log logs IH].
    - by split.
    - rewrite parsed_cons. apply in_step_app; [apply in_step_contribution|done]. }
  destruct Hstep as [Hfills Hhashes]. split; [done|]. split; [done|].
  apply Permutation_length in Hhashes.
  rewrite length_fmap, length_app, length_fmap in Hhashes. rewrite Hhashes.
  f_equal. generalize (fillEvents (parsed logs)).
  intros l. induction l as [|e l IH]; [done|].
  rewrite bind_cons, length_app, IH. simpl. lia.
Qed.

(** *** Contexts *)

Lemma app_char_split (c : ascii) (s1 s2 r1 r2 : string) :
  ~ has_char c s1 -> ~ has_char c s2 ->
  s1 +:+ String c r1 = s2 +:+ String c r2 ->
  s1 = s2 /\ r1 = r2.
Proof.
  revert s2. induction s1 as [|a s1 IH]; intros [|b s2] H1 H2 Heq; simpl in *.
  - by injection Heq as ->.
  - injection Heq as <- _. tauto.
  - injection Heq as -> _. tauto.
  - injection Heq as -> Heq.
    destruct (IH s2) as [-> ->]; [tauto|tauto|done|done].
Qed.

Lemma contexts_contribution (log : Log) (c : string) :
  c ∈ contexts (contribution log) ->
  exists bp, parseEvent log = Some bp
             /\ c = txHash bp +:+ "-" +:+ pretty (logIndex bp).
Proof.
  rewrite contribution_eq. unfold contexts.
  try_block_cases log; simpl; intros Hc;
    repeat (apply elem_of_cons in Hc as [->|Hc]; [by eexists|]);
    by apply elem_of_nil in Hc.
Qed.

(** X13. Work items and bulk-cancel events derived from two logs have the
    same context only when the two logs have the same transaction hash and
    the same log index in their base parameters, for transaction hashes
    without a dash: the context tells the events of a batch apart. *)
Theorem context_identifies_the_event (log1 log2 : Log)
    (bp1 bp2 : BaseEventParams) (c : string) :
  parseEvent log1 = Some bp1 ->
  parseEvent log2 = Some bp2 ->
  ~ has_char "-" (txHash bp1) ->
  ~ has_char "-" (txHash bp2) ->
  c ∈ contexts (contribution log1) ->
  c ∈ contexts (contribution log2) ->
  txHash bp1 = txHash bp2 /\ logIndex bp1 = logIndex bp2.
Proof.
  intros Hbp1 Hbp2 Hno1 Hno2 Hc1 Hc2.
  apply contexts_contribution in Hc1 as (bp1' & Hbp1' & Hc1).
  apply contexts_contribution in Hc2 as (bp2' & Hbp2' & Hc2).
  rewrite Hbp1 in Hbp1'. rewrite Hbp2 in Hbp2'.
  injection Hbp1' as <-. injection Hbp2' as <-.
  rewrite Hc1 in Hc2. simpl in Hc2.
  apply app_char_split in Hc2 as [Htx Hidx]; [|done|done].
  split; [done|]. by apply (inj pretty).
Qed.

(** *** Reorganisations *)

Lemma referenced_cancel_hashes (reorgContext : BaseEventParams -> string)
    (blockHash' : string) (l : list (string * CancelEvent.t)) :
  HashInfo.hash <$>
    ((fun e => {| HashInfo.context := reorgContext (CancelEvent.baseParams e.2);
                  HashInfo.hash := CancelEvent.orderHash e.2 |})
       <$> filter (fun e => blockHash (CancelEvent.baseParams e.2) = blockHash') l)
  = l ≫= (fun e => if decide (blockHash (CancelEvent.baseParams e.2) = blockHash')
                   then [CancelEvent.orderHash e.2] else []).
Proof.
  induction l as [|e l IH]; [reflexivity|].
  rewrite filter_cons, bind_cons. case_decide; [|exact IH].
  rewrite !fmap_cons, IH. reflexivity.
Qed.

Lemma referenced_fill_hashes (reorgContext : BaseEventParams -> string)
    (blockHash' : string) (l : list (string * FillEvent.t)) :
  HashInfo.hash <$>
    (filter (fun e => blockHash (FillEvent.baseParams e.2) = blockHash') l
     ≫= fun e =>
          [ {| HashInfo.context := reorgContext (FillEvent.baseParams e.2);
               HashInfo.hash := FillEvent.buyHash e.2 |};
            {| HashInfo.context := reorgContext (FillEvent.baseParams e.2);
               HashInfo.hash := FillEvent.sellHash e.2 |} ])
  = l ≫= (fun e => if decide (blockHash (FillEvent.baseParams e.2) = blockHash')
                   then [FillEvent.buyHash e.2; FillEvent.sellHash e.2] else []).
Proof.
  induction l as [|e l IH]; [reflexivity|].
  rewrite filter_cons, bind_cons. case_decide; [|exact IH].
  rewrite bind_cons, fmap_app, IH. reflexivity.
Qed.

(** C2. For every block hash, [fixCallback] deletes exactly the cancel
    events and the fill events of that block, the events of the other
    blocks staying in their order, and enqueues reconciliation work items
    after the items already queued: their order hashes are the order hashes
    the removed events refer to, one item per reference, so that every
    order a removed event refers to has a work item in the queue, and no
    other order gets one.  The orders table and the fill queue are as they
    were, and nothing is raised. *)
Theorem fixCallback_deletes_and_reenqueues
    (reorgContext : BaseEventParams -> string) (blockHash' : string)
    (st : Store) :
  let st' := (fixCallback reorgContext blockHash' st).1 in
  (forall e, e ∈ cancel_events st' <->
     e ∈ cancel_events st /\ blockHash (CancelEvent.baseParams e.2) <> blockHash')
  /\ (forall e, e ∈ fill_events st' <->
     e ∈ fill_events st /\ blockHash (FillEvent.baseParams e.2) <> blockHash')
  /\ cancel_events st' `sublist_of` cancel_events st
  /\ fill_events st' `sublist_of` fill_events st
  /\ (exists items,
        orders_update_by_hash_queue st' = orders_update_by_hash_queue st ++ items
        /\ HashInfo.hash <$> items = referenced_hashes blockHash' st)
  /\ (forall h, h ∈ referenced_hashes blockHash' st ->
        exists i, i ∈ orders_update_by_hash_queue st' /\ HashInfo.hash i = h)
  /\ orders st' = orders st
  /\ fills_handle_queue st' = fills_handle_queue st
  /\ (fixCallback reorgContext blockHash' st).2 = Ok tt.
Proof.
  cbv zeta.
  unfold fixCallback, bind, removeCancelEvents, removeFillEvents,
    addToOrdersUpdateByHashQueue, modify. simpl.
  split; [intros e; rewrite list_elem_of_filter; tauto|].
  split; [intros e; rewrite list_elem_of_filter; tauto|].
  split; [apply sublist_filter|].
  split; [apply sublist_filter|].
  assert (Hitems : exists items,
    (orders_update_by_hash_queue st ++
       ((fun e => {| HashInfo.context := reorgContext (CancelEvent.baseParams e.2);
                     HashInfo.hash := CancelEvent.orderHash e.2 |})
          <$> filter (fun e => blockHash (CancelEvent.baseParams e.2) = blockHash')
                (cancel_events st))) ++
      (filter (fun e => blockHash (FillEvent.baseParams e.2) = blockHash')
         (fill_events st)
       ≫= fun e =>
            [ {| HashInfo.context := reorgContext (FillEvent.baseParams e.2);
                 HashInfo.hash := FillEvent.buyHash e.2 |};
              {| HashInfo.context := reorgContext (FillEvent.baseParams e.2);
                 HashInfo.hash := FillEvent.sellHash e.2 |} ])
    = orders_update_by_hash_queue st ++ items
    /\ HashInfo.hash <$> items = referenced_hashes blockHash' st).
  { eexists. split; [by rewrite <- app_assoc|].
    unfold referenced_hashes.
    by rewrite fmap_app, referenced_cancel_hashes, referenced_fill_hashes. }
  split; [exact Hitems|].
  split; [|done].
  destruct Hitems as (items & -> & Hhashes).
  intros h Hh. rewrite <- Hhashes in Hh.
  apply list_elem_of_fmap in Hh as (i & -> & Hi).
  exists i. split; [|done]. apply elem_of_app. by right.
Qed.

End Callbacks.

End WyvernProps.

Module RemoveBuyOrderEventsProps.
Import RemoveBuyOrderEvents.

(** *** The row order *)

Lemma row_le_total (k1 k2 : Z * string) : row_le k1 k2 \/ row_le k2 k1.
Proof.
  unfold row_le. destruct (Z.lt_trichotomy k1.1 k2.1) as [?|[?|?]]; auto.
  destruct (total String.le k1.2 k2.2); auto.
Qed.

Lemma row_le_trans (k1 k2 k3 : Z * string) :
  row_le k1 k2 -> row_le k2 k3 -> row_le k1 k3.
Proof.
  unfold row_le. intros [?|(? & ?)] [?|(? & ?)]; try (left; lia).
  right. split; [lia|]. by transitivity k2.2.
Qed.

Lemma row_le_antisym (k1 k2 : Z * string) :
  row_le k1 k2 -> row_le k2 k1 -> k1 = k2.
Proof.
  unfold row_le. destruct k1 as [t1 i1], k2 as [t2 i2]. simpl.
  intros [?|(? & ?)] [?|(? & ?)]; try lia.
  f_equal; [lia|]. by apply (anti_symm String.le).
Qed.

Lemma row_lt_le_ne (k1 k2 : Z * string) :
  row_lt k1 k2 <-> row_le k1 k2 /\ k1 <> k2.
Proof.
  unfold row_lt, row_le. destruct k1 as [t1 i1], k2 as [t2 i2]. simpl. split.
  - intros [?|(? & ? & ?)].
    + split; [by left|]. intros [= ? ?]. lia.
    + split; [by right|]. intros [= ? ?]. done.
  - intros [[?|(? & ?)] Hne]; [by left|].
    right. repeat split; [done..|]. intros ->. apply Hne. by f_equal.
Qed.

Lemma row_lt_le_trans (k1 k2 k3 : Z * string) :
  row_le k1 k2 -> row_lt k2 k3 -> row_lt k1 k3.
Proof.
  rewrite !row_lt_le_ne. intros H12 [H23 Hne]. split.
  - by apply row_le_trans with k2.
  - intros ->. apply Hne. by apply row_le_antisym.
Qed.

#[local] Instance created_at_id_desc_trans : Transitive created_at_id_desc.
Proof.
  unfold created_at_id_desc. intros o1 o2 o3 ? ?.
  by apply row_le_trans with (key o2).
Qed.

#[local] Instance created_at_id_desc_total : Total created_at_id_desc.
Proof. unfold created_at_id_desc. intros o1 o2. apply row_le_total. Qed.

Lemma filter_ext_in {A} (P Q : A -> Prop) `{!forall x, Decision (P x)}
    `{!forall x, Decision (Q x)} (l : list A) :
  (forall x, x ∈ l -> P x <-> Q x) -> filter P l = filter Q l.
Proof.
  induction l as [|x l IH]; intros Hext; [reflexivity|].
  rewrite !filter_cons.
  rewrite IH by (intros y Hy; apply Hext; by right).
  apply decide_ext. apply Hext. left.
Qed.

Lemma filter_all {A} (P : A -> Prop) `{!forall x, Decision (P x)} (l : list A) :
  (forall x, x ∈ l -> P x) -> filter P l = l.
Proof.
  induction l as [|x l IH]; intros Hall; [reflexivity|].
  rewrite filter_cons_True by (apply Hall; left).
  f_equal. apply IH. intros y Hy. apply Hall. by right.
Qed.

Lemma length_filter_other_keys {A B} `{EqDecision B} (f : A -> B)
    (l : list A) (x : A) :
  NoDup (f <$> l) -> x ∈ l ->
  (length (filter (fun y => f y <> f x) l) + 1 = length l)%nat.
Proof.
  induction l as [|y l IH]; intros Hnd Hx; [by apply elem_of_nil in Hx|].
  rewrite fmap_cons in Hnd. apply NoDup_cons in Hnd as [Hy Hnd].
  rewrite filter_cons. destruct (decide (f y = f x)) as [Heq|Hneq].
  - rewrite decide_False by tauto.
    rewrite filter_all; [simpl; lia|].
    intros z Hz Hzx. apply Hy.
    rewrite Heq, <- Hzx. by apply list_elem_of_fmap_2.
  - rewrite decide_True by done. simpl.
    apply elem_of_cons in Hx as [->|Hx]; [done|].
    specialize (IH Hnd Hx). lia.
Qed.

Lemma NoDup_fmap_eq {A B} (f : A -> B) (l : list A) (x y : A) :
  NoDup (f <$> l) -> x ∈ l -> y ∈ l -> f x = f y -> x = y.
Proof.
  induction l as [|a l IH]; intros Hnd Hx Hy Heq; [by apply elem_of_nil in Hx|].
  rewrite fmap_cons in Hnd. apply NoDup_cons in Hnd as [Ha Hnd].
  apply elem_of_cons in Hx as [->|Hx]; apply elem_of_cons in Hy as [->|Hy].
  - done.
  - exfalso. apply Ha. rewrite Heq. by apply list_elem_of_fmap_2.
  - exfalso. apply Ha. rewrite <- Heq. by apply list_elem_of_fmap_2.
  - by apply IH.
Qed.

Lemma row_lt_irrefl (k : Z * string) : ~ row_lt k k.
Proof. rewrite row_lt_le_ne. tauto. Qed.

Section Sweep.

Context `{Timestamps}.

(** *** One job *)

Lemma select_none (cursor : option CursorInfo) (orders : list Order.t) :
  remaining cursor orders = [] -> select_buyOrders cursor orders = [].
Proof. unfold select_buyOrders. by intros ->. Qed.

(** With rows left, the job reads one row, and that row is the greatest of
    the rows left. *)
Lemma select_some (cursor : option CursorInfo) (orders : list Order.t) :
  remaining cursor orders <> [] ->
  exists m, select_buyOrders cursor orders = [select_list m]
    /\ m ∈ remaining cursor orders
    /\ forall o, o ∈ remaining cursor orders -> row_le (key o) (key m).
Proof.
  intros Hne. unfold select_buyOrders.
  pose proof (StronglySorted_merge_sort created_at_id_desc
                (remaining cursor orders)) as Hs.
  pose proof (merge_sort_Permutation created_at_id_desc
                (remaining cursor orders)) as Hp.
  destruct (merge_sort created_at_id_desc (remaining cursor orders))
    as [|m rest] eqn:E.
  - apply Permutation_nil_l in Hp. by rewrite <- Hp in Hne.
  - exists m. split; [reflexivity|].
    apply StronglySorted_inv in Hs as [_ Hall].
    rewrite Forall_forall in Hall.
    split; [rewrite <- Hp; left|].
    intros o Ho. rewrite <- Hp in Ho.
    apply elem_of_cons in Ho as [->|Ho].
    + destruct (row_le_total (key m) (key m)); done.
    + by apply Hall.
Qed.

(** Two rows with the same select list give the same cursor. *)
Lemma select_list_cursor (m o : Order.t) :
  select_list m = select_list o -> cursor_of m = cursor_of o.
Proof. unfold select_list, cursor_of. by intros [= -> ->]. Qed.

Lemma remaining_of_buy_orders (cursor : option CursorInfo) (orders : list Order.t) :
  remaining cursor orders = filter (continuationFilter cursor) (buy_orders orders).
Proof.
  unfold remaining, buy_orders. rewrite list_filter_filter.
  apply list_filter_iff. tauto.
Qed.

Lemma remaining_no_cursor (orders : list Order.t) :
  remaining None orders = buy_orders orders.
Proof.
  unfold remaining, buy_orders. apply list_filter_iff. simpl. tauto.
Qed.

Lemma remaining_comes_back (cursor : option CursorInfo) (orders : list Order.t)
    (m : Order.t) :
  exact_round_trip orders -> m ∈ remaining cursor orders -> comes_back m.
Proof.
  unfold exact_round_trip. rewrite Forall_forall. intros Hexact Hm.
  apply Hexact. rewrite remaining_of_buy_orders in Hm.
  by apply list_elem_of_filter in Hm as [_ ?].
Qed.

(** The database reads the cursor of a row whose timestamp comes back as
    the row's own [(created_at, id)]. *)
Lemma cursor_of_key (m o : Order.t) :
  comes_back m ->
  continuationFilter (Some (cursor_of m)) o <-> row_lt (key o) (key m).
Proof. unfold comes_back, cursor_of, key. simpl. by intros ->. Qed.

(** The rows below the new cursor are the rows that were left and are
    below the row just read. *)
Lemma remaining_next (cursor : option CursorInfo) (orders : list Order.t)
    (m : Order.t) :
  comes_back m ->
  m ∈ remaining cursor orders ->
  remaining (Some (cursor_of m)) orders
  = filter (fun o => row_lt (key o) (key m)) (remaining cursor orders).
Proof.
  intros Hback Hm. apply list_elem_of_filter in Hm as [[_ Hcf] _].
  unfold remaining. rewrite list_filter_filter. apply list_filter_iff.
  intros o. rewrite (cursor_of_key m o Hback).
  split; [|tauto]. intros [Hbuy Hlt]. split_and!; try done.
  destruct cursor as [c|]; simpl in *; [|done].
  apply row_lt_le_trans with (key m); [|done].
  by apply row_lt_le_ne in Hlt as [? _].
Qed.

(** Each job leaves exactly one row less to the next: the rows below the new
    cursor are the rows that were left, but the one just read. *)
Lemma remaining_shrinks (cursor : option CursorInfo) (orders : list Order.t)
    (m : Order.t) :
  comes_back m ->
  NoDup (key <$> buy_orders orders) ->
  m ∈ remaining cursor orders ->
  (forall o, o ∈ remaining cursor orders -> row_le (key o) (key m)) ->
  (length (remaining (Some (cursor_of m)) orders) + 1
   = length (remaining cursor orders))%nat.
Proof.
  intros Hback Hnd Hm Hmax.
  assert (Hnd' : NoDup (key <$> remaining cursor orders)).
  { rewrite remaining_of_buy_orders.
    eapply sublist_NoDup; [exact Hnd|].
    apply fmap_sublist, sublist_filter. }
  rewrite <- (length_filter_other_keys key (remaining cursor orders) m Hnd' Hm).
  f_equal. f_equal.
  rewrite (remaining_next cursor orders m Hback Hm).
  apply filter_ext_in. intros o Ho. rewrite row_lt_le_ne.
  split; [tauto|]. intros Hne. split; [by apply Hmax|done].
Qed.

Lemma worker_none (cursor : option CursorInfo) (st : Store) :
  select_buyOrders cursor (orders st) = [] -> worker cursor st = (st, Ok tt).
Proof. unfold worker. by intros ->. Qed.

Lemma worker_some (cursor : option CursorInfo) (st : Store) (m : Order.t) :
  select_buyOrders cursor (orders st) = [select_list m] ->
  worker cursor st =
    (set_jobs (jobs st ++ [Some (cursor_of m)])
       (set_order_events
          (filter (fun e => OrderEvent.order_id e <> Order.id m) (order_events st))
          st),
     Ok tt).
Proof.
  unfold worker. intros ->. simpl.
  unfold bind, delete_order_events, addToQueue, modify. simpl.
  reflexivity.
Qed.

(** *** The sweep *)

Lemma run_from (n : nat) :
  forall (st : Store) (cursor : option CursorInfo) (fuel : nat),
    exact_round_trip (orders st) ->
    NoDup (key <$> buy_orders (orders st)) ->
    jobs st = [cursor] ->
    length (remaining cursor (orders st)) = n ->
    (n < fuel)%nat ->
    length (run fuel st).1 = S n
    /\ jobs (run fuel st).2 = []
    /\ orders (run fuel st).2 = orders st
    /\ run fuel st = run (S n) st
    /\ (run fuel st).1 !! 0%nat = Some cursor
    /\ (forall k c, (run fuel st).1 !! k = Some c ->
          length (remaining c (orders st)) = (n - k)%nat
          /\ forall o, select_buyOrders c (orders st) = [select_list o] ->
               (run fuel st).1 !! S k = Some (Some (cursor_of o))).
Proof.
  induction n as [|n IH]; intros st cursor fuel Hexact Hnd Hjobs Hlen Hfuel;
    destruct fuel as [|fuel]; try lia; simpl; rewrite Hjobs.
  - apply length_zero_iff_nil in Hlen.
    pose proof (select_none cursor (orders st) Hlen) as Hsel.
    rewrite worker_none by done. simpl.
    assert (Hrun : run fuel (set_jobs [] st) = ([], set_jobs [] st))
      by (by destruct fuel).
    rewrite Hrun. simpl. split_and!; try done.
    intros [|k] c Hk; simpl in Hk; [|done].
    injection Hk as <-. split; [by rewrite Hlen|].
    intros o Ho. by rewrite Hsel in Ho.
  - assert (Hne : remaining cursor (orders st) <> [])
      by (intros E; by rewrite E in Hlen).
    destruct (select_some cursor (orders st) Hne) as (m & Hsel & Hm & Hmax).
    rewrite (worker_some cursor (set_jobs [] st) m) by done. simpl.
    set (st1 := set_jobs [Some (cursor_of m)] _).
    pose proof (remaining_comes_back cursor (orders st) m Hexact Hm) as Hback.
    pose proof (remaining_shrinks cursor (orders st) m Hback Hnd Hm Hmax)
      as Hshrink.
    destruct (IH st1 (Some (cursor_of m)) fuel) as (Hl & Hj & Ho & Hf & H0 & Hk);
      [done|done|done|simpl; lia|lia|].
    rewrite Hf.
    destruct (run (S n) st1) as [handled st2] eqn:Hrun. simpl in *.
    rewrite Hrun. rewrite Hf in *. simpl in *.
    split_and!; [by rewrite Hl|done|done|done|done|].
    intros [|k] c Hc; simpl in Hc.
    + injection Hc as <-. split; [lia|].
      intros o Ho'. simpl. rewrite Hsel in Ho'.
      assert (Heq : select_list m = select_list o) by congruence.
      by rewrite <- (select_list_cursor m o Heq).
    + destruct (Hk k c Hc) as [Hlen' Hnext]. split; [lia|done].
Qed.

(** C6, with the proviso the code needs.  For every orders table whose [M]
    buy rows differ in [(created_at, id)] and have a [created_at] that
    comes back from its epoch value ([to_timestamp] of [extract(epoch from
    created_at)] is [created_at]), the sweep started by a job without cursor
    handles exactly [M + 1] jobs and then finds the queue empty, whatever
    fuel above [M] it is given: the job number [k] (from 0) has [M - k] rows
    left to read, one less than the job before it; each of the first [M]
    jobs reads exactly one row and enqueues the job after it, whose cursor
    is made of that row; and the job number [M] reads no row and enqueues
    nothing. *)
Theorem sweep_terminates (st : Store) (fuel : nat) :
  let M := length (buy_orders (orders st)) in
  exact_round_trip (orders st) ->
  NoDup (key <$> buy_orders (orders st)) ->
  jobs st = [None] ->
  (M < fuel)%nat ->
  length (run fuel st).1 = S M
  /\ jobs (run fuel st).2 = []
  /\ run fuel st = run (S M) st
  /\ (run fuel st).1 !! 0%nat = Some None
  /\ (forall k c, (run fuel st).1 !! k = Some c ->
        length (remaining c (orders st)) = (M - k)%nat
        /\ ((k < M)%nat ->
              exists o, select_buyOrders c (orders st) = [select_list o]
                /\ (run fuel st).1 !! S k = Some (Some (cursor_of o))
                /\ length (remaining (Some (cursor_of o)) (orders st))
                   = (M - S k)%nat)
        /\ (k = M -> select_buyOrders c (orders st) = []
                     /\ (run fuel st).1 !! S k = None)).
Proof.
  intros M Hexact Hnd Hjobs Hfuel.
  destruct (run_from M st None fuel Hexact Hnd Hjobs)
    as (Hl & Hj & _ & Hf & H0 & Hk);
    [by rewrite remaining_no_cursor|done|].
  split_and!; try done.
  intros k c Hc. destruct (Hk k c Hc) as [Hlen Hnext].
  split_and!; [done| |].
  - intros HkM.
    assert (Hne : remaining c (orders st) <> []).
    { intros E. rewrite E in Hlen. simpl in Hlen. lia. }
    destruct (select_some c (orders st) Hne) as (o & Hsel & _ & _).
    exists o. split; [done|]. split; [by apply Hnext|].
    by apply (Hk (S k)), Hnext.
  - intros ->. split.
    + apply select_none. apply length_zero_iff_nil. lia.
    + apply lookup_ge_None. lia.
Qed.

(** *** The sweep on any table *)

Lemma remaining_next_ids (cursor : option CursorInfo) (orders : list Order.t)
    (m : Order.t) (x : string) :
  comes_back m ->
  m ∈ remaining cursor orders ->
  (forall o, o ∈ remaining cursor orders -> row_le (key o) (key m)) ->
  x ∈ Order.id <$> remaining cursor orders
  <-> x = Order.id m \/ x ∈ Order.id <$> remaining (Some (cursor_of m)) orders.
Proof.
  intros Hback Hm Hmax. rewrite (remaining_next cursor orders m Hback Hm).
  rewrite !list_elem_of_fmap. split.
  - intros (o & -> & Ho).
    destruct (decide (key o = key m)) as [Heq|Hne].
    + left. by injection Heq.
    + right. exists o. split; [done|]. apply list_elem_of_filter.
      split; [|done]. apply row_lt_le_ne. split; [by apply Hmax|done].
  - intros [->|(o & -> & Ho)].
    + by exists m.
    + exists o. split; [done|]. by apply list_elem_of_filter in Ho as [_ ?].
Qed.

Lemma run_any (fuel : nat) :
  forall (st : Store) (cursor : option CursorInfo),
    exact_round_trip (orders st) ->
    jobs st = [cursor] ->
    (length (remaining cursor (orders st)) < fuel)%nat ->
    jobs (run fuel st).2 = []
    /\ (length (run fuel st).1 <= S (length (remaining cursor (orders st))))%nat
    /\ orders (run fuel st).2 = orders st
    /\ locks (run fuel st).2 = locks st
    /\ order_events (run fuel st).2 =
         filter (fun e => OrderEvent.order_id e
                          ∉ Order.id <$> remaining cursor (orders st))
                (order_events st).
Proof.
  induction fuel as [|fuel IH]; intros st cursor Hexact Hjobs Hfuel; [lia|].
  simpl. rewrite Hjobs.
  destruct (decide (remaining cursor (orders st) = [])) as [Hnil|Hne].
  - rewrite worker_none by (by apply select_none). simpl.
    assert (Hrun : run fuel (set_jobs [] st) = ([], set_jobs [] st))
      by (by destruct fuel).
    rewrite Hrun, Hnil. simpl. split_and!; try done; try lia.
    symmetry. apply filter_all. intros e _. apply not_elem_of_nil.
  - destruct (select_some cursor (orders st) Hne) as (m & Hsel & Hm & Hmax).
    rewrite (worker_some cursor (set_jobs [] st) m) by done. simpl.
    set (st1 := set_jobs [Some (cursor_of m)] _).
    pose proof (remaining_comes_back cursor (orders st) m Hexact Hm) as Hback.
    assert (Hless : (length (remaining (Some (cursor_of m)) (orders st))
                     < length (remaining cursor (orders st)))%nat).
    { rewrite (remaining_next cursor (orders st) m Hback Hm).
      apply length_filter_lt with m; [done|apply row_lt_irrefl]. }
    destruct (IH st1 (Some (cursor_of m))) as (Hj & Hl & Ho & Hk & He);
      [done|done|simpl; lia|].
    destruct (run fuel st1) as [handled st2]. simpl in *.
    split_and!; [done|lia|done|done|].
    rewrite He, list_filter_filter. apply list_filter_iff. intros e.
    rewrite (remaining_next_ids cursor (orders st) m _ Hback Hm Hmax). tauto.
Qed.

(** X14. For every orders table whose buy rows have a [created_at] that
    comes back from its epoch value, with or without rows that agree on
    [(created_at, id)], the sweep started by a job without cursor comes to
    an end within one job more than there are buy rows, and leaves the
    queue empty, the orders table and the locks as they were, and of the
    order events exactly those whose order is not a buy order. *)
Theorem sweep_deletes_buy_order_events (st : Store) (fuel : nat) :
  exact_round_trip (orders st) ->
  jobs st = [None] ->
  (length (buy_orders (orders st)) < fuel)%nat ->
  jobs (run fuel st).2 = []
  /\ (length (run fuel st).1 <= S (length (buy_orders (orders st))))%nat
  /\ orders (run fuel st).2 = orders st
  /\ locks (run fuel st).2 = locks st
  /\ order_events (run fuel st).2 =
       filter (fun e => OrderEvent.order_id e
                        ∉ Order.id <$> buy_orders (orders st))
              (order_events st).
Proof.
  intros Hexact Hjobs Hfuel. rewrite <- remaining_no_cursor in *.
  by apply run_any.
Qed.

(** *** The order of the sweep *)

Lemma remaining_keys_NoDup (cursor : option CursorInfo) (orders : list Order.t) :
  NoDup (key <$> buy_orders orders) -> NoDup (key <$> remaining cursor orders).
Proof.
  intros Hnd. rewrite remaining_of_buy_orders.
  eapply sublist_NoDup; [exact Hnd|]. apply fmap_sublist, sublist_filter.
Qed.

(** The rows left after the first row of the sorted rows are the other
    sorted rows. *)
Lemma sorted_remaining_next (cursor : option CursorInfo)
    (orders : list Order.t) (m : Order.t) (rest : list Order.t) :
  exact_round_trip orders ->
  NoDup (key <$> buy_orders orders) ->
  merge_sort created_at_id_desc (remaining cursor orders) = m :: rest ->
  merge_sort created_at_id_desc (remaining (Some (cursor_of m)) orders) = rest.
Proof.
  intros Hexact Hnd Hsorted.
  pose proof (StronglySorted_merge_sort created_at_id_desc
                (remaining cursor orders)) as Hs.
  pose proof (merge_sort_Permutation created_at_id_desc
                (remaining cursor orders)) as Hp.
  rewrite Hsorted in Hs, Hp.
  assert (Hm : m ∈ remaining cursor orders) by (rewrite <- Hp; left).
  pose proof (remaining_comes_back cursor orders m Hexact Hm) as Hback.
  pose proof (remaining_keys_NoDup cursor orders Hnd) as Hnd'.
  assert (Hnd'' : NoDup (key <$> m :: rest)) by (by rewrite Hp).
  rewrite fmap_cons in Hnd''. apply NoDup_cons in Hnd'' as [Hmrest _].
  apply StronglySorted_inv in Hs as [Hrest Hall]. rewrite Forall_forall in Hall.
  assert (Hperm : remaining (Some (cursor_of m)) orders ≡ₚ rest).
  { rewrite (remaining_next cursor orders m Hback Hm), <- Hp.
    rewrite filter_cons_False by apply row_lt_irrefl.
    rewrite filter_all; [done|].
    intros o Ho. apply row_lt_le_ne. split; [by apply Hall|].
    intros Heq. apply Hmrest. rewrite <- Heq. by apply list_elem_of_fmap_2. }
  apply (StronglySorted_unique_strong created_at_id_desc).
  - intros x1 x2 Hx1 Hx2 H12 H21.
    rewrite merge_sort_Permutation, Hperm in Hx1.
    apply (NoDup_fmap_eq key (remaining cursor orders)); try done.
    + rewrite <- Hp. by right.
    + rewrite <- Hp. by right.
    + by apply row_le_antisym.
  - apply StronglySorted_merge_sort; apply _.
  - done.
  - by rewrite merge_sort_Permutation.
Qed.

Lemma run_visits (n : nat) :
  forall (st : Store) (cursor : option CursorInfo) (fuel : nat),
    exact_round_trip (orders st) ->
    NoDup (key <$> buy_orders (orders st)) ->
    jobs st = [cursor] ->
    length (remaining cursor (orders st)) = n ->
    (n < fuel)%nat ->
    (run fuel st).1 =
      cursor :: ((fun o => Some (cursor_of o)) <$>
                   merge_sort created_at_id_desc (remaining cursor (orders st))).
Proof.
  induction n as [|n IH]; intros st cursor fuel Hexact Hnd Hjobs Hlen Hfuel;
    destruct fuel as [|fuel]; try lia; simpl; rewrite Hjobs.
  - apply length_zero_iff_nil in Hlen.
    rewrite worker_none by (by apply select_none). simpl.
    assert (Hrun : run fuel (set_jobs [] st) = ([], set_jobs [] st))
      by (by destruct fuel).
    by rewrite Hrun, Hlen.
  - assert (Hne : remaining cursor (orders st) <> [])
      by (intros E; by rewrite E in Hlen).
    destruct (select_some cursor (orders st) Hne) as (m & Hsel & Hm & Hmax).
    rewrite (worker_some cursor (set_jobs [] st) m) by done. simpl.
    set (st1 := set_jobs [Some (cursor_of m)] _).
    pose proof (remaining_comes_back cursor (orders st) m Hexact Hm) as Hback.
    pose proof (remaining_shrinks cursor (orders st) m Hback Hnd Hm Hmax)
      as Hshrink.
    specialize (IH st1 (Some (cursor_of m)) fuel).
    destruct (run fuel st1) as [handled st2]. simpl in *.
    rewrite IH; [|done|done|done|lia|lia].
    unfold select_buyOrders in Hsel.
    destruct (merge_sort created_at_id_desc (remaining cursor (orders st)))
      as [|m' rest] eqn:Hsorted; [done|].
    simpl in Hsel.
    assert (Heq : select_list m' = select_list m) by congruence.
    rewrite <- (select_list_cursor m' m Heq).
    assert (Hm' : m' ∈ remaining cursor (orders st)).
    { rewrite <- (merge_sort_Permutation created_at_id_desc), Hsorted. left. }
    rewrite (sorted_remaining_next cursor (orders st) m' rest Hexact Hnd Hsorted).
    reflexivity.
Qed.

(** X15. When the buy rows differ in [(created_at, id)] and each has a
    [created_at] that comes back from its epoch value, the jobs of the
    sweep are the job without cursor and then one job per buy row, with the
    cursors of the rows from the latest [(created_at, id)] down to the
    earliest: every buy row is read once, newest first. *)
Theorem sweep_reads_newest_first (st : Store) (fuel : nat) :
  exact_round_trip (orders st) ->
  NoDup (key <$> buy_orders (orders st)) ->
  jobs st = [None] ->
  (length (buy_orders (orders st)) < fuel)%nat ->
  (run fuel st).1 =
    None :: ((fun o => Some (cursor_of o)) <$>
               merge_sort created_at_id_desc (buy_orders (orders st)))
  /\ StronglySorted created_at_id_desc
       (merge_sort created_at_id_desc (buy_orders (orders st)))
  /\ merge_sort created_at_id_desc (buy_orders (orders st))
     ≡ₚ buy_orders (orders st).
Proof.
  intros Hexact Hnd Hjobs Hfuel. split_and!.
  - rewrite <- remaining_no_cursor.
    eapply run_visits; [done|done|done|reflexivity|].
    by rewrite remaining_no_cursor.
  - apply StronglySorted_merge_sort; apply _.
  - apply merge_sort_Permutation.
Qed.

(** *** One job, whatever its cursor *)


End Sweep.

(** *** The start-up lock *)

(** C9. The start-up code asks for the lock "remove-buy-order-events-queue-lock",
    the queue name followed by "-lock", for thirty days, before it enqueues
    the first job of the sweep: when the lock is free it is taken for that
    time and one job without cursor is enqueued; when it is held nothing is
    enqueued and nothing changes; and no error is raised either way. *)
Theorem bootstrap_takes_lock_or_skips (config : Config) (st : Store) :
  doBackgroundWork config = true ->
  let lock := "remove-buy-order-events-queue-lock" in
  let thirty_days := 30 * (24 * (60 * (60 * 1000))) in
  let st' := (bootstrap config st).1 in
  lock = QUEUE_NAME +:+ "-lock"
  /\ (bootstrap config st).2 = Ok tt
  /\ (is_Some (locks st !! lock) -> st' = st)
  /\ (locks st !! lock = None ->
        locks st' = <[lock := thirty_days]> (locks st)
        /\ jobs st' = jobs st ++ [None]
        /\ orders st' = orders st
        /\ order_events st' = order_events st)
  /\ (jobs st' <> jobs st ->
        locks st !! lock = None /\ locks st' !! lock = Some thirty_days).
Proof.
  intros Hbg. simpl. unfold bootstrap. rewrite Hbg.
  unfold try_catch, bind, redlock_acquire, addToQueue, modify, ret.
  change (QUEUE_NAME +:+ "-lock") with "remove-buy-order-events-queue-lock".
  change (60 * 60 * 24 * 30 * 1000) with 2592000000.
  change (30 * (24 * (60 * (60 * 1000)))) with 2592000000.
  split; [reflexivity|].
  case_decide as Hheld.
  - apply Exists_cons in Hheld as [Hheld|Hnil]; [|by apply Exists_nil in Hnil].
    simpl. split_and!; try done.
    intros Hnone. destruct Hheld as [v Hv]. congruence.
  - assert (Hfree : locks st !! "remove-buy-order-events-queue-lock" = None).
    { destruct (locks st !! "remove-buy-order-events-queue-lock") eqn:E; [|done].
      exfalso. apply Hheld. apply Exists_cons. left. rewrite E. by eexists. }
    simpl. split_and!; try done.
    + intros [v Hv]. congruence.
    + intros _. split; [done|]. apply lookup_insert_eq.
Qed.

Lemma bootstrap_held (config : Config) (st : Store) :
  is_Some (locks st !! "remove-buy-order-events-queue-lock") ->
  bootstrap config st = (st, Ok tt).
Proof.
  intros Hheld. unfold bootstrap. destruct (doBackgroundWork config); [|done].
  unfold try_catch, bind, redlock_acquire.
  change (QUEUE_NAME +:+ "-lock") with "remove-buy-order-events-queue-lock".
  rewrite decide_True; [done|]. apply Exists_cons. by left.
Qed.

Lemma bootstrap_free (config : Config) (st : Store) :
  doBackgroundWork config = true ->
  locks st !! "remove-buy-order-events-queue-lock" = None ->
  bootstrap config st =
    (set_jobs (jobs st ++ [None])
       (set_locks (<["remove-buy-order-events-queue-lock" := 2592000000]>
                     (locks st)) st),
     Ok tt).
Proof.
  intros Hbg Hfree. unfold bootstrap. rewrite Hbg.
  unfold try_catch, bind, redlock_acquire, addToQueue, modify.
  change (QUEUE_NAME +:+ "-lock") with "remove-buy-order-events-queue-lock".
  rewrite decide_False; [done|].
  intros Hheld. apply Exists_cons in Hheld as [Hheld|Hnil].
  - rewrite Hfree in Hheld. by destruct Hheld.
  - by apply Exists_nil in Hnil.
Qed.

(** X16. However many instances load the module one after the other, the
    sweep is started once: with the lock free at first, any positive number
    of start-ups leaves exactly one job more in the queue, the one without
    cursor, and the lock held; with the lock held at first, no number of
    start-ups changes anything. *)
Theorem sweep_started_once (config : Config) (st : Store) (n : nat) :
  doBackgroundWork config = true ->
  (locks st !! "remove-buy-order-events-queue-lock" = None ->
   (0 < n)%nat ->
   jobs (start_instances n config st) = jobs st ++ [None]
   /\ locks (start_instances n config st)
        !! "remove-buy-order-events-queue-lock" = Some 2592000000
   /\ orders (start_instances n config st) = orders st
   /\ order_events (start_instances n config st) = order_events st)
  /\ (is_Some (locks st !! "remove-buy-order-events-queue-lock") ->
      start_instances n config st = st).
Proof.
  intros Hbg.
  assert (Hheld : forall k st0,
            is_Some (locks st0 !! "remove-buy-order-events-queue-lock") ->
            start_instances k config st0 = st0).
  { induction k as [|k IH]; intros st0 Hl; [done|].
    simpl. rewrite bootstrap_held by done. by apply IH. }
  split; [|apply Hheld].
  intros Hfree Hn. destruct n as [|n]; [lia|].
  simpl. rewrite bootstrap_free by done. simpl.
  rewrite Hheld by (simpl; rewrite lookup_insert_eq; by eexists).
  simpl. split_and!; try done. apply lookup_insert_eq.
Qed.

(** Without [config.doBackgroundWork] the start-up code does nothing. *)
Lemma bootstrap_without_background_work (config : Config) (st : Store) :
  doBackgroundWork config = false -> bootstrap config st = (st, Ok tt).
Proof. unfold bootstrap. by intros ->. Qed.

End RemoveBuyOrderEventsProps.

Module ResyncAttributeCacheProps.
Import ResyncAttributeCache.

Lemma queue_add_present name data jobId delay (queue : gmap string Job) :
  is_Some (queue !! jobId) -> queue_add name data jobId delay queue = queue.
Proof. unfold queue_add. by intros [job ->]. Qed.

Lemma queue_add_lookup name data jobId delay (queue : gmap string Job) :
  is_Some (queue_add name data jobId delay queue !! jobId).
Proof.
  unfold queue_add. destruct (queue !! jobId) as [job|] eqn:E.
  - by rewrite E.
  - rewrite lookup_insert_eq. by eexists.
Qed.

(** C7. For every contract and token id, a second [addToQueue] for the pair
    while the job of the first is still in the queue changes nothing: the
    queue has exactly one job under the job id "contract:tokenId", and one
    job more than before the two calls when none was waiting under that id;
    that job carries the pair and the delay of the first call, sixty minutes
    when the delay is left out. *)
Theorem addToQueue_twice_one_item (contract tokenId : string)
    (delay1 delay2 : option Z) (queue : gmap string Job) :
  let token := contract +:+ ":" +:+ tokenId in
  let once := addToQueue contract tokenId delay1 queue in
  let twice := addToQueue contract tokenId delay2 once in
  twice = once
  /\ is_Some (twice !! token)
  /\ (forall jobId, jobId <> token -> twice !! jobId = queue !! jobId)
  /\ (queue !! token = None ->
        size twice = S (size queue)
        /\ twice !! token =
             Some {| name := token;
                     data := {| contract := contract; tokenId := tokenId |};
                     delay := default (60 * (60 * 1000)) delay1 |})
  /\ (queue = ∅ -> size twice = 1%nat)
  /\ (queue !! token = None -> delay1 = None ->
        delay <$> twice !! token = Some (60 * (60 * 1000))).
Proof.
  simpl. unfold addToQueue.
  set (token := contract +:+ ":" +:+ tokenId).
  set (data := {| contract := contract; tokenId := tokenId |}).
  assert (Htwice : queue_add token data token (default (60 * 60 * 1000) delay2)
            (queue_add token data token (default (60 * 60 * 1000) delay1) queue)
          = queue_add token data token (default (60 * 60 * 1000) delay1) queue)
    by apply queue_add_present, queue_add_lookup.
  rewrite Htwice.
  assert (Hfresh : queue !! token = None ->
            queue_add token data token (default (60 * 60 * 1000) delay1) queue =
            <[token := {| name := token; data := data;
                          delay := default (60 * 60 * 1000) delay1 |}]> queue).
  { unfold queue_add. by intros ->. }
  split_and!.
  - reflexivity.
  - apply queue_add_lookup.
  - intros jobId Hne. unfold queue_add.
    destruct (queue !! token); [done|]. by rewrite lookup_insert_ne.
  - intros Hnone. rewrite Hfresh by done.
    split; [by apply map_size_insert_None|]. by rewrite lookup_insert_eq.
  - intros ->. rewrite Hfresh by apply lookup_empty.
    by rewrite map_size_insert_None, map_size_empty by apply lookup_empty.
  - intros Hnone ->. rewrite Hfresh by done.
    by rewrite lookup_insert_eq.
Qed.

(** X18. Two pairs whose contract strings have no colon get the same job id
    only when they are the same pair; so enqueuing two different tokens, none
    of them waiting already, leaves two jobs more in the queue, each with
    its own pair. *)
Theorem different_tokens_different_jobs (contract1 tokenId1 contract2
    tokenId2 : string) (delay1 delay2 : option Z) (queue : gmap string Job) :
  ~ Wyvern.has_char ":" contract1 ->
  ~ Wyvern.has_char ":" contract2 ->
  (contract1, tokenId1) <> (contract2, tokenId2) ->
  queue !! (contract1 +:+ ":" +:+ tokenId1) = None ->
  queue !! (contract2 +:+ ":" +:+ tokenId2) = None ->
  let both :=
    addToQueue contract2 tokenId2 delay2
      (addToQueue contract1 tokenId1 delay1 queue) in
  contract1 +:+ ":" +:+ tokenId1 <> contract2 +:+ ":" +:+ tokenId2
  /\ size both = S (S (size queue))
  /\ data <$> both !! (contract1 +:+ ":" +:+ tokenId1)
     = Some {| contract := contract1; tokenId := tokenId1 |}
  /\ data <$> both !! (contract2 +:+ ":" +:+ tokenId2)
     = Some {| contract := contract2; tokenId := tokenId2 |}.
Proof.
  intros Hno1 Hno2 Hdiff Hfree1 Hfree2 both.
  assert (Hne : contract1 +:+ ":" +:+ tokenId1 <> contract2 +:+ ":" +:+ tokenId2).
  { intros Heq. simpl in Heq.
    apply WyvernProps.app_char_split in Heq as [-> ->]; done. }
  unfold both, addToQueue, queue_add. rewrite Hfree1.
  rewrite lookup_insert_ne, Hfree2 by done.
  split; [done|]. split_and!.
  - rewrite !map_size_insert_None; [done|done|].
    by rewrite lookup_insert_ne.
  - by rewrite lookup_insert_ne, lookup_insert_eq by done.
  - by rewrite lookup_insert_eq.
Qed.

End ResyncAttributeCacheProps.

(** * Examples *)

Module Examples.
Import Samples.

(** ** Bulk-cancel nonces *)

(** On chain 4 the three nonces 3, 8 and 5 recorded for the maker under
    "wyvern-v2.3" give 9, one more than the largest of them. *)
Lemma getMinNonce_rinkeby_example :
  Helpers.recorded sample_toBuffer sample_bulk_cancel_events "wyvern-v2.3" "0xAA01"
    = [3; 8; 5]
  /\ exists m,
       Helpers.is_maximum m [3; 8; 5]
       /\ Helpers.getMinNonce sample_toBuffer rinkeby sample_bulk_cancel_events
            "wyvern-v2.3" "0xAA01" = m + 1.
Proof.
  split; [vm_compute; reflexivity|].
  pose proof (HelpersProps.getMinNonce_maximum_with_quirk sample_toBuffer rinkeby
                sample_bulk_cancel_events "wyvern-v2.3" "0xAA01") as Hspec.
  change (Helpers.recorded sample_toBuffer sample_bulk_cancel_events
            "wyvern-v2.3" "0xAA01") with [3; 8; 5] in Hspec.
  destruct Hspec as (m & Hmax & _ & Hquirk).
  exists m. split; [exact Hmax|].
  apply Hquirk. split; reflexivity.
Defined.

Example getMinNonce_values :
  Helpers.getMinNonce sample_toBuffer rinkeby sample_bulk_cancel_events
    "wyvern-v2.3" "0xAA01" = 9
  /\ Helpers.getMinNonce sample_toBuffer mainnet sample_bulk_cancel_events
       "wyvern-v2.3" "0xAA01" = 8
  /\ Helpers.getMinNonce sample_toBuffer rinkeby sample_bulk_cancel_events
       "seaport" "0xAA01" = 11
  /\ Helpers.getMinNonce sample_toBuffer rinkeby sample_bulk_cancel_events
       "wyvern-v2.3" "0xcc03" = 0.
Proof. vm_compute. tauto. Qed.

(** ** The callbacks on sample batches *)

(** With backfill on, a match and a nonce increment leave the fill event in
    the ledger and nothing else. *)
Lemma backfill_example :
  let st' := (Wyvern.syncCallback (H := sample_env true) mainnet
                [fill_log; nonce_log] true sample_store).1 in
  length (Wyvern.fill_events st') = 1%nat
  /\ Wyvern.orders st' = Wyvern.orders sample_store
  /\ Wyvern.orders_update_by_hash_queue st' = []
  /\ Wyvern.fills_handle_queue st' = [].
Proof.
  destruct (WyvernProps.ledger_appended_whatever_backfill (H := sample_env true)
              mainnet [fill_log; nonce_log] true sample_store)
    as (_ & Hfill & Hbackfill).
  destruct (Hbackfill eq_refl) as (Horders & Hqueue & Hfills & _).
  cbv zeta. split; [rewrite Hfill; vm_compute; reflexivity|].
  split; [exact Horders|]. split; [exact Hqueue|exact Hfills].
Defined.

(** One log that does not decode among nine nonce increments, with backfill
    off and orders accepted: nine bulk-cancel events are derived, and the
    call rejects with the error of the database. *)
Lemma ten_logs_example :
  acceptOrders mainnet = true
  /\ Wyvern.returnAccepted (Env := increments_env) = false
  /\ length (filter (Wyvern.malformed (H := increments_env)) ten_increments)
     = 1%nat
  /\ length (filter (Wyvern.well_formed (H := increments_env)) ten_increments)
     = 9%nat
  /\ length (Wyvern.bulkCancelEvents
               (Wyvern.parsed (H := increments_env) ten_increments)) = 9%nat
  /\ Wyvern.domain_events (Wyvern.parsed (H := increments_env) ten_increments)
     = 9%nat
  /\ (Wyvern.syncCallback (H := increments_env) mainnet ten_increments false
        sample_store).2 = Throw SqlError.
Proof.
  assert (Hone : length (filter (Wyvern.malformed (H := increments_env))
                           ten_increments) = 1%nat) by (vm_compute; reflexivity).
  assert (Hnine : length (filter (Wyvern.well_formed (H := increments_env))
                            ten_increments) = 9%nat) by (vm_compute; reflexivity).
  assert (Hbulk : Wyvern.bulkCancelEvents
                    (Wyvern.parsed (H := increments_env) ten_increments) <> [])
    by (vm_compute; discriminate).
  destruct (WyvernProps.malformed_logs_skipped_but_call_rejects
              (H := increments_env) mainnet ten_increments false sample_store
              eq_refl)
    as (_ & _ & _ & _ & _ & _ & Hcount & _ & _ & _ & Hthrow).
  split; [reflexivity|]. split; [reflexivity|].
  split; [exact Hone|]. split; [exact Hnine|].
  split; [vm_compute; reflexivity|].
  split; [exact (Hcount Hone Hnine)|exact (Hthrow eq_refl eq_refl Hbulk)].
Defined.

(** A nonce increment to 5 for maker "0xaa01", with backfill off and orders
    accepted: the valid order "0x01" of that maker, of nonce 1, stays
    valid, no item is queued, and the call rejects. *)
Lemma bulk_cancel_example :
  let ev := {| Wyvern.BulkCancelEvent.context := "0xf1-2";
               Wyvern.BulkCancelEvent.maker := "0xaa01";
               Wyvern.BulkCancelEvent.newNonce := 5 |} in
  let o := sample_order "0x01" "0xaa01" 1 "valid" in
  let st' := (Wyvern.syncCallback (H := sample_env false) mainnet [nonce_log]
                false sample_store).1 in
  acceptOrders mainnet = true
  /\ Wyvern.returnAccepted (Env := sample_env false) = false
  /\ Wyvern.bulkCancelEvents (Wyvern.parsed (H := sample_env false) [nonce_log])
     = [ev]
  /\ o ∈ Wyvern.orders sample_store
  /\ Wyvern.where_clause "0xaa01" 5 o
  /\ o ∈ Wyvern.orders st'
  /\ Wyvern.Order.status <$> Wyvern.orders st'
     = ["valid"; "valid"; "filled"; "no-balance"; "no-balance"]
  /\ Wyvern.orders_update_by_hash_queue st' = []
  /\ (Wyvern.syncCallback (H := sample_env false) mainnet [nonce_log]
        false sample_store).2 = Throw SqlError.
Proof.
  intros ev o st'.
  assert (Hbulk : Wyvern.bulkCancelEvents
                    (Wyvern.parsed (H := sample_env false) [nonce_log]) = [ev])
    by (vm_compute; reflexivity).
  assert (Hne : Wyvern.bulkCancelEvents
                  (Wyvern.parsed (H := sample_env false) [nonce_log]) <> [])
    by (rewrite Hbulk; discriminate).
  assert (Ho : o ∈ Wyvern.orders sample_store) by left.
  assert (Hhit : Wyvern.where_clause "0xaa01" 5 o).
  { unfold Wyvern.where_clause. simpl. split_and!; auto. lia. }
  destruct (WyvernProps.bulk_cancel_update_rejected (H := sample_env false)
              mainnet [nonce_log] sample_store eq_refl eq_refl Hne)
    as (Hthrow & Horders & Hqueue & _ & Hkept).
  destruct (Hkept ev o) as [Hin _]; [rewrite Hbulk; left|exact Ho|exact Hhit|].
  split; [reflexivity|]. split; [reflexivity|]. split; [exact Hbulk|].
  split; [exact Ho|]. split; [exact Hhit|]. split; [exact Hin|].
  split; [unfold st'; rewrite Horders; vm_compute; reflexivity|].
  split; [unfold st'; rewrite Hqueue; vm_compute; reflexivity|exact Hthrow].
Defined.

(** A match between a nonce increment and a log that does not decode. *)
Lemma fill_log_example :
  let bp := {| Wyvern.address := "0xe0"; Wyvern.block := 7;
               Wyvern.blockHash := "0xb10c"; Wyvern.txHash := "0xf1";
               Wyvern.logIndex := 1; Wyvern.batchIndex := 1;
               Wyvern.timestamp := 0 |} in
  let st' := (Wyvern.syncCallback (H := sample_env true) mainnet
                ([nonce_log] ++ fill_log :: [broken_log]) false sample_store).1 in
  acceptOrders mainnet = true
  /\ sample_parseEvent fill_log = Some bp
  /\ Wyvern.topics fill_log !! 0%nat = Some (sample_topic "OrdersMatched")
  /\ sample_topic "OrdersMatched" <> sample_topic "OrderCancelled"
  /\ sample_parseLog fill_log
     = Some (Wyvern.OrdersMatched "0xB1" "0x5E" "0xAA01" "0xBB02" 100 "0x00")
  /\ Wyvern.fillEvents (Wyvern.contribution (H := sample_env true) fill_log)
     = [ {| Wyvern.FillEvent.buyHash := "0xb1"; Wyvern.FillEvent.sellHash := "0x5e";
            Wyvern.FillEvent.maker := "0xaa01"; Wyvern.FillEvent.taker := "0xbb02";
            Wyvern.FillEvent.price := 100; Wyvern.FillEvent.baseParams := bp |} ]
  /\ Wyvern.hashInfos (Wyvern.contribution (H := sample_env true) fill_log)
     = [ {| Wyvern.HashInfo.context := "0xf1-1"; Wyvern.HashInfo.hash := "0xb1" |};
         {| Wyvern.HashInfo.context := "0xf1-1"; Wyvern.HashInfo.hash := "0x5e" |} ]
  /\ Wyvern.fills_handle_queue st'
     = [ {| Wyvern.FillInfo.context := "0xf1-1"; Wyvern.FillInfo.buyHash := "0xb1";
            Wyvern.FillInfo.sellHash := "0x5e"; Wyvern.FillInfo.block := 7 |} ].
Proof.
  intros bp st'.
  assert (Hdistinct : sample_topic "OrdersMatched" <> sample_topic "OrderCancelled")
    by (vm_compute; discriminate).
  destruct (WyvernProps.fill_log_yields (H := sample_env true) mainnet
              [nonce_log] [broken_log] fill_log sample_store bp
              "0xB1" "0x5E" "0xAA01" "0xBB02" 100 "0x00"
              eq_refl eq_refl eq_refl Hdistinct eq_refl)
    as (Hcontribution & _ & _ & Hfills & _).
  split; [reflexivity|]. split; [reflexivity|]. split; [reflexivity|].
  split; [exact Hdistinct|]. split; [reflexivity|].
  rewrite Hcontribution. split; [reflexivity|]. split; [reflexivity|].
  unfold st'. rewrite Hfills. vm_compute. reflexivity.
Defined.

(** C8 as stated fails when [config.acceptOrders] is off: the batch of the
    one well-formed match, handled with backfill off, has its fill event in
    the ledger and its three work items in the arrays, and no work item in
    either queue. *)
Lemma fill_log_not_accepting_counterexample :
  let st' := (Wyvern.syncCallback (H := sample_env true) mainnet_not_accepting
                [fill_log] false sample_store).1 in
  Wyvern.well_formed (H := sample_env true) fill_log
  /\ length (Wyvern.fill_events st') = 1%nat
  /\ length (Wyvern.hashInfos (Wyvern.parsed (H := sample_env true) [fill_log]))
     = 2%nat
  /\ length (Wyvern.fillInfos (Wyvern.parsed (H := sample_env true) [fill_log]))
     = 1%nat
  /\ Wyvern.orders_update_by_hash_queue st' = []
  /\ Wyvern.fills_handle_queue st' = []
  /\ ~ (length (Wyvern.orders_update_by_hash_queue st') = 2%nat
        /\ length (Wyvern.fills_handle_queue st') = 1%nat).
Proof.
  cbv zeta. split.
  { split; [vm_compute; reflexivity|]. right. left. reflexivity. }
  split_and!; try (vm_compute; reflexivity).
  intros [Htwo _]. vm_compute in Htwo. discriminate.
Qed.

(** Upper-case letters in the raw logs do not reach the arrays: the buy
    hash "0xB1" of the match is there as "0xb1". *)
Lemma lowercase_example :
  "0xb1" ∈ Wyvern.emitted_strings
             (Wyvern.parsed (H := sample_env false)
                (fill_log :: nonce_log :: ten_logs))
  /\ exists log args raw,
       log ∈ fill_log :: nonce_log :: ten_logs
       /\ sample_parseLog log = Some args
       /\ raw ∈ Wyvern.decoded_strings args
       /\ Wyvern.lowered raw "0xb1"
       /\ String.length "0xb1" = String.length raw.
Proof.
  assert (Hin : "0xb1" ∈ Wyvern.emitted_strings
                  (Wyvern.parsed (H := sample_env false)
                     (fill_log :: nonce_log :: ten_logs)))
    by (vm_compute; set_solver).
  split; [exact Hin|].
  destruct (WyvernProps.emitted_hashes_and_addresses_lowercase
              (H := sample_env false) mainnet
              (fill_log :: nonce_log :: ten_logs) false sample_store)
    as (Hfrom & _).
  destruct (Hfrom "0xb1" Hin) as (log & args & raw & Hlog & Hargs & Hraw & Hlow & Hlen & _).
  exists log, args, raw. split_and!; assumption.
Defined.

(** The block "0xb10c" is orphaned: its cancel event and its fill event go,
    the cancel event of the other block stays, and the three orders they
    refer to get a work item each, after the item that was queued. *)
Lemma fixCallback_example :
  let st' := (Wyvern.fixCallback sample_reorgContext "0xb10c" ledger_store).1 in
  Wyvern.referenced_hashes "0xb10c" ledger_store = ["0xc0de3"; "0xb1"; "0x5e"]
  /\ Wyvern.CancelEvent.orderHash ∘ snd <$> Wyvern.cancel_events st' = ["0xc0de4"]
  /\ Wyvern.fill_events st' = []
  /\ Wyvern.HashInfo.hash <$> Wyvern.orders_update_by_hash_queue st'
     = ["0x07"; "0xc0de3"; "0xb1"; "0x5e"]
  /\ Wyvern.orders st' = Wyvern.orders ledger_store.
Proof.
  destruct (WyvernProps.fixCallback_deletes_and_reenqueues sample_reorgContext
              "0xb10c" ledger_store)
    as (_ & _ & _ & _ & (items & Hqueue & Hitems) & _ & Horders & _).
  cbv zeta. split; [vm_compute; reflexivity|].
  split; [vm_compute; reflexivity|]. split; [vm_compute; reflexivity|].
  split; [|exact Horders].
  rewrite Hqueue, fmap_app, Hitems. vm_compute. reflexivity.
Defined.

(** ** The sweep *)

(** Three buy rows created in 2023, a microsecond apart: every timestamp
    comes back from its epoch value, and the sweep has four jobs, the last
    of which reads nothing. *)
Lemma sweep_example :
  RemoveBuyOrderEvents.exact_round_trip (H := pg_timestamps)
    (RemoveBuyOrderEvents.orders year_2023_store)
  /\ NoDup (RemoveBuyOrderEvents.key <$>
              RemoveBuyOrderEvents.buy_orders
                (RemoveBuyOrderEvents.orders year_2023_store))
  /\ RemoveBuyOrderEvents.jobs year_2023_store = [None]
  /\ (length (RemoveBuyOrderEvents.buy_orders
                (RemoveBuyOrderEvents.orders year_2023_store)) < 10)%nat
  /\ length (RemoveBuyOrderEvents.run (H := pg_timestamps) 10 year_2023_store).1
     = 4%nat
  /\ RemoveBuyOrderEvents.jobs
       (RemoveBuyOrderEvents.run (H := pg_timestamps) 10 year_2023_store).2 = [].
Proof.
  assert (Hexact : RemoveBuyOrderEvents.exact_round_trip (H := pg_timestamps)
                     (RemoveBuyOrderEvents.orders year_2023_store))
    by (apply (bool_decide_unpack _); vm_compute; exact I).
  assert (Hkeys : NoDup (RemoveBuyOrderEvents.key <$>
            RemoveBuyOrderEvents.buy_orders
              (RemoveBuyOrderEvents.orders year_2023_store)))
    by (apply (bool_decide_unpack _); vm_compute; exact I).
  assert (Hfuel : (length (RemoveBuyOrderEvents.buy_orders
                     (RemoveBuyOrderEvents.orders year_2023_store)) < 10)%nat)
    by (vm_compute; lia).
  destruct (RemoveBuyOrderEventsProps.sweep_terminates (H := pg_timestamps)
              year_2023_store 10 Hexact Hkeys eq_refl Hfuel)
    as (Hlength & Hjobs & _).
  split; [exact Hexact|]. split; [exact Hkeys|]. split; [reflexivity|].
  split; [exact Hfuel|]. split; [exact Hlength|exact Hjobs].
Defined.

(** C6 as stated fails on a table whose timestamps do not come back from
    their epoch values.  The three buy rows of the first of January 2500
    differ in [(created_at, id)]; the row "0x02", created at second
    16725225600.000003, gives a cursor that [to_timestamp] reads as second
    16725225600.000004, so the row is below its own cursor: the third job
    and every job after it read the row "0x02" again, the job number 3,
    which should find no row, among them; after ten jobs the queue still
    holds a job, and the row "0x01" has never been read. *)
Lemma sweep_year_2500_counterexample :
  let st := year_2500_store in
  let cursor_0x02 :=
    {| RemoveBuyOrderEvents.id := "0x02";
       RemoveBuyOrderEvents.createdAt := Qmake 16725225600000003 1000000 |} in
  let handled := (RemoveBuyOrderEvents.run (H := pg_timestamps) 10 st).1 in
  length (RemoveBuyOrderEvents.buy_orders (RemoveBuyOrderEvents.orders st)) = 3%nat
  /\ NoDup (RemoveBuyOrderEvents.key <$>
              RemoveBuyOrderEvents.buy_orders (RemoveBuyOrderEvents.orders st))
  /\ RemoveBuyOrderEvents.jobs st = [None]
  /\ pg_to_timestamp (pg_extract_epoch 16725225600000003) = 16725225600000004
  /\ handled !! 2%nat = Some (Some cursor_0x02)
  /\ handled !! 3%nat = Some (Some cursor_0x02)
  /\ RemoveBuyOrderEvents.BuyOrder.id <$>
       RemoveBuyOrderEvents.select_buyOrders (H := pg_timestamps)
         (Some cursor_0x02) (RemoveBuyOrderEvents.orders st) = ["0x02"]
  /\ length handled = 10%nat
  /\ RemoveBuyOrderEvents.jobs
       (RemoveBuyOrderEvents.run (H := pg_timestamps) 10 st).2
     = [Some cursor_0x02]
  /\ ~ (length handled = 4%nat
        /\ RemoveBuyOrderEvents.jobs
             (RemoveBuyOrderEvents.run (H := pg_timestamps) 10 st).2 = []).
Proof.
  cbv zeta.
  split; [vm_compute; reflexivity|].
  split; [apply (bool_decide_unpack _); vm_compute; exact I|].
  split; [reflexivity|].
  split; [vm_compute; reflexivity|].
  split; [vm_compute; reflexivity|].
  split; [vm_compute; reflexivity|].
  split; [vm_compute; reflexivity|].
  split; [vm_compute; reflexivity|].
  split; [vm_compute; reflexivity|].
  intros [Hfour _]. vm_compute in Hfour. discriminate.
Qed.

(** The first instance takes the lock and enqueues the first job; an
    instance that starts after it enqueues nothing. *)
Lemma bootstrap_example :
  let first := (RemoveBuyOrderEvents.bootstrap mainnet idle_store).1 in
  let second := (RemoveBuyOrderEvents.bootstrap mainnet first).1 in
  doBackgroundWork mainnet = true
  /\ RemoveBuyOrderEvents.locks idle_store
       !! "remove-buy-order-events-queue-lock" = None
  /\ RemoveBuyOrderEvents.jobs first = [None]
  /\ RemoveBuyOrderEvents.locks first !! "remove-buy-order-events-queue-lock"
     = Some 2592000000
  /\ second = first
  /\ (RemoveBuyOrderEvents.bootstrap mainnet first).2 = Ok tt.
Proof.
  intros first second.
  assert (Hfree : RemoveBuyOrderEvents.locks idle_store
                    !! "remove-buy-order-events-queue-lock" = None)
    by apply lookup_empty.
  destruct (RemoveBuyOrderEventsProps.bootstrap_takes_lock_or_skips mainnet
              idle_store eq_refl) as (_ & _ & _ & Htaken & _).
  destruct (Htaken Hfree) as (Hlocks & Hjobs & _).
  assert (Hheld : RemoveBuyOrderEvents.locks first
                    !! "remove-buy-order-events-queue-lock" = Some 2592000000).
  { unfold first. rewrite Hlocks. apply lookup_insert_eq. }
  destruct (RemoveBuyOrderEventsProps.bootstrap_takes_lock_or_skips mainnet
              first eq_refl) as (_ & Hok & Hskip & _).
  split; [reflexivity|]. split; [exact Hfree|]. split; [exact Hjobs|].
  split; [exact Hheld|]. split; [|exact Hok].
  apply Hskip. rewrite Hheld. by eexists.
Defined.

(** ** The attribute resync queue *)

Lemma resync_example :
  let twice :=
    ResyncAttributeCache.addToQueue "0xc1" "42" None
      (ResyncAttributeCache.addToQueue "0xc1" "42" None ∅) in
  (∅ : gmap string ResyncAttributeCache.Job) !! "0xc1:42" = None
  /\ size twice = 1%nat
  /\ ResyncAttributeCache.delay <$> twice !! "0xc1:42" = Some 3600000.
Proof.
  intros twice.
  assert (Hfree : (∅ : gmap string ResyncAttributeCache.Job) !! "0xc1:42" = None)
    by apply lookup_empty.
  destruct (ResyncAttributeCacheProps.addToQueue_twice_one_item "0xc1" "42"
              None None ∅) as (_ & _ & _ & _ & Hsize & Hdelay).
  split; [exact Hfree|]. split; [exact (Hsize eq_refl)|].
  exact (Hdelay Hfree eq_refl).
Defined.

End Examples.

(** * Further examples *)

Module MoreExamples.
Import Samples.

Ltac no_such_char :=
  let H := fresh in
  simpl; intros H; repeat (destruct H as [H|H]; [discriminate H|]); exact H.

(** ** Queries *)

(** The table read backwards, and with rows of another maker added. *)
Lemma getMinNonce_rearranged_example :
  sample_bulk_cancel_events ≡ₚ reverse sample_bulk_cancel_events
  /\ Forall (fun r => ~ Helpers.selected sample_toBuffer "wyvern-v2.3" "0xAA01" r)
       [sample_bulk_cancel "0xdd04" 99]
  /\ Helpers.getMinNonce sample_toBuffer rinkeby
       (reverse sample_bulk_cancel_events) "wyvern-v2.3" "0xAA01" = 9
  /\ Helpers.getMinNonce sample_toBuffer rinkeby
       (sample_bulk_cancel_events ++ [sample_bulk_cancel "0xdd04" 99])
       "wyvern-v2.3" "0xAA01" = 9.
Proof.
  assert (Hperm : sample_bulk_cancel_events ≡ₚ reverse sample_bulk_cancel_events)
    by (symmetry; apply reverse_Permutation).
  assert (Hothers :
    Forall (fun r => ~ Helpers.selected sample_toBuffer "wyvern-v2.3" "0xAA01" r)
      [sample_bulk_cancel "0xdd04" 99]).
  { constructor; [|constructor]. intros [_ Hmaker]. vm_compute in Hmaker.
    discriminate. }
  destruct (HelpersProps.getMinNonce_reads_only_the_pair sample_toBuffer rinkeby
              sample_bulk_cancel_events "wyvern-v2.3" "0xAA01") as [Hany Hadd].
  split; [exact Hperm|]. split; [exact Hothers|].
  split.
  - rewrite (Hany _ Hperm). vm_compute. reflexivity.
  - rewrite (Hadd _ Hothers). vm_compute. reflexivity.
Defined.

Lemma getMinNonce_grows_example :
  Forall (fun n => 0 <= n)
    (Helpers.recorded sample_toBuffer [sample_bulk_cancel "0xaa01" 12]
       "wyvern-v2.3" "0xAA01")
  /\ Helpers.getMinNonce sample_toBuffer mainnet sample_bulk_cancel_events
       "wyvern-v2.3" "0xAA01"
     <= Helpers.getMinNonce sample_toBuffer mainnet
          (sample_bulk_cancel_events ++ [sample_bulk_cancel "0xaa01" 12])
          "wyvern-v2.3" "0xAA01".
Proof.
  assert (Hpos : Forall (fun n => 0 <= n)
            (Helpers.recorded sample_toBuffer [sample_bulk_cancel "0xaa01" 12]
               "wyvern-v2.3" "0xAA01")).
  { change (Forall (fun n => 0 <= n) [12]). constructor; [lia|constructor]. }
  split; [exact Hpos|].
  exact (HelpersProps.getMinNonce_never_decreases sample_toBuffer mainnet
           sample_bulk_cancel_events [sample_bulk_cancel "0xaa01" 12]
           "wyvern-v2.3" "0xAA01" Hpos).
Defined.

(** The owner approved the operator in block 10 and revoked in block 14. *)
Lemma getNftApproval_example :
  exists r,
    Helpers.latest r
      (Helpers.approvals sample_toBuffer sample_approvals "0xc1" "0xaa01" "0xee")
    /\ Helpers.getNftApproval sample_toBuffer sample_approvals
         "0xc1" "0xaa01" "0xee" = Ok (Helpers.NftApprovalEvent.approved r).
Proof.
  pose proof (HelpersProps.getNftApproval_latest_or_false sample_toBuffer
                sample_approvals "0xc1" "0xaa01" "0xee") as Hspec.
  change (Helpers.approvals sample_toBuffer sample_approvals "0xc1" "0xaa01" "0xee")
    with [sample_approval "0xaa01" "0xee" true 10;
          sample_approval "0xaa01" "0xee" false 14] in Hspec.
  exact Hspec.
Defined.

(** A new approval in block 20, put at the head of the table. *)
Lemma getNftApproval_override_example :
  let e := sample_approval "0xaa01" "0xee" true 20 in
  Helpers.approval_of sample_toBuffer "0xc1" "0xaa01" "0xee" e
  /\ Helpers.getNftApproval sample_toBuffer sample_approvals
       "0xc1" "0xaa01" "0xee" = Ok false
  /\ Helpers.getNftApproval sample_toBuffer ([] ++ e :: sample_approvals)
       "0xc1" "0xaa01" "0xee" = Ok true.
Proof.
  intros e.
  assert (He : Helpers.approval_of sample_toBuffer "0xc1" "0xaa01" "0xee" e)
    by (by repeat split).
  assert (Hlater : forall r,
    r ∈ Helpers.approvals sample_toBuffer ([] ++ sample_approvals)
          "0xc1" "0xaa01" "0xee" ->
    Helpers.NftApprovalEvent.block r < Helpers.NftApprovalEvent.block e).
  { change (Helpers.approvals sample_toBuffer ([] ++ sample_approvals)
              "0xc1" "0xaa01" "0xee")
      with [sample_approval "0xaa01" "0xee" true 10;
            sample_approval "0xaa01" "0xee" false 14].
    intros r Hr.
    repeat (apply elem_of_cons in Hr as [->|Hr]; [simpl; lia|]).
    by apply elem_of_nil in Hr. }
  split; [exact He|]. split; [vm_compute; reflexivity|].
  exact (HelpersProps.getNftApproval_later_event_wins sample_toBuffer
           [] sample_approvals e "0xc1" "0xaa01" "0xee" He Hlater).
Defined.

Lemma getQuantityFilled_example :
  Forall (fun r => Helpers.FillEvent2.order_id r <> "0x01") [sample_fill "0x02" 9]
  /\ Helpers.getQuantityFilled sample_fills "0x01" = Ok 5
  /\ Helpers.getQuantityFilled (sample_fills ++ [sample_fill "0x02" 9]) "0x01"
     = Ok 5.
Proof.
  assert (Hother : Forall (fun r => Helpers.FillEvent2.order_id r <> "0x01")
                     [sample_fill "0x02" 9])
    by (constructor; [discriminate|constructor]).
  destruct (HelpersProps.getQuantityFilled_adds_up sample_fills
              [sample_fill "0x02" 9] "0x01")
    as (before & added & Hbefore & _ & Hboth & Hsum & Hzero & _).
  split; [exact Hother|]. split; [vm_compute; reflexivity|].
  rewrite Hboth, (Hzero Hother), Hsum. vm_compute. reflexivity.
Defined.

(** The order "0x02" was cancelled twice. *)
Lemma isOrderCancelled_twice_example :
  (2 <= length (filter (fun r => Helpers.CancelEvent.order_id r = "0x02")
                  sample_cancels))%nat
  /\ Helpers.isOrderCancelled sample_cancels "0x02" = Throw SqlError.
Proof.
  assert (Htwo : (2 <= length (filter
                      (fun r => Helpers.CancelEvent.order_id r = "0x02")
                      sample_cancels))%nat) by (vm_compute; lia).
  destruct (HelpersProps.isOrderCancelled_by_count sample_cancels "0x02")
    as (_ & _ & Hthrow).
  split; [exact Htwo|]. by apply Hthrow.
Defined.

Lemma balances_example :
  NoDup ((fun r => (Helpers.FtBalance.contract r, Helpers.FtBalance.owner r))
           <$> sample_ft_balances)
  /\ NoDup ((fun r => (Helpers.NftBalance.contract r, Helpers.NftBalance.token_id r,
                       Helpers.NftBalance.owner r)) <$> sample_nft_balances)
  /\ Helpers.getFtBalance sample_toBuffer sample_ft_balances "0xC0" "0xBB02" = Ok 70
  /\ Helpers.getNftBalance sample_toBuffer sample_nft_balances "0xc1" 44 "0xaa01"
     = Ok 0.
Proof.
  assert (Hft : NoDup ((fun r => (Helpers.FtBalance.contract r,
                                  Helpers.FtBalance.owner r))
                         <$> sample_ft_balances))
    by (apply (bool_decide_unpack _); vm_compute; exact I).
  assert (Hnft : NoDup ((fun r => (Helpers.NftBalance.contract r,
                                   Helpers.NftBalance.token_id r,
                                   Helpers.NftBalance.owner r))
                          <$> sample_nft_balances))
    by (apply (bool_decide_unpack _); vm_compute; exact I).
  destruct (HelpersProps.balances_under_key sample_toBuffer sample_ft_balances
              sample_nft_balances "0xC0" "0xBB02" 42 Hft Hnft)
    as (Hfound & _ & _ & _).
  destruct (HelpersProps.balances_under_key sample_toBuffer sample_ft_balances
              sample_nft_balances "0xc1" "0xaa01" 44 Hft Hnft)
    as (_ & _ & _ & Hnone).
  split; [exact Hft|]. split; [exact Hnft|]. split.
  - apply (Hfound {| Helpers.FtBalance.contract := sample_toBuffer "0xc0";
                     Helpers.FtBalance.owner := sample_toBuffer "0xbb02";
                     Helpers.FtBalance.amount := 70 |});
      [right; left|vm_compute; reflexivity|vm_compute; reflexivity].
  - apply Hnone. intros r Hr (_ & Htoken & _).
    unfold sample_nft_balances in Hr.
    repeat (apply elem_of_cons in Hr as [->|Hr]; [discriminate Htoken|]).
    by apply elem_of_nil in Hr.
Defined.

(** ** The callbacks *)

Lemma other_topics_example :
  Forall (fun log => ~ Wyvern.known_topic (H := sample_env true) log)
    [transfer_log; sample_log "Approval" 0]
  /\ Wyvern.syncCallback (H := sample_env true) mainnet
       [transfer_log; sample_log "Approval" 0] false sample_store
     = (sample_store, Ok tt).
Proof.
  assert (Hother : Forall (fun log => ~ Wyvern.known_topic (H := sample_env true) log)
                     [transfer_log; sample_log "Approval" 0]).
  { repeat constructor; intros [Ht|[Ht|Ht]]; vm_compute in Ht; discriminate. }
  split; [exact Hother|].
  exact (WyvernProps.other_topics_change_nothing (H := sample_env true) mainnet
           [transfer_log; sample_log "Approval" 0] false sample_store Hother).
Defined.

Lemma orders_only_cancelled_example :
  Forall2 Wyvern.evolves (Wyvern.orders sample_store)
    (Wyvern.orders (Wyvern.syncCallback (H := sample_env true) mainnet
                      mixed_logs false sample_store).1).
Proof.
  exact (WyvernProps.orders_only_ever_cancelled (H := sample_env true) mainnet
           mixed_logs false sample_store).
Defined.

(** A cancellation and a match first, then a nonce increment and a
    cancellation: the two calls leave what one call on the four logs
    leaves, and end as it ends. *)
Lemma batch_in_two_parts_example :
  let first := [sample_log "OrderCancelled" 3; fill_log] in
  let second := [nonce_log; sample_log "OrderCancelled" 4] in
  Wyvern.bulkCancelEvents (Wyvern.parsed (H := sample_env false) first) = []
  /\ (Wyvern.syncCallback (H := sample_env false) mainnet first false
        sample_store).2 = Ok tt
  /\ Wyvern.syncCallback (H := sample_env false) mainnet second false
       (Wyvern.syncCallback (H := sample_env false) mainnet first false
          sample_store).1
     = Wyvern.syncCallback (H := sample_env false) mainnet (first ++ second)
         false sample_store
  /\ (Wyvern.syncCallback (H := sample_env false) mainnet (first ++ second)
        false sample_store).2 = Throw SqlError.
Proof.
  intros first second.
  assert (Hnone : Wyvern.bulkCancelEvents
                    (Wyvern.parsed (H := sample_env false) first) = [])
    by (vm_compute; reflexivity).
  destruct (WyvernProps.batch_in_two_parts (H := sample_env false) mainnet
              first second false sample_store (or_intror (or_intror Hnone)))
    as [Hok Hsame].
  split; [exact Hnone|]. split; [exact Hok|]. split; [exact Hsame|].
  vm_compute. reflexivity.
Defined.

Lemma work_items_in_step_example :
  length (Wyvern.hashInfos (Wyvern.parsed (H := sample_env true) mixed_logs))
  = (length (Wyvern.cancelEvents (Wyvern.parsed (H := sample_env true) mixed_logs))
     + 2 * length (Wyvern.fillEvents
                     (Wyvern.parsed (H := sample_env true) mixed_logs)))%nat.
Proof.
  exact (proj2 (proj2 (WyvernProps.work_items_in_step_with_events
                         (H := sample_env true) mixed_logs))).
Defined.

(** Two logs of one transaction and one log index, in different blocks. *)
Lemma context_example :
  let log1 := sample_log "OrderCancelled" 3 in
  let log2 :=
    {| Wyvern.log_blockNumber := 8; Wyvern.log_blockHash := "0xB10D";
       Wyvern.log_address := "0xE0"; Wyvern.log_data := "0x";
       Wyvern.topics := [sample_topic "OrderCancelled"];
       Wyvern.log_transactionHash := "0xF1"; Wyvern.log_logIndex := 3 |} in
  is_Some (sample_parseEvent log1)
  /\ is_Some (sample_parseEvent log2)
  /\ ~ Wyvern.has_char "-" "0xf1"
  /\ "0xf1-3" ∈ Wyvern.contexts (Wyvern.contribution (H := sample_env true) log1)
  /\ "0xf1-3" ∈ Wyvern.contexts (Wyvern.contribution (H := sample_env true) log2)
  /\ Js.toLowerCase (Wyvern.log_transactionHash log1)
     = Js.toLowerCase (Wyvern.log_transactionHash log2).
Proof.
  intros log1 log2.
  assert (Hno : ~ Wyvern.has_char "-" "0xf1") by no_such_char.
  assert (H1 : "0xf1-3" ∈ Wyvern.contexts
                 (Wyvern.contribution (H := sample_env true) log1))
    by (vm_compute; left).
  assert (H2 : "0xf1-3" ∈ Wyvern.contexts
                 (Wyvern.contribution (H := sample_env true) log2))
    by (vm_compute; left).
  split; [by eexists|]. split; [by eexists|]. split; [exact Hno|].
  split; [exact H1|]. split; [exact H2|].
  exact (proj1 (WyvernProps.context_identifies_the_event (H := sample_env true)
                  log1 log2 _ _ "0xf1-3" eq_refl eq_refl Hno Hno H1 H2)).
Defined.

(** ** The sweep *)

(** The buy row "0x0c" is in the table twice: three jobs, and the events of
    the buy orders "0x0a" and "0x0c" are gone. *)
Lemma twin_sweep_example :
  RemoveBuyOrderEvents.exact_round_trip (H := pg_timestamps)
    (RemoveBuyOrderEvents.orders twin_store)
  /\ RemoveBuyOrderEvents.jobs twin_store = [None]
  /\ (length (RemoveBuyOrderEvents.buy_orders
                (RemoveBuyOrderEvents.orders twin_store)) < 10)%nat
  /\ RemoveBuyOrderEvents.jobs
       (RemoveBuyOrderEvents.run (H := pg_timestamps) 10 twin_store).2 = []
  /\ RemoveBuyOrderEvents.OrderEvent.order_id <$>
       RemoveBuyOrderEvents.order_events
         (RemoveBuyOrderEvents.run (H := pg_timestamps) 10 twin_store).2
     = ["0x0b"; "0x0e"].
Proof.
  assert (Hexact : RemoveBuyOrderEvents.exact_round_trip (H := pg_timestamps)
                     (RemoveBuyOrderEvents.orders twin_store))
    by (apply (bool_decide_unpack _); vm_compute; exact I).
  assert (Hfuel : (length (RemoveBuyOrderEvents.buy_orders
                     (RemoveBuyOrderEvents.orders twin_store)) < 10)%nat)
    by (vm_compute; lia).
  destruct (RemoveBuyOrderEventsProps.sweep_deletes_buy_order_events
              (H := pg_timestamps) twin_store 10 Hexact eq_refl Hfuel)
    as (Hjobs & _ & _ & _ & Hevents).
  split; [exact Hexact|]. split; [reflexivity|]. split; [exact Hfuel|].
  split; [exact Hjobs|].
  rewrite Hevents. vm_compute. reflexivity.
Defined.

(** The rows of 2023 are read from the latest to the earliest. *)
Lemma newest_first_example :
  RemoveBuyOrderEvents.exact_round_trip (H := pg_timestamps)
    (RemoveBuyOrderEvents.orders year_2023_store)
  /\ NoDup (RemoveBuyOrderEvents.key <$>
              RemoveBuyOrderEvents.buy_orders
                (RemoveBuyOrderEvents.orders year_2023_store))
  /\ RemoveBuyOrderEvents.jobs year_2023_store = [None]
  /\ (length (RemoveBuyOrderEvents.buy_orders
                (RemoveBuyOrderEvents.orders year_2023_store)) < 10)%nat
  /\ (RemoveBuyOrderEvents.run (H := pg_timestamps) 10 year_2023_store).1
     = [ None;
         Some {| RemoveBuyOrderEvents.id := "0x03";
                 RemoveBuyOrderEvents.createdAt :=
                   Qmake 1700000000000004 1000000 |};
         Some {| RemoveBuyOrderEvents.id := "0x02";
                 RemoveBuyOrderEvents.createdAt :=
                   Qmake 1700000000000003 1000000 |};
         Some {| RemoveBuyOrderEvents.id := "0x01";
                 RemoveBuyOrderEvents.createdAt :=
                   Qmake 1700000000000002 1000000 |} ].
Proof.
  assert (Hexact : RemoveBuyOrderEvents.exact_round_trip (H := pg_timestamps)
                     (RemoveBuyOrderEvents.orders year_2023_store))
    by (apply (bool_decide_unpack _); vm_compute; exact I).
  assert (Hkeys : NoDup (RemoveBuyOrderEvents.key <$>
            RemoveBuyOrderEvents.buy_orders
              (RemoveBuyOrderEvents.orders year_2023_store)))
    by (apply (bool_decide_unpack _); vm_compute; exact I).
  assert (Hfuel : (length (RemoveBuyOrderEvents.buy_orders
                     (RemoveBuyOrderEvents.orders year_2023_store)) < 10)%nat)
    by (vm_compute; lia).
  destruct (RemoveBuyOrderEventsProps.sweep_reads_newest_first
              (H := pg_timestamps) year_2023_store 10 Hexact Hkeys eq_refl Hfuel)
    as (Hrun & _).
  split; [exact Hexact|]. split; [exact Hkeys|]. split; [reflexivity|].
  split; [exact Hfuel|].
  rewrite Hrun. vm_compute. reflexivity.
Defined.


Lemma three_instances_example :
  doBackgroundWork mainnet = true
  /\ RemoveBuyOrderEvents.locks idle_store
       !! "remove-buy-order-events-queue-lock" = None
  /\ (0 < 3)%nat
  /\ RemoveBuyOrderEvents.jobs
       (RemoveBuyOrderEvents.start_instances 3 mainnet idle_store) = [None].
Proof.
  assert (Hfree : RemoveBuyOrderEvents.locks idle_store
                    !! "remove-buy-order-events-queue-lock" = None)
    by apply lookup_empty.
  assert (Hpos : (0 < 3)%nat) by lia.
  destruct (RemoveBuyOrderEventsProps.sweep_started_once mainnet idle_store 3
              eq_refl) as [Hstarted _].
  destruct (Hstarted Hfree Hpos) as (Hjobs & _).
  split; [reflexivity|]. split; [exact Hfree|]. split; [exact Hpos|].
  exact Hjobs.
Defined.

(** ** The attribute resync queue *)

Lemma two_tokens_example :
  let both :=
    ResyncAttributeCache.addToQueue "0xc1" "43" None
      (ResyncAttributeCache.addToQueue "0xc1" "42" None ∅) in
  ~ Wyvern.has_char ":" "0xc1"
  /\ ("0xc1", "42") <> ("0xc1", "43")
  /\ size both = 2%nat.
Proof.
  intros both.
  assert (Hno : ~ Wyvern.has_char ":" "0xc1") by no_such_char.
  assert (Hdiff : ("0xc1", "42") <> ("0xc1", "43")) by discriminate.
  destruct (ResyncAttributeCacheProps.different_tokens_different_jobs
              "0xc1" "42" "0xc1" "43" None None ∅ Hno Hno Hdiff
              (lookup_empty _) (lookup_empty _)) as (_ & Hsize & _).
  split; [exact Hno|]. split; [exact Hdiff|]. exact Hsize.
Defined.

(** With a colon in the contract string two different pairs can meet in one
    job id, and the second is then not enqueued. *)
Example colon_in_contract_collides :
  size (ResyncAttributeCache.addToQueue "a" "b:c" None
          (ResyncAttributeCache.addToQueue "a:b" "c" None ∅)) = 1%nat.
Proof. vm_compute. reflexivity. Qed.

End MoreExamples.
